(** * ts-interface-checker: the checker compiler and the checker facade

    A shallow embedding of [lib/types.ts] (type nodes and their [getChecker]
    methods) and [lib/index.ts] (the [Checker] facade).

    - JavaScript values are an inductive type [value]; an object is the
      association list of its own enumerable string-keyed properties, and
      inherits from [Object.prototype].
    - A [CheckerFunc] closure is represented by its code and captured
      variables ([Chk]); [run] applies such a closure to a value and a
      context.
    - [getChecker] is the compiler; it threads the mutable state reached by
      compilation: the [_checkerBeingBuilt] slots of [TName] nodes and the
      [allowedProps] sets.
    - Thrown JavaScript exceptions are the [Err] results of an error monad. *)

From Stdlib Require Import List String ZArith Bool Lia Arith Ascii.
From Stdlib Require Import DecimalString Permutation.
Import ListNotations.

Set Warnings "-register-all".

Open Scope string_scope.

(** ** Results of fallible code *)

Inductive error : Type :=
| TypeError (msg : string)      (* thrown by the JavaScript runtime *)
| Error (msg : string)          (* [throw new Error(msg)] in the source *)
| VError (path : string) (msg : string)  (* thrown by [check] *)
| OutOfFuel                     (* [getChecker] recursion budget exhausted *)
| RunOutOfFuel                  (* checker call depth budget exhausted *)
| Unmodelled.                   (* outside the modelled fragment of JavaScript *)

Inductive res (A : Type) : Type :=
| Ok (a : A)
| Err (e : error).
Arguments Ok {A} a.
Arguments Err {A} e.

Definition bind {A B : Type} (r : res A) (k : A -> res B) : res B :=
  match r with
  | Ok a => k a
  | Err e => Err e
  end.

Notation "'let*' x ':=' r 'in' k" := (bind r (fun x => k))
  (at level 10, x pattern, r at level 100, k at level 200).

(** ** JavaScript values *)

(** The numbers: the integers and [NaN].  The other doubles compare like
    the integers do, by their value; [NaN] is the one number that is not
    [===] to itself. *)
Inductive number : Type :=
| Int (z : Z)
| NaN.

Coercion Int : Z >-> number.
Bind Scope Z_scope with number.

Inductive value : Type :=
| VUndefined
| VNull
| VBool (b : bool)
| VNumber (n : number)
| VString (s : string)
| VFunction
| VArray (items : list value)
| VObject (props : list (string * value)).

(** [a === b]. Arrays, objects and functions compare by reference; the type
    graph and a checked value share no object, so such a comparison between
    a value stored in a type node and a checked value is false. *)
Definition strict_eq (a b : value) : bool :=
  match a, b with
  | VUndefined, VUndefined => true
  | VNull, VNull => true
  | VBool x, VBool y => Bool.eqb x y
  | VNumber (Int x), VNumber (Int y) => Z.eqb x y
  | VString x, VString y => String.eqb x y
  | _, _ => false
  end.

(** The comparison of [Set.prototype.has], SameValueZero: [===], except
    that [NaN] is the same as [NaN]. *)
Definition same_value_zero (a b : value) : bool :=
  match a, b with
  | VNumber NaN, VNumber NaN => true
  | _, _ => strict_eq a b
  end.

Definition is_undefined (v : value) : bool :=
  match v with VUndefined => true | _ => false end.

(** [Array.isArray(value)] *)
Definition isArray (v : value) : bool :=
  match v with VArray _ => true | _ => false end.

(** [typeof value === "object" && value !== null] *)
Definition is_object (v : value) : bool :=
  match v with VArray _ | VObject _ => true | _ => false end.

(** [typeof value === "function"] *)
Definition is_function (v : value) : bool :=
  match v with VFunction => true | _ => false end.

(** Decimal rendering of an array index, as JavaScript property keys. *)
Definition index_key (i : nat) : string :=
  NilEmpty.string_of_uint (Nat.to_uint i).

Fixpoint assoc {A : Type} (k : string) (l : list (string * A)) : option A :=
  match l with
  | [] => None
  | (k', a) :: l' => if String.eqb k k' then Some a else assoc k l'
  end.

(** [value[i]] for an array: out of range reads give [undefined]. *)
Definition get_index (items : list value) (i : nat) : value :=
  nth i items VUndefined.

(** The string-keyed properties of [Object.prototype] (ECMAScript 2023,
    20.1.3 and B.2.2): every object and array inherits them. *)
Definition Object_prototype : list string :=
  [ "constructor"; "hasOwnProperty"; "isPrototypeOf"; "propertyIsEnumerable";
    "toLocaleString"; "toString"; "valueOf"; "__proto__";
    "__defineGetter__"; "__defineSetter__"; "__lookupGetter__"; "__lookupSetter__" ].

(** The string-keyed properties of [Array.prototype] (ECMAScript 2023,
    23.1.3). *)
Definition Array_prototype : list string :=
  [ "at"; "concat"; "constructor"; "copyWithin"; "entries"; "every"; "fill";
    "filter"; "find"; "findIndex"; "findLast"; "findLastIndex"; "flat";
    "flatMap"; "forEach"; "includes"; "indexOf"; "join"; "keys";
    "lastIndexOf"; "map"; "pop"; "push"; "reduce"; "reduceRight"; "reverse";
    "shift"; "slice"; "some"; "sort"; "splice"; "toLocaleString";
    "toReversed"; "toSorted"; "toSpliced"; "toString"; "unshift"; "values";
    "with" ].

Definition is_member (name : string) (names : list string) : bool :=
  existsb (String.eqb name) names.

(** [value[name]] where the value has no own property [name]: the lookup
    goes on in the prototype chain.  The members of the prototypes are
    functions, except [__proto__], which gives the prototype object; that
    object is modelled by [proto], an empty object or array: it has no
    enumerable key and the same members (what is not modelled is that its
    own [__proto__] is the next prototype, or null). *)
Definition inherited (names : list string) (proto : value) (name : string) : value :=
  if String.eqb name "__proto__" then proto
  else if is_member name names then VFunction
  else VUndefined.

(** [value[name]] for an object-like value: an own property, or else a
    property inherited from [Array.prototype] or [Object.prototype]. *)
Definition get_prop (v : value) (name : string) : value :=
  match v with
  | VObject props =>
      match assoc name props with
      | Some x => x
      | None => inherited Object_prototype (VObject []) name
      end
  | VArray items =>
      if String.eqb name "length" then VNumber (Z.of_nat (List.length items))
      else match find (fun i => String.eqb name (index_key i)) (seq 0 (List.length items)) with
           | Some i => get_index items i
           | None => inherited (Array_prototype ++ Object_prototype) (VArray []) name
           end
  | _ => VUndefined
  end.

(** The keys visited by [for (const prop in value)]. *)
Definition for_in_keys (v : value) : list string :=
  match v with
  | VObject props => map fst props
  | VArray items => map index_key (seq 0 (List.length items))
  | _ => []
  end.

(** ** Diagnostic contexts ([IContext] of [lib/util.ts]) *)

(** The [relPath] argument of [fail]: [string | number | null]. *)
Inductive key : Type :=
| KNull
| KIndex (i : nat)
| KName (name : string).

(** The methods the checkers call on a context, in state-passing style.
    A context object is mutated in place by the checker it is handed to;
    here a checker returns the context's new state.  [fork] gives the child
    and [completeFork] receives the child's final state; [createContext]
    gives a union alternative's context and [attachContext] hands its final
    state back to the resolver that owns it. *)
Record IContext (C U : Type) : Type := {
  fail : C -> key -> option string -> Z -> C;   (* always returns false *)
  fork : C -> C;
  completeFork : C -> C -> bool * C;
  failed : C -> bool;
  unionResolver : C -> U;
  createContext : U -> C;
  attachContext : U -> C -> U;
  resolveUnion : C -> U -> C
}.
Arguments fail {C U} _ _ _ _ _.
Arguments fork {C U} _ _.
Arguments completeFork {C U} _ _ _.
Arguments failed {C U} _ _.
Arguments unionResolver {C U} _ _.
Arguments createContext {C U} _ _.
Arguments attachContext {C U} _ _ _.
Arguments resolveUnion {C U} _ _ _.

(** Modelled from the spec: [NoopContext] of [lib/util.ts], which is not
    among the sources.  Section 4.1: the Noop context "returns fail as a
    boolean without recording anything"; [fork] creates "an isolated child
    context"; [completeFork] merges the fork back, errors accumulate and it
    does not short-circuit; [failed] tells whether a failure was recorded;
    a union resolver that saw an alternative succeed is discarded.  The
    context is therefore the one boolean "a failure happened". *)
Definition NoopContext : IContext bool unit := {|
  fail := fun _ _ _ _ => true;
  fork := fun _ => false;
  completeFork := fun parent child => (true, parent || child);
  failed := fun c => c;
  unionResolver := fun _ => tt;
  createContext := fun _ => false;
  attachContext := fun u _ => u;
  resolveUnion := fun c _ => c
|}.

(** [new NoopContext()] *)
Definition newNoop : bool := false.

(** ** Type nodes ([lib/types.ts]) *)

(** A [TName] object is identified by [node]: the [_checkerBeingBuilt] slot
    belongs to the object, and one object may occur at several places of a
    type graph.  [RestType] keeps its [typeSpec] unparsed, a node or a name.
    Fields computed by a constructor ([_failMsg], [name], [_start],
    [_restType]) are fields here as well.  [NotAType] is what [suite[name]]
    gives for a name that the suite does not define and [Object.prototype]
    does: a function or an object that is no type node. *)
Inductive TType : Type :=
| BasicType (validator : value -> bool) (message : string)
| TName (node : nat) (name : string)
| TLiteral (lit_value : value) (lit_name : string)
| TArray (ttype : TType)
| RestType (typeSpec : TType + string) (_start : option nat)
| TTuple (ttypes : list TType) (_restType : option TType)
| TUnion (ttypes : list TType) (_failMsg : string)
| TIntersection (ttypes : list TType)
| TPartial (ttype : TType)
| TEnumType (members : list (string * value))
| TEnumLiteral (enumName : string) (prop : string)
| TIface (bases : list string) (props : list TProp) (indexType : option TType)
| TOptional (ttype : TType)
| TFunc (paramList : TType) (result : TType)
| TParamList (params : list TParam)
| NotAType
with TProp : Type :=
| mkTProp (name : string) (ttype : TType) (isOpt : bool)
with TParam : Type :=
| mkTParam (name : string) (ttype : TType) (isOpt : bool).

Definition prop_name (p : TProp) : string := let 'mkTProp n _ _ := p in n.
Definition prop_ttype (p : TProp) : TType := let 'mkTProp _ t _ := p in t.
Definition prop_isOpt (p : TProp) : bool := let 'mkTProp _ _ o := p in o.
Definition param_name (p : TParam) : string := let 'mkTParam n _ _ := p in n.
Definition param_ttype (p : TParam) : TType := let 'mkTParam _ t _ := p in t.
Definition param_isOpt (p : TParam) : bool := let 'mkTParam _ _ o := p in o.

(** [ITypeSuite]: a suite is an object; [suite[name]] finds the first entry
    for [name], or else what the suite inherits from [Object.prototype]. *)
Definition ITypeSuite : Type := list (string * TType).

Definition getNamedType (suite : ITypeSuite) (name : string) : res TType :=
  match assoc name suite with
  | Some ttype => Ok ttype
  | None =>
      if is_member name Object_prototype then Ok NotAType
      else Err (Error ("Unknown type " ++ name))
  end.

Definition is_RestType (t : TType) : bool :=
  match t with RestType _ _ => true | _ => false end.

(** [setStart] *)
Definition setStart (t : TType) (start : nat) : TType :=
  match t with
  | RestType spec _ => RestType spec (Some start)
  | _ => t
  end.

(** [rest(typeSpec)] *)
Definition rest (typeSpec : TType + string) : TType := RestType typeSpec None.

(** The constructor of [TTuple]: a [RestType] in the last position is popped
    from [ttypes] and becomes [_restType], its start set to the length left. *)
Definition new_TTuple (ttypes : list TType) : TType :=
  match rev ttypes with
  | last :: front =>
      if is_RestType last
      then TTuple (rev front) (Some (setStart last (List.length (rev front))))
      else TTuple ttypes None
  | [] => TTuple ttypes None
  end.

(** [new TIface(bases, props, indexType)] *)
Definition new_TIface (bases : list string) (props : list TProp)
  (indexType : option TType) : TType := TIface bases props indexType.

(** ** Compiled checkers

    A [CheckerFunc] of the source is a closure; [Chk] gives each closure of
    [lib/types.ts] by its code and the variables it captured.  [CThunk] is
    the trampoline [(value, ctx) => checkerFunc!(value, ctx)] that
    [TName.getChecker] installs on its node; [CNamed] marks the checker that
    the same call finally assigns to the captured [checkerFunc]. *)
Inductive Chk : Type :=
| CBasic (validator : value -> bool) (message : string)
| CThunk (node : nat)
| CNamed (node : nat) (checkerFunc : Chk)
| CNameFail (checker : Chk) (failMsg : string)
| CLiteral (lit_value : value) (failMsg : string)
| CArray (itemChecker : Chk)
| CRest (itemChecker : Chk) (start : option nat)
| CTuple (itemCheckers : list Chk)
| CTupleRest (checker : Chk) (restChecker : Chk)
| CExtraneous (checker : Chk) (n : nat)
| CUnion (itemCheckers : list Chk) (failMsg : string)
| CIntersection (itemCheckers : list Chk)
| CPartial (itemChecker : Chk)
| COptional (itemChecker : Chk)
| CEnumType (validValues : list value) (failMsg : string)
| CEnumLiteral (val : value) (failMsg : string)
| CIface (baseCheckers : list Chk) (propCheckers : list (string * Chk * bool))
    (indexTypeChecker : option Chk) (strict : bool) (isPartial : bool)
    (allowedProps : nat)
| CFunc
| CParamList (itemCheckers : list (string * Chk * bool)).

(** The [allowedProps] sets, by allocation order. *)
Definition Heap : Type := list (list string).

Definition set_has (s : list string) (x : string) : bool :=
  existsb (String.eqb x) s.

Definition set_add (s : list string) (x : string) : list string :=
  if set_has s x then s else s ++ [x].

Definition heap_get (h : Heap) (r : nat) : list string := nth r h [].

Fixpoint heap_update (h : Heap) (r : nat) (f : list string -> list string) : Heap :=
  match h, r with
  | [], _ => []
  | s :: h', O => f s :: h'
  | s :: h', S r' => s :: heap_update h' r' f
  end.

(** The value of the captured [checkerFunc] variable of each [TName] call
    that has returned. *)
Definition Cells : Type := list (nat * Chk).

Fixpoint cell (env : Cells) (node : nat) : option Chk :=
  match env with
  | [] => None
  | (n, c) :: env' => if Nat.eqb node n then Some c else cell env' node
  end.

Section Run.
Context {C U : Type} (ops : IContext C U).

Definition CheckerFunc : Type := value -> C -> res (bool * C).

(** [return ctx.fail(relPath, message, score)] *)
Definition ret_fail (ctx : C) (k : key) (m : option string) (score : Z)
  : res (bool * C) :=
  Ok (false, fail ops ctx k m score).

(** [for (let i = ...; i < value.length; i++)] of [TArray] and [RestType];
    [items] are the elements from index [i] on. *)
Fixpoint array_loop (itemChecker : CheckerFunc) (items : list value) (i : nat)
  (ctx : C) : res (bool * C) :=
  match items with
  | [] => Ok (true, ctx)
  | x :: items' =>
      let* (ok, ctx1) := itemChecker x ctx in
      if ok then array_loop itemChecker items' (S i) ctx1
      else ret_fail ctx1 (KIndex i) None 1
  end.

(** The loop of [TTuple]'s [checker] over [itemCheckers]. *)
Fixpoint tuple_loop (call : Chk -> CheckerFunc) (itemCheckers : list Chk)
  (items : list value) (i : nat) (ctx : C) : res (bool * C) :=
  match itemCheckers with
  | [] => Ok (true, ctx)
  | c :: cs =>
      let* (ok, ctx1) := call c (get_index items i) ctx in
      if ok then tuple_loop call cs items (S i) ctx1
      else ret_fail ctx1 (KIndex i) None 1
  end.

(** The loop of [TParamList]'s [checker]. *)
Fixpoint param_loop (call : Chk -> CheckerFunc)
  (itemCheckers : list (string * Chk * bool)) (items : list value) (i : nat)
  (ctx : C) : res (bool * C) :=
  match itemCheckers with
  | [] => Ok (true, ctx)
  | (pname, c, isParamRequired) :: cs =>
      if is_undefined (get_index items i) then
        if isParamRequired then ret_fail ctx (KName pname) (Some "is missing") 1
        else param_loop call cs items (S i) ctx
      else
        let* (ok, ctx1) := call c (get_index items i) ctx in
        if ok then param_loop call cs items (S i) ctx1
        else ret_fail ctx1 (KName pname) None 1
  end.

(** The loop of [TUnion]'s checker; [false] when no alternative passed. *)
Fixpoint union_loop (call : Chk -> CheckerFunc) (itemCheckers : list Chk)
  (v : value) (ur : U) : res (bool * U) :=
  match itemCheckers with
  | [] => Ok (false, ur)
  | c :: cs =>
      let* (ok, child) := call c v (createContext ops ur) in
      if ok then Ok (true, attachContext ops ur child)
      else union_loop call cs v (attachContext ops ur child)
  end.

(** [checker(value, ctx.fork()); ctx.completeFork()] over a list of
    checkers, stopping at the first [completeFork] that returns false:
    the [every] of [TIntersection] and the base loop of [TIface]. *)
Fixpoint fork_loop (call : Chk -> CheckerFunc) (checkers : list Chk)
  (v : value) (ctx : C) : res (bool * C) :=
  match checkers with
  | [] => Ok (true, ctx)
  | c :: cs =>
      let* (_, child) := call c v (fork ops ctx) in
      let (go, ctx1) := completeFork ops ctx child in
      if go then fork_loop call cs v ctx1 else Ok (false, ctx1)
  end.

(** One property of [TIface]'s property loop; the boolean is false when
    the checker returns false at once. *)
Definition prop_step (call : Chk -> CheckerFunc) (isPartial : bool)
  (p : string * Chk * bool) (v : value) (ctx : C) : res (bool * C) :=
  let '(name, c, isPropRequired) := p in
  let x := get_prop v name in
  if is_undefined x then
    if isPropRequired && negb isPartial then
      Ok (completeFork ops ctx
            (fail ops (fork ops ctx) (KName name) (Some "is missing") 1))
    else Ok (true, ctx)
  else
    let* (ok, child) := call c x (fork ops ctx) in
    Ok (completeFork ops ctx
          (if ok then child else fail ops child (KName name) None 1)).

Fixpoint prop_loop (call : Chk -> CheckerFunc) (isPartial : bool)
  (propCheckers : list (string * Chk * bool)) (v : value) (ctx : C)
  : res (bool * C) :=
  match propCheckers with
  | [] => Ok (true, ctx)
  | p :: ps =>
      let* (go, ctx1) := prop_step call isPartial p v ctx in
      if go then prop_loop call isPartial ps v ctx1 else Ok (false, ctx1)
  end.

(** The index-signature loop of [TIface] over the keys of the value. *)
Fixpoint index_loop (indexTypeChecker : CheckerFunc) (keys : list string)
  (v : value) (ctx : C) : res (bool * C) :=
  match keys with
  | [] => Ok (true, ctx)
  | k :: ks =>
      let* (ok, child) := indexTypeChecker (get_prop v k) (fork ops ctx) in
      let (go, ctx1) :=
        completeFork ops ctx (if ok then child else fail ops child (KName k) None 1) in
      if go then index_loop indexTypeChecker ks v ctx1 else Ok (false, ctx1)
  end.

(** The strict-mode loop of [TIface] that reports unknown properties. *)
Fixpoint extraneous_loop (allowed : list string) (keys : list string) (ctx : C)
  : bool * C :=
  match keys with
  | [] => (true, ctx)
  | k :: ks =>
      if set_has allowed k then extraneous_loop allowed ks ctx
      else
        let (go, ctx1) :=
          completeFork ops ctx
            (fail ops (fork ops ctx) (KName k) (Some "is extraneous") 2) in
        if go then extraneous_loop allowed ks ctx1 else (false, ctx1)
  end.

(** Applying a compiled checker: [checkerFunc(value, ctx)].  [fuel] bounds
    the depth of nested checker calls, [heap] holds the [allowedProps]
    sets and [env] the assigned [checkerFunc] variables. *)
Fixpoint run (fuel : nat) (heap : Heap) (env : Cells) (c : Chk) (v : value)
  (ctx : C) {struct fuel} : res (bool * C) :=
  match fuel with
  | O => Err RunOutOfFuel
  | S f =>
      let call := run f heap env in
      match c with
      | CBasic validator message =>
          if validator v then Ok (true, ctx) else ret_fail ctx KNull (Some message) 0
      | CThunk node =>
          match cell env node with
          | Some checkerFunc => call checkerFunc v ctx
          | None => Err (TypeError "checkerFunc is not a function")
          end
      | CNamed node checkerFunc =>
          run f heap ((node, checkerFunc) :: env) checkerFunc v ctx
      | CNameFail checker failMsg =>
          let* (ok, ctx1) := call checker v ctx in
          if ok then Ok (true, ctx1) else ret_fail ctx1 KNull (Some failMsg) 0
      | CLiteral lit failMsg =>
          if strict_eq v lit then Ok (true, ctx)
          else ret_fail ctx KNull (Some failMsg) (-1)
      | CArray itemChecker =>
          match v with
          | VArray items => array_loop (call itemChecker) items 0 ctx
          | _ => ret_fail ctx KNull (Some "is not an array") 0
          end
      | CRest itemChecker start =>
          match v with
          | VUndefined =>
              Err (TypeError "Cannot read properties of undefined (reading 'length')")
          | VNull =>
              Err (TypeError "Cannot read properties of null (reading 'length')")
          | VArray items =>
              match start with
              | Some s => array_loop (call itemChecker) (skipn s items) s ctx
              | None => Ok (true, ctx)
              end
          | _ =>
              match start with
              | Some _ => Err Unmodelled
              | None => Ok (true, ctx)
              end
          end
      | CTuple itemCheckers =>
          match v with
          | VArray items => tuple_loop call itemCheckers items 0 ctx
          | _ => ret_fail ctx KNull (Some "is not an array") 0
          end
      | CTupleRest checker restChecker =>
          let* (ok, ctx1) := call checker v ctx in
          if ok then call restChecker v ctx1 else Ok (false, ctx1)
      | CExtraneous checker n =>
          let* (ok, ctx1) := call checker v ctx in
          if ok then
            match v with
            | VArray items =>
                if Nat.leb (List.length items) n then Ok (true, ctx1)
                else ret_fail ctx1 (KIndex n) (Some "is extraneous") 2
            | _ => Err Unmodelled
            end
          else Ok (false, ctx1)
      | CUnion itemCheckers failMsg =>
          let* (ok, ur) := union_loop call itemCheckers v (unionResolver ops ctx) in
          if ok then Ok (true, ctx)
          else ret_fail (resolveUnion ops ctx ur) KNull (Some failMsg) 0
      | CIntersection itemCheckers =>
          let* (all, ctx1) := fork_loop call itemCheckers v ctx in
          Ok (all && negb (failed ops ctx1), ctx1)
      | CPartial itemChecker =>
          if is_undefined v then Ok (true, ctx) else call itemChecker v ctx
      | COptional itemChecker =>
          if is_undefined v then Ok (true, ctx) else call itemChecker v ctx
      | CEnumType validValues failMsg =>
          if existsb (same_value_zero v) validValues then Ok (true, ctx)
          else ret_fail ctx KNull (Some failMsg) 0
      | CEnumLiteral val failMsg =>
          if strict_eq v val then Ok (true, ctx)
          else ret_fail ctx KNull (Some failMsg) (-1)
      | CIface baseCheckers propCheckers indexTypeChecker strict isPartial allowedProps =>
          if negb (is_object v) then ret_fail ctx KNull (Some "is not an object") 0
          else
            let* (go1, ctx1) := fork_loop call baseCheckers v ctx in
            if negb go1 then Ok (false, ctx1) else
            let* (go2, ctx2) := prop_loop call isPartial propCheckers v ctx1 in
            if negb go2 then Ok (false, ctx2) else
            let* (go3, ctx3) :=
              match indexTypeChecker with
              | Some ic => index_loop (call ic) (for_in_keys v) v ctx2
              | None =>
                  if strict
                  then Ok (extraneous_loop (heap_get heap allowedProps) (for_in_keys v) ctx2)
                  else Ok (true, ctx2)
              end in
            if negb go3 then Ok (false, ctx3)
            else Ok (negb (failed ops ctx3), ctx3)
      | CFunc =>
          if is_function v then Ok (true, ctx)
          else ret_fail ctx KNull (Some "is not a function") 0
      | CParamList itemCheckers =>
          match v with
          | VArray items => param_loop call itemCheckers items 0 ctx
          | _ => ret_fail ctx KNull (Some "is not an array") 0
          end
      end
  end.
End Run.

(** ** The checker compiler: [getChecker] *)

(** The mutable state reached by compilation: [building] lists the [TName]
    nodes whose [_checkerBeingBuilt] slot holds a trampoline, [sets] are the
    [allowedProps] sets allocated so far. *)
Record CompileState : Type := {
  building : list nat;
  sets : Heap
}.

(** Compilation steps: a result or a thrown error, and the state left. *)
Definition M (A : Type) : Type := CompileState -> res A * CompileState.

Definition ret {A : Type} (a : A) : M A := fun s => (Ok a, s).
Definition throw {A : Type} (e : error) : M A := fun s => (Err e, s).
Definition lift {A : Type} (r : res A) : M A := fun s => (r, s).
Definition mbind {A B : Type} (m : M A) (k : A -> M B) : M B :=
  fun s =>
    match m s with
    | (Ok a, s1) => k a s1
    | (Err e, s1) => (Err e, s1)
    end.

Notation "x <- m ;; k" := (mbind m (fun x => k))
  (at level 61, m at next level, right associativity).

Fixpoint mapM {A B : Type} (f : A -> M B) (l : list A) : M (list B) :=
  match l with
  | [] => ret []
  | a :: l' => b <- f a ;; bs <- mapM f l' ;; ret (b :: bs)
  end.

(** [try { m } finally { f }] *)
Definition finally {A : Type} (m : M A) (f : CompileState -> CompileState) : M A :=
  fun s => let (r, s1) := m s in (r, f s1).

Definition slot_set (node : nat) (s : CompileState) : bool :=
  existsb (Nat.eqb node) (building s).

(** [this._checkerBeingBuilt = (value, ctx) => checkerFunc!(value, ctx)] *)
Definition install (node : nat) (s : CompileState) : CompileState :=
  {| building := node :: building s; sets := sets s |}.

(** [this._checkerBeingBuilt = undefined] *)
Definition uninstall (node : nat) (s : CompileState) : CompileState :=
  {| building := filter (fun n => negb (Nat.eqb node n)) (building s);
     sets := sets s |}.

(** [new Set()] *)
Definition new_set : M nat :=
  fun s => (Ok (List.length (sets s)),
            {| building := building s; sets := (sets s ++ [[]])%list |}).

(** The default value [new Set()] of the parameter [allowedProps]. *)
Definition default_set (allowedProps : option nat) : M nat :=
  match allowedProps with
  | Some a => ret a
  | None => new_set
  end.

(** [propSet.forEach((prop) => allowedProps.add(prop))] *)
Definition add_all (a : nat) (names : list string) : M unit :=
  fun s => (Ok tt,
            {| building := building s;
               sets := heap_update (sets s) a (fun set => fold_left set_add names set) |}).

(** [items.map((item, i) => !item.isOpt && !checkers[i](undefined, testCtx))]
    with the one [testCtx = new NoopContext()] shared by all the calls. *)
Fixpoint probe_required (pfuel : nat) (heap : Heap) (items : list (bool * Chk))
  (testCtx : bool) : res (list bool) :=
  match items with
  | [] => Ok []
  | (isOpt, c) :: items' =>
      if isOpt then
        let* r := probe_required pfuel heap items' testCtx in Ok (false :: r)
      else
        let* (ok, testCtx1) := run NoopContext pfuel heap [] c VUndefined testCtx in
        let* r := probe_required pfuel heap items' testCtx1 in
        Ok (negb ok :: r)
  end.

(** The state of the shared [testCtx] when [probe_required] reaches the
    item at index [i]. *)
Fixpoint testCtx_before (pfuel : nat) (heap : Heap) (items : list (bool * Chk))
  (i : nat) (testCtx : bool) : res bool :=
  match i, items with
  | S i', (isOpt, c) :: items' =>
      if isOpt then testCtx_before pfuel heap items' i' testCtx
      else
        let* (_, testCtx1) := run NoopContext pfuel heap [] c VUndefined testCtx in
        testCtx_before pfuel heap items' i' testCtx1
  | _, _ => Ok testCtx
  end.

Definition is_Basic_or_Name (t : TType) : bool :=
  match t with BasicType _ _ | TName _ _ => true | _ => false end.

(** [combine3 names checkers required] *)
Definition zip3 (names : list string) (checkers : list Chk) (required : list bool)
  : list (string * Chk * bool) :=
  combine (combine names checkers) required.

(** [callee.getChecker(...)] on what [getNamedType] returned: the runtime
    throws a [TypeError] naming the expression [callee] when that is no
    type node.  (In [getChecker] below, the case [NotAType] is this error
    for the call [ttype.getChecker(...)] of [TName._getChecker].) *)
Definition getChecker_of (callee : string) (getC : TType -> M Chk) (ttype : TType) : M Chk :=
  match ttype with
  | NotAType => throw (TypeError (callee ++ ".getChecker is not a function"))
  | _ => getC ttype
  end.

(** [ttype.getChecker(suite, strict, isPartial, allowedProps)], by cases on
    the class of [ttype].  [fuel] bounds the depth of nested [getChecker]
    calls and [pfuel] the call depth of the checkers that compilation runs. *)
Fixpoint getChecker (fuel pfuel : nat) (suite : ITypeSuite) (strict isPartial : bool)
  (allowedProps : option nat) (t : TType) {struct fuel} : M Chk :=
  match fuel with
  | O => throw OutOfFuel
  | S f =>
      let getC := getChecker f pfuel suite in
      match t with
      | BasicType validator message => ret (CBasic validator message)
      | TName node name =>
          fun s =>
            if slot_set node s then (Ok (CThunk node), s)
            else
              finally
                (ttype <- lift (getNamedType suite name) ;;
                 checker <- getC strict isPartial allowedProps ttype ;;
                 if is_Basic_or_Name ttype then ret (CNamed node checker)
                 else ret (CNamed node (CNameFail checker ("is not a " ++ name))))
                (uninstall node) (install node s)
      | TLiteral lit lit_name => ret (CLiteral lit ("is not " ++ lit_name))
      | TArray ttype =>
          itemChecker <- getC strict false None ttype ;;
          ret (CArray itemChecker)
      | RestType typeSpec start =>
          arrType <- match typeSpec with
                     | inr name => lift (getNamedType suite name)
                     | inl ttype => ret ttype
                     end ;;
          match arrType with
          | TArray ttype =>
              itemChecker <- getC strict false None ttype ;;
              ret (CRest itemChecker start)
          | _ => throw (Error "Rest type must be an array")
          end
      | TTuple ttypes restType =>
          itemCheckers <- mapM (getC strict false None) ttypes ;;
          match restType with
          | Some r =>
              restChecker <- getC strict false None r ;;
              ret (CTupleRest (CTuple itemCheckers) restChecker)
          | None =>
              if strict
              then ret (CExtraneous (CTuple itemCheckers) (List.length itemCheckers))
              else ret (CTuple itemCheckers)
          end
      | TUnion ttypes failMsg =>
          itemCheckers <- mapM (getC strict isPartial allowedProps) ttypes ;;
          ret (CUnion itemCheckers failMsg)
      | TIntersection ttypes =>
          a <- default_set allowedProps ;;
          itemCheckers <- mapM (getC strict isPartial (Some a)) ttypes ;;
          ret (CIntersection itemCheckers)
      | TPartial ttype =>
          itemChecker <- getC strict true None ttype ;;
          ret (CPartial itemChecker)
      | TEnumType members =>
          ret (CEnumType (map snd members) "is not a valid enum value")
      | TEnumLiteral enumName prop =>
          ttype <- lift (getNamedType suite enumName) ;;
          match ttype with
          | TEnumType members =>
              match assoc "hasOwnProperty" members with
              | Some _ =>
                  (* [ttype.members.hasOwnProperty] is the member's value *)
                  throw (TypeError "ttype.members.hasOwnProperty is not a function")
              | None =>
                  match assoc prop members with
                  | Some val =>
                      ret (CEnumLiteral val ("is not " ++ enumName ++ "." ++ prop))
                  | None =>
                      throw (Error ("Unknown value " ++ enumName ++ "." ++ prop
                                    ++ " used in enumlit"))
                  end
              end
          | _ =>
              throw (Error ("Type " ++ enumName ++ " used in enumlit is not an enum type"))
          end
      | TIface bases props indexType =>
          a <- default_set allowedProps ;;
          _ <- add_all a (map prop_name props) ;;
          baseCheckers <-
            mapM (fun b => base <- lift (getNamedType suite b) ;;
                           getChecker_of "getNamedType(...)"
                             (getC strict isPartial (Some a)) base) bases ;;
          propCheckers <- mapM (fun p => getC strict isPartial None (prop_ttype p)) props ;;
          indexTypeChecker <-
            match indexType with
            | Some it => c <- getC strict isPartial None it ;; ret (Some c)
            | None => ret None
            end ;;
          isPropRequired <-
            (fun s => (probe_required pfuel (sets s)
                         (combine (map prop_isOpt props) propCheckers) newNoop, s)) ;;
          ret (CIface baseCheckers
                 (zip3 (map prop_name props) propCheckers isPropRequired)
                 indexTypeChecker strict isPartial a)
      | TOptional ttype =>
          itemChecker <- getC strict false None ttype ;;
          ret (COptional itemChecker)
      | TFunc _ _ => ret CFunc
      | TParamList params =>
          itemCheckers <- mapM (fun p => getC strict false None (param_ttype p)) params ;;
          isParamRequired <-
            (fun s => (probe_required pfuel (sets s)
                         (combine (map param_isOpt params) itemCheckers) newNoop, s)) ;;
          let checker :=
            CParamList (zip3 (map param_name params) itemCheckers isParamRequired) in
          if strict then ret (CExtraneous checker (List.length itemCheckers))
          else ret checker
      | NotAType => throw (TypeError "ttype.getChecker is not a function")
      end
  end.

(** ** The detail context *)

Definition Frame : Type := (key * option string * Z)%type.

(** Modelled from the spec: [DetailContext] of [lib/util.ts], which is not
    among the sources.  Section 4.1: it "maintains a stack of frames (key,
    message, score)"; [fail] pushes a frame; [fork] creates an isolated
    child; [completeFork] merges the most recent fork back into the parent,
    errors accumulate; [failed] is "whether any frame was recorded". *)
Inductive DetailContext : Type :=
| mkDetail (frames : list Frame) (forks : list DetailContext).

Definition detail_empty : DetailContext := mkDetail [] [].

Definition detail_failed (d : DetailContext) : bool :=
  match d with
  | mkDetail [] [] => false
  | _ => true
  end.

Definition detail_fail (d : DetailContext) (k : key) (m : option string) (score : Z)
  : DetailContext :=
  let 'mkDetail frames forks := d in mkDetail (frames ++ [(k, m, score)])%list forks.

Definition detail_completeFork (parent child : DetailContext) : bool * DetailContext :=
  let 'mkDetail frames forks := parent in
  (true, if detail_failed child then mkDetail frames (forks ++ [child])%list else parent).

Fixpoint detail_depth (d : DetailContext) : nat :=
  let 'mkDetail frames forks := d in
  List.length frames + fold_right (fun f m => Nat.max (detail_depth f) m) 0 forks.

Fixpoint detail_score (d : DetailContext) : Z :=
  let 'mkDetail frames forks := d in
  (fold_right (fun fr z => snd fr + z) 0 frames
   + fold_right (fun f z => detail_score f + z) 0 forks)%Z.

(** Modelled from the spec: the union resolver "picks the child whose
    failure reached the greatest depth (primary) and highest cumulative
    score (tie-break)", ties going to the earlier alternative, "and promotes
    its frames into the parent". *)
Definition better (a b : DetailContext) : bool :=
  Nat.ltb (detail_depth a) (detail_depth b)
  || (Nat.eqb (detail_depth a) (detail_depth b)
      && Z.ltb (detail_score a) (detail_score b)).

Fixpoint best_of (cur : DetailContext) (l : list DetailContext) : DetailContext :=
  match l with
  | [] => cur
  | d :: l' => best_of (if better cur d then d else cur) l'
  end.

Definition detail_resolveUnion (d : DetailContext) (ur : list DetailContext)
  : DetailContext :=
  match ur with
  | [] => d
  | c :: cs =>
      let 'mkDetail frames forks := d in
      let 'mkDetail bframes bforks := best_of c cs in
      mkDetail (frames ++ bframes)%list (forks ++ bforks)%list
  end.

Definition frames_of (d : DetailContext) : list Frame :=
  let 'mkDetail frames _ := d in frames.

Definition forks_of (d : DetailContext) : list DetailContext :=
  let 'mkDetail _ forks := d in forks.

Definition DetailOps : IContext DetailContext (list DetailContext) := {|
  fail := detail_fail;
  fork := fun _ => detail_empty;
  completeFork := detail_completeFork;
  failed := detail_failed;
  unionResolver := fun _ => [];
  createContext := fun _ => detail_empty;
  attachContext := fun ur c => (ur ++ [c])%list;
  resolveUnion := detail_resolveUnion
|}.

(** [IErrorDetail] *)
Record IErrorDetail : Type := { path : string; message : string }.

Definition render_key (k : key) : string :=
  match k with
  | KNull => ""
  | KIndex i => "[" ++ index_key i ++ "]"
  | KName n => "." ++ n
  end.

(** Modelled from the spec (section 7): frames are leaf-first, the path
    joins their keys from the outermost on, numeric keys as [[i]] and string
    keys as [.name]; the message is the deepest recorded one. *)
Definition frames_path (root : string) (frames : list Frame) : string :=
  fold_left (fun p fr => p ++ render_key (fst (fst fr))) (rev frames) root.

Definition frames_message (frames : list Frame) : option string :=
  match filter (fun fr => match snd (fst fr) with Some _ => true | None => false end) frames with
  | fr :: _ => snd (fst fr)
  | [] => None
  end.

(** Modelled from the spec: [getErrorDetails(rootPath)] lists one entry per
    leaf-level failure, the merged forks giving parallel entries. *)
Fixpoint getErrorDetails (d : DetailContext) (root : string) : list IErrorDetail :=
  let 'mkDetail frames forks := d in
  let p := frames_path root frames in
  match forks with
  | [] =>
      match frames_message frames with
      | Some m => [ {| path := p; message := m |} ]
      | None => []
      end
  | _ => flat_map (fun f => getErrorDetails f p) forks
  end.

(** Modelled from the spec: [getError(rootPath)] is the single-message
    error, here the first entry of the details. *)
Definition getError (d : DetailContext) (root : string) : error :=
  match getErrorDetails d root with
  | e :: _ => VError (path e) (path e ++ " " ++ message e)
  | [] => VError root root
  end.

(** ** Measures of a type graph *)

(** The number of nodes of a type. *)
Fixpoint size (t : TType) : nat :=
  match t with
  | TArray ttype | TPartial ttype | TOptional ttype => S (size ttype)
  | RestType (inl ttype) _ => S (size ttype)
  | TTuple ttypes restType =>
      S (list_sum (map size ttypes)
         + match restType with Some r => size r | None => 0 end)
  | TUnion ttypes _ | TIntersection ttypes => S (list_sum (map size ttypes))
  | TIface _ props indexType =>
      S (list_sum (map (fun p => let 'mkTProp _ ttype _ := p in size ttype) props)
         + match indexType with Some it => size it | None => 0 end)
  | TFunc paramList result => S (size paramList + size result)
  | TParamList params =>
      S (list_sum (map (fun p => let 'mkTParam _ ttype _ := p in size ttype) params))
  | _ => 1
  end.

(** The [TName] nodes of a type. *)
Fixpoint names_of (t : TType) : list nat :=
  match t with
  | TName node _ => [node]
  | TArray ttype | TPartial ttype | TOptional ttype => names_of ttype
  | RestType (inl ttype) _ => names_of ttype
  | TTuple ttypes restType =>
      (flat_map names_of ttypes
       ++ match restType with Some r => names_of r | None => [] end)%list
  | TUnion ttypes _ | TIntersection ttypes => flat_map names_of ttypes
  | TIface _ props indexType =>
      (flat_map (fun p => let 'mkTProp _ ttype _ := p in names_of ttype) props
       ++ match indexType with Some it => names_of it | None => [] end)%list
  | TFunc paramList result => (names_of paramList ++ names_of result)%list
  | TParamList params =>
      flat_map (fun p => let 'mkTParam _ ttype _ := p in names_of ttype) params
  | _ => []
  end.

(** The type names that [getChecker] resolves without a trampoline: the
    bases of interfaces and the names given to [rest]. *)
Fixpoint direct_refs (t : TType) : list string :=
  match t with
  | TArray ttype | TPartial ttype | TOptional ttype => direct_refs ttype
  | RestType (inl ttype) _ => direct_refs ttype
  | RestType (inr name) _ => [name]
  | TTuple ttypes restType =>
      (flat_map direct_refs ttypes
       ++ match restType with Some r => direct_refs r | None => [] end)%list
  | TUnion ttypes _ | TIntersection ttypes => flat_map direct_refs ttypes
  | TIface bases props indexType =>
      (bases
       ++ flat_map (fun p => let 'mkTProp _ ttype _ := p in direct_refs ttype) props
       ++ match indexType with Some it => direct_refs it | None => [] end)%list
  | TParamList params =>
      flat_map (fun p => let 'mkTParam _ ttype _ := p in direct_refs ttype) params
  | _ => []
  end.

(** The names resolved without a trampoline form no cycle: [rank]
    decreases from every suite entry to the names its type refers to. *)
Definition acyclic_refs (rank : string -> nat) (suite : ITypeSuite) : Prop :=
  Forall (fun entry =>
            Forall (fun b => rank b < rank (fst entry)) (direct_refs (snd entry)))
         suite.

(** ** The checker facade ([lib/index.ts]) *)

(** A compiled [CheckerFunc] with the [allowedProps] sets it refers to. *)
Definition Compiled : Type := (Chk * Heap)%type.

Record Checker : Type := {
  suite : ITypeSuite;
  ttype : TType;
  _path : string;
  checkerPlain : Compiled;
  checkerStrict : Compiled
}.

Definition compile (fuel pfuel : nat) (suite : ITypeSuite) (strict : bool) (t : TType)
  : res Compiled :=
  match getChecker fuel pfuel suite strict false None t {| building := []; sets := [] |} with
  | (Ok c, s) => Ok (c, sets s)
  | (Err e, _) => Err e
  end.

(** [new Checker(suite, ttype, _path)] *)
Definition new_Checker (fuel pfuel : nat) (suite : ITypeSuite) (ttype : TType)
  (_path : string) : res Checker :=
  let* plain := compile fuel pfuel suite false ttype in
  let* strict := compile fuel pfuel suite true ttype in
  Ok {| suite := suite; ttype := ttype; _path := _path;
        checkerPlain := plain; checkerStrict := strict |}.

Section Facade.
(** The call depth budget of one validation. *)
Variable fuel : nat.

(** [checkerFunc(value, ctx)] for a top-level call. *)
Definition apply {C U : Type} (ops : IContext C U) (checkerFunc : Compiled)
  (v : value) (ctx : C) : res (bool * C) :=
  run ops fuel (snd checkerFunc) [] (fst checkerFunc) v ctx.

Definition _doCheck (this : Checker) (checkerFunc : Compiled) (v : value) : res unit :=
  let* (ok, _) := apply NoopContext checkerFunc v newNoop in
  if negb ok then
    let* (_, detailCtx) := apply DetailOps checkerFunc v detail_empty in
    Err (getError detailCtx (_path this))
  else Ok tt.

Definition _doValidate (this : Checker) (checkerFunc : Compiled) (v : value)
  : res (option (list IErrorDetail)) :=
  let* (ok, _) := apply NoopContext checkerFunc v newNoop in
  if ok then Ok None
  else
    let* (_, detailCtx) := apply DetailOps checkerFunc v detail_empty in
    Ok (Some (getErrorDetails detailCtx (_path this))).

Definition check (this : Checker) (v : value) : res unit :=
  _doCheck this (checkerPlain this) v.

Definition test (this : Checker) (v : value) : res bool :=
  let* (ok, _) := apply NoopContext (checkerPlain this) v newNoop in Ok ok.

Definition validate (this : Checker) (v : value) : res (option (list IErrorDetail)) :=
  _doValidate this (checkerPlain this) v.

Definition strictCheck (this : Checker) (v : value) : res unit :=
  _doCheck this (checkerStrict this) v.

Definition strictTest (this : Checker) (v : value) : res bool :=
  let* (ok, _) := apply NoopContext (checkerStrict this) v newNoop in Ok ok.

Definition strictValidate (this : Checker) (v : value)
  : res (option (list IErrorDetail)) :=
  _doValidate this (checkerStrict this) v.
End Facade.

(** [_getMethod(methodName)]: the [TFunc] of a method of an interface. *)
Definition _getMethod (this : Checker) (methodName : string) : res (TType * TType) :=
  let props :=
    match ttype this with
    | TIface _ props _ => map (fun p => (prop_name p, prop_ttype p)) (rev props)
    | _ => []
    end in
  match assoc methodName props with
  | None => Err (Error ("Type has no property " ++ methodName))
  | Some (TFunc paramList result) => Ok (paramList, result)
  | Some _ => Err (Error ("Property " ++ methodName ++ " is not a method"))
  end.

(** [getProp(prop)]: a checker for the type of a property, reported under
    the path of this checker extended by the property name. *)
Definition getProp (fuel pfuel : nat) (this : Checker) (prop : string) : res Checker :=
  let props :=
    match ttype this with
    | TIface _ props _ => map (fun p => (prop_name p, prop_ttype p)) (rev props)
    | _ => []
    end in
  match assoc prop props with
  | None => Err (Error ("Type has no property " ++ prop))
  | Some t => new_Checker fuel pfuel (suite this) t (_path this ++ "." ++ prop)
  end.

(** [methodResult(methodName)] *)
Definition methodResult (fuel pfuel : nat) (this : Checker) (methodName : string)
  : res Checker :=
  let* (_, result) := _getMethod this methodName in
  new_Checker fuel pfuel (suite this) result "value".

(** [getResult()] *)
Definition getResult (fuel pfuel : nat) (this : Checker) : res Checker :=
  match ttype this with
  | TFunc _ result => new_Checker fuel pfuel (suite this) result "value"
  | _ => Err (Error "getResult() applied to non-function")
  end.

(** [setReportedPath(path)] *)
Definition setReportedPath (this : Checker) (path : string) : Checker :=
  {| suite := suite this; ttype := ttype this; _path := path;
     checkerPlain := checkerPlain this; checkerStrict := checkerStrict this |}.

(** [getType()] *)
Definition getType (this : Checker) : TType := ttype this.

(** [methodArgs(methodName)] *)
Definition methodArgs (fuel pfuel : nat) (this : Checker) (methodName : string)
  : res Checker :=
  let* (paramList, _) := _getMethod this methodName in
  new_Checker fuel pfuel (suite this) paramList "value".

(** [getArgs()] *)
Definition getArgs (fuel pfuel : nat) (this : Checker) : res Checker :=
  match ttype this with
  | TFunc paramList _ => new_Checker fuel pfuel (suite this) paramList "value"
  | _ => Err (Error "getArgs() applied to non-function")
  end.

(** ** Forks without short-circuit *)

Section Forks.
Context {C U : Type} (ops : IContext C U).

(** Every checker of [checkers] applied to [v] in a fork of the context,
    each fork completed before the next one starts: the final states of the
    forks, in order, and the final state of the context. *)
Fixpoint fork_all (call : Chk -> CheckerFunc (C := C)) (checkers : list Chk)
  (v : value) (ctx : C) : res (list C * C) :=
  match checkers with
  | [] => Ok ([], ctx)
  | c :: cs =>
      let* (_, child) := call c v (fork ops ctx) in
      let* (children, ctx') := fork_all call cs v (snd (completeFork ops ctx child)) in
      Ok (child :: children, ctx')
  end.

(** The forks of [fork_loop] with what became of each: for every checker
    that was called, in order, the final state of its fork and the boolean
    [completeFork] then returned; and the final state of the context.  The
    checker's own boolean is dropped, as in the source. *)
Fixpoint fork_trace (call : Chk -> CheckerFunc (C := C)) (checkers : list Chk)
  (v : value) (ctx : C) : res (list (C * bool) * C) :=
  match checkers with
  | [] => Ok ([], ctx)
  | c :: cs =>
      let* (_, child) := call c v (fork ops ctx) in
      let (go, ctx1) := completeFork ops ctx child in
      if go then
        let* (t, ctx') := fork_trace call cs v ctx1 in
        Ok ((child, true) :: t, ctx')
      else Ok ([(child, false)], ctx1)
  end.

(** What the checkers rely on when they fork: [completeFork] never asks to
    stop, the context has failed afterwards exactly when it had failed
    before or the fork has, and a context has failed after [fail]. *)
Record ForkLaws : Prop := {
  completeFork_continues : forall parent child,
    fst (completeFork ops parent child) = true;
  failed_completeFork : forall parent child,
    failed ops (snd (completeFork ops parent child))
    = failed ops parent || failed ops child;
  failed_fail : forall ctx k m score,
    failed ops (fail ops ctx k m score) = true
}.
(** The contexts handed to a conjunct or to a union alternative are new:
    they have not failed. *)
Record FreshLaws : Prop := {
  failed_fork : forall ctx, failed ops (fork ops ctx) = false;
  failed_createContext : forall ur, failed ops (createContext ops ur) = false
}.

(** A result in the no-op context and a result in a context of [ops] agree:
    the same error, or the same boolean with "has failed" the same. *)
Definition agree (r1 : res (bool * bool)) (r2 : res (bool * C)) : Prop :=
  match r1, r2 with
  | Ok (b1, n), Ok (b2, c) => b1 = b2 /\ n = failed ops c
  | Err e1, Err e2 => e1 = e2
  | _, _ => False
  end.
End Forks.

(** Modelled from the spec: a context of [lib/util.ts], which is not among
    the sources, whose [completeFork] short-circuits.  Section 4.1: [fail]
    is "push frame, return false"; [fork] is "create an isolated child
    context"; [completeFork] is "merge the most recent fork back into the
    parent; returns whether the combined state is still recoverable (...
    false means short-circuit)"; [failed] is "whether any frame was
    recorded".  The context is the list of the messages recorded so far,
    and [completeFork] returns false when the fork has recorded one. *)
Definition StopContext : IContext (list (option string)) unit := {|
  fail := fun c _ m _ => (c ++ [m])%list;
  fork := fun _ => [];
  completeFork := fun parent child =>
    (match child with [] => true | _ :: _ => false end, (parent ++ child)%list);
  failed := fun c => match c with [] => false | _ :: _ => true end;
  unionResolver := fun _ => tt;
  createContext := fun _ => [];
  attachContext := fun u _ => u;
  resolveUnion := fun c _ => c
|}.

(** [c] accepts [v]: run in a fresh [NoopContext], it returns true. *)
Definition accepts (fuel : nat) (heap : Heap) (env : Cells) (c : Chk) (v : value) : Prop :=
  exists ctx, run NoopContext fuel heap env c v newNoop = Ok (true, ctx).

(** [c] returns on [v]: run in a fresh [NoopContext], it does not throw. *)
Definition returns (fuel : nat) (heap : Heap) (env : Cells) (c : Chk) (v : value) : Prop :=
  exists b ctx, run NoopContext fuel heap env c v newNoop = Ok (b, ctx).

(** ** The basic types *)

(** [basicTypes], with [Buffer] as under Node.js.  No value of [value] is
    a symbol, a [Date], a [RegExp], a [Buffer], a typed array or an
    [ArrayBuffer]: the validators of these types reject every value
    modelled here. *)
Definition basicTypes : ITypeSuite :=
  [ ("any", BasicType (fun _ => true) "is invalid");
    ("unknown", BasicType (fun _ => true) "is invalid");
    ("number", BasicType (fun v => match v with VNumber _ => true | _ => false end)
                 "is not a number");
    ("object", BasicType is_object "is not an object");
    ("boolean", BasicType (fun v => match v with VBool _ => true | _ => false end)
                  "is not a boolean");
    ("string", BasicType (fun v => match v with VString _ => true | _ => false end)
                 "is not a string");
    ("symbol", BasicType (fun _ => false) "is not a symbol");
    ("void", BasicType (fun v => match v with VUndefined | VNull => true | _ => false end)
               "is not void");
    ("undefined", BasicType is_undefined "is not undefined");
    ("null", BasicType (fun v => match v with VNull => true | _ => false end)
               "is not null");
    ("never", BasicType (fun _ => false) "is unexpected");
    ("Date", BasicType (fun _ => false) "is not a Date");
    ("RegExp", BasicType (fun _ => false) "is not a RegExp");
    ("Buffer", BasicType (fun _ => false) "is not a Buffer");
    ("Int8Array", BasicType (fun _ => false) "is not a Int8Array");
    ("Uint8Array", BasicType (fun _ => false) "is not a Uint8Array");
    ("Uint8ClampedArray", BasicType (fun _ => false) "is not a Uint8ClampedArray");
    ("Int16Array", BasicType (fun _ => false) "is not a Int16Array");
    ("Uint16Array", BasicType (fun _ => false) "is not a Uint16Array");
    ("Int32Array", BasicType (fun _ => false) "is not a Int32Array");
    ("Uint32Array", BasicType (fun _ => false) "is not a Uint32Array");
    ("Float32Array", BasicType (fun _ => false) "is not a Float32Array");
    ("Float64Array", BasicType (fun _ => false) "is not a Float64Array");
    ("ArrayBuffer", BasicType (fun _ => false) "is not a ArrayBuffer") ].

(** [Object.assign({}, basicTypes, ...typeSuite)]: later suites override. *)
Definition fullSuite (typeSuite : list ITypeSuite) : ITypeSuite :=
  (List.concat (rev typeSuite) ++ basicTypes)%list.

(** [o[name] = a] on an object kept as the list of its entries: an entry
    of that name is overwritten in place, a new name is added at the end. *)
Fixpoint set_entry {A : Type} (o : list (string * A)) (name : string) (a : A)
  : list (string * A) :=
  match o with
  | [] => [(name, a)]
  | (k, a') :: o' =>
      if String.eqb name k then (k, a) :: o' else (k, a') :: set_entry o' name a
  end.

(** The two loops of [createCheckers], over the entries of the suites in
    order: [checkers[name] = new Checker(fullSuite, suite[name])]. *)
Fixpoint createCheckers_loop (fuel pfuel : nat) (full : ITypeSuite)
  (entries : list (string * TType)) (checkers : list (string * Checker))
  : res (list (string * Checker)) :=
  match entries with
  | [] => Ok checkers
  | (name, t) :: entries' =>
      let* c := new_Checker fuel pfuel full t "value" in
      createCheckers_loop fuel pfuel full entries' (set_entry checkers name c)
  end.

(** [createCheckers(...typeSuite)] *)
Definition createCheckers (fuel pfuel : nat) (typeSuite : list ITypeSuite)
  : res (list (string * Checker)) :=
  createCheckers_loop fuel pfuel (fullSuite typeSuite) (List.concat typeSuite) [].

(** ** Example suites *)

(** [interface Person { name: string; age: number }] *)
Definition Person : TType :=
  new_TIface [] [mkTProp "name" (TName 1 "string") false;
                 mkTProp "age" (TName 2 "number") false] None.

Definition personSuite : ITypeSuite := fullSuite [[("Person", Person)]].

(** [intersection("any", "unknown")]: a type that allows [undefined]. *)
Definition anyAndUnknown : TType := TIntersection [TName 2 "any"; TName 3 "unknown"].

(** [iface([], {a: "string", b: intersection("any", "unknown")})] *)
Definition stringThenAny : TType :=
  new_TIface [] [mkTProp "a" (TName 1 "string") false;
                 mkTProp "b" anyAndUnknown false] None.

(** The same interface with its two properties in the other order:
    [iface([], {b: intersection("any", "unknown"), a: "string"})]. *)
Definition anyThenString : TType :=
  new_TIface [] [mkTProp "b" anyAndUnknown false;
                 mkTProp "a" (TName 1 "string") false] None.

(** The result of a constructor call known to succeed. *)
Definition the_checker (r : res Checker) : Checker :=
  match r with
  | Ok c => c
  | Err _ =>
      {| suite := []; ttype := TFunc (TParamList []) (TParamList []); _path := "";
         checkerPlain := (CFunc, []); checkerStrict := (CFunc, []) |}
  end.

Definition personChecker : Checker :=
  Eval vm_compute in the_checker (new_Checker 10 10 personSuite Person "value").

Definition alice : value := VObject [("name", VString "A"); ("age", VNumber 3)].

(** A tuple type with a [rest] element before its last position:
    [tuple(rest(array("any")), "any")]. *)
Definition restFirstTuple : TType :=
  new_TTuple [rest (inl (TArray (TName 1 "any"))); TName 2 "any"].

(** [enum Direction { Up = 1, Down = 2 }] *)
Definition Direction : TType := TEnumType [("Up", VNumber 1); ("Down", VNumber 2)].

Definition directionSuite : ITypeSuite := fullSuite [[("Direction", Direction)]].

(** The parameter list of [find(s: string, pos?: number)]. *)
Definition findParams : TType :=
  TParamList [mkTParam "s" (TName 1 "string") false;
              mkTParam "pos" (TName 2 "number") true].

(** [interface Finder { find(s: string, pos?: number): number }] *)
Definition Finder : TType :=
  new_TIface [] [mkTProp "find" (TFunc findParams (TName 3 "number")) false] None.

Definition finderChecker : Checker :=
  Eval vm_compute in the_checker (new_Checker 10 10 (fullSuite [[("Finder", Finder)]])
                                    Finder "value").

(** [string & number], an intersection no value satisfies. *)
Definition stringAndNumber : TType :=
  TIntersection [TName 1 "string"; TName 2 "number"].

(** [interface Named { name: string }] and
    [interface Tagged extends Named { [key: string]: any }]. *)
Definition Named : TType :=
  new_TIface [] [mkTProp "name" (TName 1 "string") false] None.

Definition Tagged : TType :=
  new_TIface ["Named"] [] (Some (TName 2 "any")).

Definition taggedSuite : ITypeSuite :=
  fullSuite [[("Named", Named); ("Tagged", Tagged)]].

Definition taggedChecker : Checker :=
  Eval vm_compute in the_checker (new_Checker 10 10 taggedSuite Tagged "value").

Definition taggedValue : value :=
  VObject [("name", VString "A"); ("extra", VNumber 1)].

(** An interface that extends a type which is not an interface:
    [iface(["number"], {})]. *)
Definition extendsNumber : TType := new_TIface ["number"] [] None.

(** An interface with a property that has the name of a member of
    [Object.prototype]: [iface([], {toString: "string"})]. *)
Definition hasToString : TType :=
  new_TIface [] [mkTProp "toString" (TName 1 "string") false] None.

(** [interface Tree { value: number; children: Tree[] }] *)
Definition Tree : TType :=
  new_TIface [] [mkTProp "value" (TName 1 "number") false;
                 mkTProp "children" (TArray (TName 2 "Tree")) false] None.

Definition treeSuite : ITypeSuite := fullSuite [[("Tree", Tree)]].

Definition treeChecker : Checker :=
  Eval vm_compute in the_checker (new_Checker 10 10 treeSuite Tree "value").

(** ** Strict and plain checkers *)

(** The plain-mode counterpart of a checker: the strict-only closures (the
    length check that [TTuple] and [TParamList] add in strict mode) are
    dropped, and interfaces lose their strict flag. *)
Fixpoint plainOf (c : Chk) : Chk :=
  match c with
  | CNamed node checkerFunc => CNamed node (plainOf checkerFunc)
  | CNameFail checker failMsg => CNameFail (plainOf checker) failMsg
  | CArray itemChecker => CArray (plainOf itemChecker)
  | CRest itemChecker start => CRest (plainOf itemChecker) start
  | CTuple itemCheckers => CTuple (map plainOf itemCheckers)
  | CTupleRest checker restChecker => CTupleRest (plainOf checker) (plainOf restChecker)
  | CExtraneous checker _ => plainOf checker
  | CUnion itemCheckers failMsg => CUnion (map plainOf itemCheckers) failMsg
  | CIntersection itemCheckers => CIntersection (map plainOf itemCheckers)
  | CPartial itemChecker => CPartial (plainOf itemChecker)
  | COptional itemChecker => COptional (plainOf itemChecker)
  | CIface baseCheckers propCheckers indexTypeChecker _ isPartial allowedProps =>
      CIface (map plainOf baseCheckers)
        (map (fun p => (fst (fst p), plainOf (snd (fst p)), snd p)) propCheckers)
        (match indexTypeChecker with Some ic => Some (plainOf ic) | None => None end)
        false isPartial allowedProps
  | CParamList itemCheckers =>
      CParamList (map (fun p => (fst (fst p), plainOf (snd (fst p)), snd p)) itemCheckers)
  | _ => c
  end.

Definition plainCells (env : Cells) : Cells :=
  map (fun e => (fst e, plainOf (snd e))) env.

(** ** Predicates used by the proofs *)

(** [d'] has the frames of [d] and at least its merged forks. *)
Definition extends (d d' : DetailContext) : Prop :=
  frames_of d' = frames_of d /\ incl (forks_of d) (forks_of d').

(** The fork that reports a missing property. *)
Definition missing_fork (name : string) : DetailContext :=
  mkDetail [(KName name, Some "is missing", 1%Z)] [].

(** [m] leaves the [_checkerBeingBuilt] slots as it found them, whatever
    its outcome. *)
Definition preserves {A : Type} (m : M A) : Prop :=
  forall s, building (snd (m s)) = building s.

(** Started with the slots [B] set, [m] does not exhaust the recursion
    budget of [getChecker]. *)
Definition finishes {A : Type} (B : list nat) (m : M A) : Prop :=
  forall s, building s = B -> fst (m s) <> Err OutOfFuel.

(** The nodes of [U] whose slot is not set in [B]. *)
Definition remaining (U B : list nat) : nat :=
  List.length (filter (fun n => negb (existsb (Nat.eqb n) B)) U).

(** The [TName] nodes of a suite. *)
Definition suite_nodes (suite : ITypeSuite) : list nat :=
  flat_map (fun entry => names_of (snd entry)) suite.

(** A bound on the size of the types of a suite, and on the ranks of its
    names. *)
Definition max_size (suite : ITypeSuite) : nat :=
  S (list_sum (map (fun entry => size (snd entry)) suite)).

Definition max_rank (rank : string -> nat) (suite : ITypeSuite) : nat :=
  S (list_sum (map (fun entry => rank (fst entry)) suite)).

(** Depth of [getChecker] calls that suffices for a type of size [sz],
    with rank budget [r] and [k] nodes whose slot is not set. *)
Definition enough (rank : string -> nat) (suite : ITypeSuite) (k r sz : nat) : nat :=
  sz + r * max_size suite
  + k * (max_rank rank suite * max_size suite + max_size suite) + 1.

(** [tuple("string", rest("number"))]: the [rest] is in the last position
    and its type, given by name, is not an array. *)
Definition stringThenRestNumber : TType :=
  new_TTuple [TName 1 "string"; rest (inr "number")].

(** [union(tuple(rest(array("any")), "any"), "any")] and the same
    alternatives in the other order.  The message is the one the
    constructor of [TUnion] computes: one alternative has a name. *)
Definition tupleOrAny : TType :=
  TUnion [restFirstTuple; TName 3 "any"] "is none of any, 1 more".

Definition anyOrTuple : TType :=
  TUnion [TName 3 "any"; restFirstTuple] "is none of any, 1 more".

(** [union(array(tuple(rest(array("any")), "any")), "any")] *)
Definition tuplesOrAny : TType :=
  TUnion [TArray restFirstTuple; TName 3 "any"] "is none of any, 1 more".

(** [[[[], 1, 5], []]]: a first element with three entries, then an empty
    one. *)
Definition longThenEmpty : value :=
  VArray [VArray [VArray []; VNumber 1; VNumber 5]; VArray []].

(** [string | number] *)
Definition stringOrNumber : Chk :=
  CUnion [CBasic (fun v => match v with VString _ => true | _ => false end) "is not a string";
          CBasic (fun v => match v with VNumber _ => true | _ => false end) "is not a number"]
         "is none of string, number".

(** Two compilation steps started in the same state that both succeed give
    results related by [R] and leave the same state. *)
Definition rel2 {A : Type} (R : A -> A -> Prop) (m1 m2 : M A) : Prop :=
  forall s a1 s1 a2 s2,
    m1 s = (Ok a1, s1) -> m2 s = (Ok a2, s2) -> R a1 a2 /\ s2 = s1.

(** [c2] is the plain counterpart of [c1]. *)
Definition plain_of (c1 c2 : Chk) : Prop := c2 = plainOf c1.

(** The outcome of a run in a [NoopContext] that is not a rejection: the
    checker returned true and recorded no failure, or it threw. *)
Definition not_rejected (r : res (bool * bool)) : Prop :=
  match r with
  | Ok (b, n) => b = true /\ n = false
  | Err _ => True
  end.

(** ** Declared property names *)

(** The property names that compiling [t] can add to the [allowedProps] set
    it is given: those of an interface and of the types its bases name, and
    those of the types reached through names, unions and intersections,
    which pass the set on. *)
Fixpoint declared (fuel : nat) (suite : ITypeSuite) (t : TType) : list string :=
  match fuel with
  | O => []
  | S f =>
      match t with
      | TName _ name =>
          match getNamedType suite name with
          | Ok t' => declared f suite t'
          | Err _ => []
          end
      | TUnion ttypes _ => flat_map (declared f suite) ttypes
      | TIntersection ttypes => flat_map (declared f suite) ttypes
      | TIface bases props _ =>
          (map prop_name props
           ++ flat_map (fun b => match getNamedType suite b with
                                 | Ok t' => declared f suite t'
                                 | Err _ => []
                                 end) bases)%list
      | _ => []
      end
  end.

(** A compilation step allocates sets and adds names: it removes no set,
    and a name it adds to a set that existed before is a name of [D] added
    to the set [ap]. *)
Definition bounds {A : Type} (D : list string) (ap : option nat) (m : M A) : Prop :=
  forall s,
    List.length (sets s) <= List.length (sets (snd (m s)))
    /\ forall i k, i < List.length (sets s) ->
         set_has (heap_get (sets (snd (m s))) i) k = true ->
         set_has (heap_get (sets s) i) k = true \/ (ap = Some i /\ In k D).

(** [interface Labelled extends Named { label: string }] *)
Definition Labelled : TType :=
  new_TIface ["Named"] [mkTProp "label" (TName 1 "string") false] None.

Definition labelledChecker : Checker :=
  Eval vm_compute in the_checker (new_Checker 10 10 taggedSuite Labelled "value").

(** ** Trampolines and their targets *)

(** What calling a trampoline throws while its [checkerFunc] variable is
    still unassigned. *)
Definition unbound : error := TypeError "checkerFunc is not a function".

(** Every trampoline of [c] belongs to a name of [B] or to a name whose
    checker encloses it in [c]. *)
Fixpoint closed (B : list nat) (c : Chk) : bool :=
  match c with
  | CThunk node => existsb (Nat.eqb node) B
  | CNamed node checkerFunc => closed (node :: B) checkerFunc
  | CNameFail checker _ => closed B checker
  | CArray itemChecker => closed B itemChecker
  | CRest itemChecker _ => closed B itemChecker
  | CTuple itemCheckers => forallb (closed B) itemCheckers
  | CTupleRest checker restChecker => closed B checker && closed B restChecker
  | CExtraneous checker _ => closed B checker
  | CUnion itemCheckers _ => forallb (closed B) itemCheckers
  | CIntersection itemCheckers => forallb (closed B) itemCheckers
  | CPartial itemChecker => closed B itemChecker
  | COptional itemChecker => closed B itemChecker
  | CIface bcs pcs ic _ _ _ =>
      forallb (closed B) bcs
      && forallb (fun p => closed B (snd (fst p))) pcs
      && match ic with Some c => closed B c | None => true end
  | CParamList itemCheckers => forallb (fun p => closed B (snd (fst p))) itemCheckers
  | _ => true
  end.

(** The names of [B] have their [checkerFunc] assigned in [env]. *)
Definition assigned (env : Cells) (B : list nat) : Prop :=
  forall n, In n B -> cell env n <> None.

(** The assigned checkers call assigned trampolines only. *)
Definition env_closed (env : Cells) : Prop :=
  forall n c, cell env n = Some c -> exists B, closed B c = true /\ assigned env B.

(** Started with the slots [B] set, a compilation step that returns gives
    a result with [Q] and leaves the slots [B] set. *)
Definition post {A : Type} (B : list nat) (Q : A -> Prop) (m : M A) : Prop :=
  forall s a s', building s = B -> m s = (Ok a, s') -> Q a /\ building s' = B.

(** A compilation step only adds names to the [allowedProps] sets. *)
Definition grows {A : Type} (m : M A) : Prop :=
  forall s i k,
    set_has (heap_get (sets s) i) k = true ->
    set_has (heap_get (sets (snd (m s))) i) k = true.

(** * Properties *)

(** ** The facade: [test], [validate] and [check] agree on success *)

Lemma doValidate_of_noop_true fuel this checkerFunc v ctx :
  apply fuel NoopContext checkerFunc v newNoop = Ok (true, ctx) ->
  _doValidate fuel this checkerFunc v = Ok None.
Proof.
  intros H. unfold _doValidate. rewrite H. reflexivity.
Qed.

Lemma doCheck_of_noop_true fuel this checkerFunc v ctx :
  apply fuel NoopContext checkerFunc v newNoop = Ok (true, ctx) ->
  _doCheck fuel this checkerFunc v = Ok tt.
Proof.
  intros H. unfold _doCheck. rewrite H. reflexivity.
Qed.

Lemma noop_true_of_test fuel checkerFunc v :
  (let* (ok, _) := apply fuel NoopContext checkerFunc v newNoop in Ok ok) = Ok true ->
  exists ctx, apply fuel NoopContext checkerFunc v newNoop = Ok (true, ctx).
Proof.
  destruct (apply fuel NoopContext checkerFunc v newNoop) as [[ok ctx]|e]; simpl.
  - intros H. injection H as ->. now exists ctx.
  - discriminate.
Qed.

(** C1. Soundness of the facade: for every checker and every value, if
    [test] returns true then [validate] returns null and [check] returns
    without throwing; [strictTest], [strictValidate] and [strictCheck] agree
    in the same way.  [check] and [validate] first run the same compiled
    checker in a fresh no-op context and build an error only when it fails. *)
Theorem test_true_validate_null (fuel : nat) (this : Checker) (v : value) :
  (test fuel this v = Ok true ->
   validate fuel this v = Ok None /\ check fuel this v = Ok tt)
  /\
  (strictTest fuel this v = Ok true ->
   strictValidate fuel this v = Ok None /\ strictCheck fuel this v = Ok tt).
Proof.
  split; intros H; apply noop_true_of_test in H as [ctx H]; split.
  - exact (doValidate_of_noop_true _ _ _ _ _ H).
  - exact (doCheck_of_noop_true _ _ _ _ _ H).
  - exact (doValidate_of_noop_true _ _ _ _ _ H).
  - exact (doCheck_of_noop_true _ _ _ _ _ H).
Qed.

Lemma test_true_validate_null_witness :
  (validate 10 personChecker alice = Ok None /\ check 10 personChecker alice = Ok tt)
  /\ (strictValidate 10 personChecker alice = Ok None
      /\ strictCheck 10 personChecker alice = Ok tt).
Proof.
  destruct (test_true_validate_null 10 personChecker alice) as [Hplain Hstrict].
  split; [apply Hplain | apply Hstrict]; reflexivity.
Defined.

(** ** Errors raised by the constructors and by compilation *)

Lemma filter_not_slot node l :
  existsb (Nat.eqb node) l = false ->
  filter (fun n => negb (Nat.eqb node n)) l = l.
Proof.
  induction l as [|n l IH]; simpl; [reflexivity|].
  destruct (Nat.eqb node n); simpl; [discriminate|].
  intros H. now rewrite IH.
Qed.

Lemma uninstall_install node s :
  slot_set node s = false -> uninstall node (install node s) = s.
Proof.
  unfold slot_set, uninstall, install. destruct s as [b h]; simpl.
  intros H. rewrite Nat.eqb_refl. simpl. now rewrite filter_not_slot.
Qed.

Lemma getChecker_unknown_name f pf suite strict isPartial allowedProps node name s :
  slot_set node s = false ->
  getNamedType suite name = Err (Error ("Unknown type " ++ name)) ->
  getChecker (S f) pf suite strict isPartial allowedProps (TName node name) s
  = (Err (Error ("Unknown type " ++ name)), s).
Proof.
  intros Hslot Hname. simpl. rewrite Hslot.
  unfold finally, mbind, lift. rewrite Hname.
  now rewrite uninstall_install.
Qed.

Lemma getChecker_inherited_name f pf suite strict isPartial allowedProps node name s :
  slot_set node s = false ->
  getNamedType suite name = Ok NotAType ->
  getChecker (S (S f)) pf suite strict isPartial allowedProps (TName node name) s
  = (Err (TypeError "ttype.getChecker is not a function"), s).
Proof.
  intros Hslot Hname. cbn [getChecker]. rewrite Hslot.
  unfold finally, mbind, lift. rewrite Hname. unfold throw.
  now rewrite uninstall_install.
Qed.

Lemma getNamedType_unknown suite name :
  assoc name suite = None -> is_member name Object_prototype = false ->
  getNamedType suite name = Err (Error ("Unknown type " ++ name)).
Proof. intros H1 H2. unfold getNamedType. now rewrite H1, H2. Qed.

Lemma getNamedType_inherited suite name :
  assoc name suite = None -> is_member name Object_prototype = true ->
  getNamedType suite name = Ok NotAType.
Proof. intros H1 H2. unfold getNamedType. now rewrite H1, H2. Qed.

Lemma getChecker_enumlit_not_enum f pf suite strict isPartial allowedProps enumName prop t s :
  getNamedType suite enumName = Ok t ->
  (forall members, t <> TEnumType members) ->
  getChecker (S f) pf suite strict isPartial allowedProps (TEnumLiteral enumName prop) s
  = (Err (Error ("Type " ++ enumName ++ " used in enumlit is not an enum type")), s).
Proof.
  intros Ht Hne. simpl. unfold mbind, lift. rewrite Ht.
  destruct t; try reflexivity. now destruct (Hne members).
Qed.

Lemma getChecker_enumlit_unknown_member f pf suite strict isPartial allowedProps
  enumName prop members s :
  getNamedType suite enumName = Ok (TEnumType members) ->
  assoc "hasOwnProperty" members = None ->
  assoc prop members = None ->
  getChecker (S f) pf suite strict isPartial allowedProps (TEnumLiteral enumName prop) s
  = (Err (Error ("Unknown value " ++ enumName ++ "." ++ prop ++ " used in enumlit")), s).
Proof.
  intros Ht Hh Hp. simpl. unfold mbind, lift. rewrite Ht, Hh, Hp. reflexivity.
Qed.

Lemma getChecker_enumlit_hasOwnProperty f pf suite strict isPartial allowedProps
  enumName prop members val s :
  getNamedType suite enumName = Ok (TEnumType members) ->
  assoc "hasOwnProperty" members = Some val ->
  getChecker (S f) pf suite strict isPartial allowedProps (TEnumLiteral enumName prop) s
  = (Err (TypeError "ttype.members.hasOwnProperty is not a function"), s).
Proof.
  intros Ht Hh. simpl. unfold mbind, lift. rewrite Ht, Hh. reflexivity.
Qed.

Lemma getChecker_enumlit_unknown_enum f pf suite strict isPartial allowedProps
  enumName prop e s :
  getNamedType suite enumName = Err e ->
  getChecker (S f) pf suite strict isPartial allowedProps (TEnumLiteral enumName prop) s
  = (Err e, s).
Proof.
  intros Ht. simpl. unfold mbind, lift. now rewrite Ht.
Qed.

Lemma getChecker_rest_not_array f pf suite strict isPartial allowedProps t start s :
  (forall elt, t <> TArray elt) ->
  getChecker (S f) pf suite strict isPartial allowedProps (RestType (inl t) start) s
  = (Err (Error "Rest type must be an array"), s).
Proof.
  intros Hne. simpl. unfold mbind, ret.
  destruct t; try reflexivity. now destruct (Hne t).
Qed.

Lemma getChecker_rest_named_not_array f pf suite strict isPartial allowedProps name t start s :
  getNamedType suite name = Ok t ->
  (forall elt, t <> TArray elt) ->
  getChecker (S f) pf suite strict isPartial allowedProps (RestType (inr name) start) s
  = (Err (Error "Rest type must be an array"), s).
Proof.
  intros Ht Hne. simpl. unfold mbind, lift. rewrite Ht.
  destruct t; try reflexivity. now destruct (Hne t).
Qed.

Lemma getChecker_rest_unknown_name f pf suite strict isPartial allowedProps name e start s :
  getNamedType suite name = Err e ->
  getChecker (S f) pf suite strict isPartial allowedProps (RestType (inr name) start) s
  = (Err e, s).
Proof.
  intros Ht. simpl. unfold mbind, lift. now rewrite Ht.
Qed.

Lemma new_TTuple_final_rest front spec start :
  new_TTuple (front ++ [RestType spec start])
  = TTuple front (Some (RestType spec (Some (List.length front)))).
Proof.
  unfold new_TTuple. rewrite rev_app_distr. simpl. now rewrite rev_involutive.
Qed.

Lemma new_TTuple_no_final_rest front last :
  is_RestType last = false ->
  new_TTuple (front ++ [last]) = TTuple (front ++ [last]) None.
Proof.
  intros H. unfold new_TTuple. rewrite rev_app_distr. simpl.
  destruct last; try reflexivity. discriminate.
Qed.

(** An error thrown by [getChecker] is thrown by the constructor of
    [Checker]. *)
Lemma new_Checker_throws f pf suite t path e :
  (forall strict s, fst (getChecker f pf suite strict false None t s) = Err e) ->
  new_Checker f pf suite t path = Err e.
Proof.
  intros H. unfold new_Checker, compile.
  specialize (H false {| building := []; sets := [] |}).
  destruct (getChecker f pf suite false false None t _) as [[c|e'] s]; simpl in *.
  - discriminate.
  - now injection H as ->.
Qed.

(** C8. A tuple with a [rest] element before its last position,
    [tuple(rest(array("any")), "any")], is constructed and compiled without
    any error: the constructor of [TTuple] looks at the last element only
    and leaves the [rest] in the fixed-arity list, its start unset, and
    [RestType.getChecker] only checks that its type is an array.  The
    checker so built throws a [TypeError] from [test] on the empty array,
    where the element at the position of the [rest] is undefined, and it
    accepts any defined element there, without looking at it. *)
Theorem rest_outside_tail_not_rejected :
  restFirstTuple
  = TTuple [RestType (inl (TArray (TName 1 "any"))) None; TName 2 "any"] None
  /\ exists this,
       new_Checker 10 10 (fullSuite []) restFirstTuple "value" = Ok this
       /\ test 10 this (VArray [])
          = Err (TypeError "Cannot read properties of undefined (reading 'length')")
       /\ strictTest 10 this (VArray [])
          = Err (TypeError "Cannot read properties of undefined (reading 'length')")
       /\ test 10 this (VArray [VArray []; VNumber 1]) = Ok true
       /\ test 10 this (VArray [VString "x"; VNumber 1]) = Ok true.
Proof.
  split; [reflexivity|].
  eexists. split; [vm_compute; reflexivity|].
  split; [vm_compute; reflexivity|]. split; [vm_compute; reflexivity|].
  split; vm_compute; reflexivity.
Qed.

(** ** Shapes of compiled checkers *)

Lemma mapM_length {A B : Type} (f : A -> M B) (l : list A) s bs s' :
  mapM f l s = (Ok bs, s') -> List.length bs = List.length l.
Proof.
  revert s bs s'. induction l as [|a l IH]; intros s bs s'; simpl.
  - unfold ret. intros H. now injection H as <- _.
  - unfold mbind, ret. destruct (f a s) as [[b|e] s1]; [|discriminate].
    destruct (mapM f l s1) as [[bs1|e] s2] eqn:E; [|discriminate].
    intros H. injection H as <- _. simpl. f_equal. eapply IH; eauto.
Qed.

Lemma probe_required_length pf heap items testCtx required :
  probe_required pf heap items testCtx = Ok required ->
  List.length required = List.length items.
Proof.
  revert testCtx required. induction items as [|[isOpt c] items IH]; intros testCtx required; simpl.
  - intros H. now injection H as <-.
  - destruct isOpt.
    + destruct (probe_required pf heap items testCtx) as [r|e] eqn:E; simpl; [|discriminate].
      intros H. injection H as <-. simpl. f_equal. eauto.
    + destruct (run NoopContext pf heap [] c VUndefined testCtx) as [[ok t1]|e]; simpl;
        [|discriminate].
      destruct (probe_required pf heap items t1) as [r|e] eqn:E; simpl; [|discriminate].
      intros H. injection H as <-. simpl. f_equal. eauto.
Qed.

Lemma zip3_names names checkers required :
  List.length checkers = List.length names ->
  List.length required = List.length names ->
  map (fun x => fst (fst x)) (zip3 names checkers required) = names.
Proof.
  unfold zip3. revert checkers required.
  induction names as [|n names IH]; intros [|c cs] [|r rs]; simpl; try discriminate;
    try reflexivity.
  intros H1 H2. f_equal. apply IH; lia.
Qed.

(** ** Unfolding [run] *)

Section RunEquations.
Context {C U : Type} (ops : IContext C U).

Lemma run_CExtraneous f heap env c n v ctx :
  run ops (S f) heap env (CExtraneous c n) v ctx
  = (let* (ok, ctx1) := run ops f heap env c v ctx in
     if ok then
       match v with
       | VArray items =>
           if Nat.leb (List.length items) n then Ok (true, ctx1)
           else ret_fail ops ctx1 (KIndex n) (Some "is extraneous") 2
       | _ => Err Unmodelled
       end
     else Ok (false, ctx1)).
Proof. reflexivity. Qed.

Lemma run_CParamList f heap env cs args ctx :
  run ops (S f) heap env (CParamList cs) (VArray args) ctx
  = param_loop ops (run ops f heap env) cs args 0 ctx.
Proof. reflexivity. Qed.
End RunEquations.

(** ** Parameter lists *)

Section ParamList.
Context {C U : Type} (ops : IContext C U).

Lemma param_loop_missing (call : Chk -> CheckerFunc (C := C))
  pre name c post args i ctx ctx1 :
  param_loop ops call pre args i ctx = Ok (true, ctx1) ->
  get_index args (i + List.length pre) = VUndefined ->
  param_loop ops call (pre ++ (name, c, true) :: post)%list args i ctx
  = Ok (false, fail ops ctx1 (KName name) (Some "is missing") 1).
Proof.
  revert i ctx. induction pre as [|[[pn pc] preq] pre IH]; intros i ctx; simpl.
  - intros H Hu. injection H as <-. rewrite Nat.add_0_r in Hu. now rewrite Hu.
  - intros H Hu. replace (i + S (List.length pre)) with (S i + List.length pre) in Hu by lia.
    destruct (is_undefined (get_index args i)).
    + destruct preq; [discriminate|]. now apply IH.
    + destruct (call pc (get_index args i) ctx) as [[ok c1]|e]; simpl in *; [|discriminate].
      destruct ok; [|discriminate]. now apply IH.
Qed.
End ParamList.

Lemma getChecker_TParamList_shape fuel pf suite strict isPartial allowedProps params s c s' :
  getChecker (S fuel) pf suite strict isPartial allowedProps (TParamList params) s = (Ok c, s') ->
  exists cs,
    c = (if strict then CExtraneous (CParamList cs) (List.length cs) else CParamList cs)
    /\ map (fun x => fst (fst x)) cs = map param_name params
    /\ probe_required pf (sets s')
         (combine (map param_isOpt params) (map (fun x => snd (fst x)) cs)) newNoop
       = Ok (map snd cs).
Proof.
  simpl. unfold mbind at 1.
  destruct (mapM _ params s) as [[items|e] s1] eqn:Emap; [|discriminate].
  unfold mbind at 1.
  destruct (probe_required pf (sets s1) _ newNoop) as [required|e] eqn:Eprobe; [|discriminate].
  pose proof (mapM_length _ _ _ _ _ Emap) as Hlen.
  pose proof (probe_required_length _ _ _ _ _ Eprobe) as Hlen2.
  rewrite length_combine, length_map, Hlen, Nat.min_id in Hlen2.
  assert (Hnames : map (fun x => fst (fst x)) (zip3 (map param_name params) items required)
                   = map param_name params)
    by (apply zip3_names; rewrite length_map; congruence).
  assert (Hcs : map (fun x => snd (fst x)) (zip3 (map param_name params) items required) = items).
  { unfold zip3. clear -Hlen Hlen2. revert items required Hlen Hlen2.
    induction params as [|p ps IH]; intros [|c cs] [|r rs]; simpl; try discriminate;
      try reflexivity.
    intros H1 H2. f_equal. apply IH; lia. }
  assert (Hreq : map snd (zip3 (map param_name params) items required) = required).
  { unfold zip3. clear -Hlen Hlen2. revert items required Hlen Hlen2.
    induction params as [|p ps IH]; intros [|c cs] [|r rs]; simpl; try discriminate;
      try reflexivity.
    intros H1 H2. f_equal. apply IH; lia. }
  assert (Hl : List.length (zip3 (map param_name params) items required) = List.length items).
  { rewrite <- Hcs at 2. now rewrite length_map. }
  destruct strict; unfold ret; intros H; injection H as <- <-;
    eexists; (split; [rewrite ?Hl; reflexivity|]); (split; [exact Hnames|]);
    rewrite Hcs, Hreq; exact Eprobe.
Qed.



(** ** Intersections *)

Lemma NoopContext_laws : ForkLaws NoopContext.
Proof. split; reflexivity. Qed.

Lemma DetailOps_laws : ForkLaws DetailOps.
Proof.
  split.
  - intros [frames forks] child. reflexivity.
  - intros [frames forks] child. simpl.
    destruct (detail_failed child) eqn:E; simpl.
    + rewrite orb_true_r. destruct frames; [|reflexivity].
      destruct forks; reflexivity.
    + now rewrite orb_false_r.
  - intros [frames forks] k m score. simpl. now destruct frames.
Qed.

Section ForkLoop.
Context {C U : Type} (ops : IContext C U) (laws : ForkLaws ops).

Lemma fork_loop_fork_all (call : Chk -> CheckerFunc (C := C)) cs v ctx :
  fork_loop ops call cs v ctx
  = (let* (_, ctx') := fork_all ops call cs v ctx in Ok (true, ctx')).
Proof.
  revert ctx. induction cs as [|c cs IH]; intros ctx; simpl; [reflexivity|].
  destruct (call c v (fork ops ctx)) as [[ok child]|e]; simpl; [|reflexivity].
  pose proof (completeFork_continues ops laws ctx child) as Hgo.
  destruct (completeFork ops ctx child) as [go ctx1]. simpl in *. subst go.
  rewrite IH. destruct (fork_all ops call cs v ctx1) as [[children ctx']|e]; reflexivity.
Qed.

Lemma fork_all_failed (call : Chk -> CheckerFunc (C := C)) cs v ctx children ctx' :
  fork_all ops call cs v ctx = Ok (children, ctx') ->
  List.length children = List.length cs
  /\ failed ops ctx' = failed ops ctx || existsb (failed ops) children.
Proof.
  revert ctx children ctx'. induction cs as [|c cs IH]; intros ctx children ctx'; simpl.
  - intros H. injection H as <- <-. split; [reflexivity|]. simpl. now rewrite orb_false_r.
  - destruct (call c v (fork ops ctx)) as [[ok child]|e]; simpl; [|discriminate].
    destruct (fork_all ops call cs v _) as [[children1 ctx1]|e] eqn:E; simpl; [|discriminate].
    intros H. injection H as <- <-. apply IH in E as [Hlen Hf]. split.
    + simpl. now rewrite Hlen.
    + rewrite Hf, (failed_completeFork ops laws). simpl. now rewrite orb_assoc.
Qed.
End ForkLoop.

Lemma getChecker_TIntersection_shape fuel pf suite strict isPartial allowedProps ttypes s c s' :
  getChecker (S fuel) pf suite strict isPartial allowedProps (TIntersection ttypes) s
    = (Ok c, s') ->
  exists cs, c = CIntersection cs /\ List.length cs = List.length ttypes.
Proof.
  simpl. unfold mbind at 1.
  destruct (default_set allowedProps s) as [[a|e] s1]; [|discriminate].
  unfold mbind.
  destruct (mapM _ ttypes s1) as [[cs|e] s2] eqn:Emap; [|discriminate].
  unfold ret. intros H. injection H as <- <-.
  exists cs. split; [reflexivity|]. eapply mapM_length; eauto.
Qed.

Section ForkTrace.
Context {C U : Type} (ops : IContext C U).
Variable call : Chk -> CheckerFunc (C := C).

Lemma fork_loop_trace cs v ctx :
  fork_loop ops call cs v ctx
  = (let* (t, ctx') := fork_trace ops call cs v ctx in Ok (forallb snd t, ctx')).
Proof.
  revert ctx. induction cs as [|c cs IH]; intros ctx; simpl; [reflexivity|].
  destruct (call c v (fork ops ctx)) as [[ok child]|e]; simpl; [|reflexivity].
  destruct (completeFork ops ctx child) as [[|] ctx1]; [|reflexivity].
  rewrite IH. destruct (fork_trace ops call cs v ctx1) as [[t ctx']|e]; reflexivity.
Qed.

Lemma fork_trace_returns cs v ctx :
  (forall k x, In k cs -> exists r, call k v x = Ok r) ->
  exists t ctx', fork_trace ops call cs v ctx = Ok (t, ctx').
Proof.
  revert ctx. induction cs as [|c cs IH]; intros ctx Hret; simpl; [eauto|].
  destruct (Hret c (fork ops ctx) (or_introl eq_refl)) as [[ok child] ->]. simpl.
  destruct (completeFork ops ctx child) as [[|] ctx1]; [|eauto].
  destruct (IH ctx1) as (t & ctx' & ->); [intros k x Hk; apply Hret; now right|].
  simpl. eauto.
Qed.

Lemma fork_trace_throws pre c post v ctx t ctx1 e :
  fork_trace ops call pre v ctx = Ok (t, ctx1) ->
  forallb snd t = true ->
  call c v (fork ops ctx1) = Err e ->
  fork_trace ops call (pre ++ c :: post) v ctx = Err e.
Proof.
  revert ctx t. induction pre as [|p pre IH]; intros ctx t; simpl.
  - intros [= <- <-] _ ->. reflexivity.
  - destruct (call p v (fork ops ctx)) as [[ok child]|e0]; simpl; [|discriminate].
    destruct (completeFork ops ctx child) as [[|] ctx2].
    + destruct (fork_trace ops call pre v ctx2) as [[t2 ctx3]|e0] eqn:Et; simpl;
        [|discriminate].
      intros [= <- <-]. simpl. intros Hall Hc.
      now rewrite (IH ctx2 t2 Et Hall Hc).
    + intros [= <- <-]. discriminate.
Qed.

Lemma fork_trace_prefix cs v ctx t ctx' :
  fork_trace ops call cs v ctx = Ok (t, ctx') ->
  fork_all ops call (firstn (List.length t) cs) v ctx = Ok (map fst t, ctx')
  /\ List.length t <= List.length cs
  /\ (forall i child, nth_error t i = Some (child, false) -> S i = List.length t)
  /\ (forallb snd t = true -> List.length t = List.length cs)
  /\ (List.length t < List.length cs -> forallb snd t = false).
Proof.
  revert ctx t ctx'. induction cs as [|c cs IH]; intros ctx t ctx'; simpl.
  - intros [= <- <-]. simpl. repeat apply conj; try reflexivity; try lia.
    intros [|i] child; discriminate.
  - destruct (call c v (fork ops ctx)) as [[ok child]|e] eqn:Ec; simpl; [|discriminate].
    destruct (completeFork ops ctx child) as [[|] ctx1] eqn:Ef.
    + destruct (fork_trace ops call cs v ctx1) as [[t1 ctx2]|e] eqn:Et; simpl; [|discriminate].
      intros [= <- <-]. apply IH in Et as (Hall & Hle & Hlast & Hfull & Hshort).
      simpl. rewrite Ec. simpl. rewrite Ef. simpl. rewrite Hall. simpl.
      repeat apply conj.
      * reflexivity.
      * lia.
      * intros [|i] child0; simpl; [discriminate|].
        intros H. apply Hlast in H. lia.
      * intros H. apply Hfull in H. lia.
      * intros H. apply Hshort. lia.
    + intros [= <- <-]. simpl. rewrite Ec. simpl. rewrite Ef. simpl.
      repeat apply conj.
      * reflexivity.
      * lia.
      * intros [|[|i]] child0; simpl; try discriminate. reflexivity.
      * discriminate.
      * reflexivity.
Qed.

Lemma fork_trace_fork_all cs v ctx :
  (forall parent child, fst (completeFork ops parent child) = true) ->
  fork_trace ops call cs v ctx
  = (let* (children, ctx') := fork_all ops call cs v ctx in
     Ok (map (fun child => (child, true)) children, ctx')).
Proof.
  intros Hgo. revert ctx. induction cs as [|c cs IH]; intros ctx; simpl; [reflexivity|].
  destruct (call c v (fork ops ctx)) as [[ok child]|e]; simpl; [|reflexivity].
  specialize (Hgo ctx child).
  destruct (completeFork ops ctx child) as [go ctx1]. simpl in *. subst go.
  rewrite IH. destruct (fork_all ops call cs v ctx1) as [[children ctx']|e]; reflexivity.
Qed.

Lemma fork_all_length cs v ctx children ctx' :
  fork_all ops call cs v ctx = Ok (children, ctx') ->
  List.length children = List.length cs.
Proof.
  revert ctx children ctx'. induction cs as [|c cs IH]; intros ctx children ctx'; simpl.
  - now intros [= <- <-].
  - destruct (call c v (fork ops ctx)) as [[ok child]|e]; simpl; [|discriminate].
    destruct (fork_all ops call cs v _) as [[children1 ctx1]|e] eqn:E; simpl; [|discriminate].
    intros [= <- <-]. simpl. f_equal. eapply IH; eauto.
Qed.

Lemma fork_all_failed_any cs v ctx children ctx' :
  (forall parent child,
     failed ops (snd (completeFork ops parent child))
     = failed ops parent || failed ops child) ->
  fork_all ops call cs v ctx = Ok (children, ctx') ->
  failed ops ctx' = failed ops ctx || existsb (failed ops) children.
Proof.
  intros Hmerge.
  revert ctx children ctx'. induction cs as [|c cs IH]; intros ctx children ctx'; simpl.
  - intros [= <- <-]. simpl. now rewrite orb_false_r.
  - destruct (call c v (fork ops ctx)) as [[ok child]|e]; simpl; [|discriminate].
    destruct (fork_all ops call cs v _) as [[children1 ctx1]|e] eqn:E; simpl; [|discriminate].
    intros [= <- <-]. apply IH in E. rewrite E, Hmerge. simpl. now rewrite orb_assoc.
Qed.
End ForkTrace.




(** ** Interfaces: required properties *)

Lemma zip3_checkers names checkers required :
  List.length checkers = List.length names ->
  List.length required = List.length names ->
  map (fun x => snd (fst x)) (zip3 names checkers required) = checkers.
Proof.
  unfold zip3. revert checkers required.
  induction names as [|n names IH]; intros [|c cs] [|r rs]; simpl; try discriminate;
    try reflexivity.
  intros H1 H2. f_equal. apply IH; lia.
Qed.

Lemma zip3_required names checkers required :
  List.length checkers = List.length names ->
  List.length required = List.length names ->
  map snd (zip3 names checkers required) = required.
Proof.
  unfold zip3. revert checkers required.
  induction names as [|n names IH]; intros [|c cs] [|r rs]; simpl; try discriminate;
    try reflexivity.
  intros H1 H2. f_equal. apply IH; lia.
Qed.

Lemma getChecker_TIface_shape fuel pf suite strict isPartial allowedProps bases props idx s c s' :
  getChecker (S fuel) pf suite strict isPartial allowedProps (TIface bases props idx) s
    = (Ok c, s') ->
  exists bcs pcs ic a,
    c = CIface bcs pcs ic strict isPartial a
    /\ List.length bcs = List.length bases
    /\ map (fun x => fst (fst x)) pcs = map prop_name props
    /\ (ic = None <-> idx = None)
    /\ probe_required pf (sets s')
         (combine (map prop_isOpt props) (map (fun x => snd (fst x)) pcs)) newNoop
       = Ok (map snd pcs).
Proof.
  simpl. unfold mbind at 1.
  destruct (default_set allowedProps s) as [[a|e] s1]; [|discriminate].
  unfold mbind at 1. unfold add_all at 1.
  unfold mbind at 1.
  destruct (mapM _ bases _) as [[bcs|e] s2] eqn:Ebases; [|discriminate].
  unfold mbind at 1.
  destruct (mapM _ props s2) as [[items|e] s3] eqn:Eprops; [|discriminate].
  unfold mbind at 1.
  assert (Hidx : exists ic s4,
             (match idx with
              | Some it =>
                  c0 <- getChecker fuel pf suite strict isPartial None it ;; ret (Some c0)
              | None => ret None
              end) s3 = (Ok ic, s4) /\ (ic = None <-> idx = None)
             \/ exists e s4, (match idx with
              | Some it =>
                  c0 <- getChecker fuel pf suite strict isPartial None it ;; ret (Some c0)
              | None => ret None
              end) s3 = (Err e, s4)).
  { destruct idx as [it|].
    - unfold mbind. destruct (getChecker fuel pf suite strict isPartial None it s3)
        as [[c0|e] s4].
      + exists (Some c0), s4. left. split; [reflexivity|]. split; discriminate.
      + exists None, s4. right. now exists e, s4.
    - exists None, s3. left. split; [reflexivity|]. split; reflexivity. }
  destruct Hidx as (ic & s4 & [[-> Hiff] | (e & s4' & ->)]); [|discriminate].
  unfold mbind at 1.
  destruct (probe_required pf (sets s4) _ newNoop) as [required|e] eqn:Eprobe; [|discriminate].
  unfold ret. intros H. injection H as <- <-.
  pose proof (mapM_length _ _ _ _ _ Eprops) as Hlen.
  pose proof (probe_required_length _ _ _ _ _ Eprobe) as Hlen2.
  rewrite length_combine, length_map, Hlen, Nat.min_id in Hlen2.
  exists bcs, (zip3 (map prop_name props) items required), ic, a.
  repeat apply conj.
  - reflexivity.
  - eapply mapM_length; eauto.
  - apply zip3_names; rewrite length_map; congruence.
  - apply Hiff.
  - apply Hiff.
  - rewrite zip3_checkers, zip3_required by (rewrite length_map; congruence).
    exact Eprobe.
Qed.

Lemma probe_required_at pf heap items t0 req :
  probe_required pf heap items t0 = Ok req ->
  forall i isOpt c,
    nth_error items i = Some (isOpt, c) ->
    exists t r,
      testCtx_before pf heap items i t0 = Ok t
      /\ nth_error req i = Some r
      /\ (r = true <->
          isOpt = false
          /\ exists t', run NoopContext pf heap [] c VUndefined t = Ok (false, t')).
Proof.
  revert t0 req. induction items as [|[o c0] items IH]; intros t0 req Hp i isOpt c Hi.
  - now destruct i.
  - simpl in Hp. destruct i as [|i]; simpl in Hi.
    + injection Hi as -> ->. simpl. destruct isOpt.
      * destruct (probe_required pf heap items t0) as [r|e]; simpl in Hp; [|discriminate].
        injection Hp as <-. exists t0, false. split; [reflexivity|]. split; [reflexivity|].
        split; [discriminate | intros [Hx _]; discriminate].
      * destruct (run NoopContext pf heap [] c VUndefined t0) as [[ok t1]|e] eqn:Erun;
          simpl in Hp; [|discriminate].
        destruct (probe_required pf heap items t1) as [r|e]; simpl in Hp; [|discriminate].
        injection Hp as <-. exists t0, (negb ok). split; [reflexivity|]. split; [reflexivity|].
        split.
        -- intros Hok. split; [reflexivity|]. exists t1. rewrite Erun.
           destruct ok; [discriminate | reflexivity].
        -- intros [_ [t' Ht']]. rewrite Erun in Ht'. now injection Ht' as -> _.
    + simpl. destruct o.
      * destruct (probe_required pf heap items t0) as [r|e] eqn:E; simpl in Hp; [|discriminate].
        injection Hp as <-. simpl. eapply IH; eauto.
      * destruct (run NoopContext pf heap [] c0 VUndefined t0) as [[ok t1]|e] eqn:Erun;
          simpl in Hp; [|discriminate].
        destruct (probe_required pf heap items t1) as [r|e] eqn:E; simpl in Hp; [|discriminate].
        injection Hp as <-. simpl. eapply IH; eauto.
Qed.

Section IfaceLoops.
Context {C U : Type} (ops : IContext C U) (laws : ForkLaws ops).

Lemma completeFork_failed_mono ctx child :
  failed ops ctx = true -> failed ops (snd (completeFork ops ctx child)) = true.
Proof. intros H. now rewrite (failed_completeFork ops laws), H. Qed.

Lemma completeFork_failed_child ctx child :
  failed ops child = true -> failed ops (snd (completeFork ops ctx child)) = true.
Proof. intros H. rewrite (failed_completeFork ops laws), H. apply orb_true_r. Qed.

Lemma prop_step_failed_mono (call : Chk -> CheckerFunc (C := C)) isPartial p v ctx go ctx' :
  prop_step ops call isPartial p v ctx = Ok (go, ctx') ->
  failed ops ctx = true -> failed ops ctx' = true.
Proof.
  destruct p as [[name c] r]. unfold prop_step.
  destruct (is_undefined (get_prop v name)).
  - destruct (r && negb isPartial).
    + intros H Hf. injection H as H. apply (f_equal snd) in H. simpl in H. subst ctx'.
      now apply completeFork_failed_mono.
    + intros H Hf. now injection H as _ <-.
  - destruct (call c (get_prop v name) (fork ops ctx)) as [[ok child]|e]; simpl; [|discriminate].
    intros H Hf. injection H as H. apply (f_equal snd) in H. simpl in H. subst ctx'.
    now apply completeFork_failed_mono.
Qed.

Lemma prop_loop_failed_mono (call : Chk -> CheckerFunc (C := C)) isPartial ps v ctx go ctx' :
  prop_loop ops call isPartial ps v ctx = Ok (go, ctx') ->
  failed ops ctx = true -> failed ops ctx' = true.
Proof.
  revert ctx. induction ps as [|p ps IH]; intros ctx; simpl.
  - intros H. now injection H as _ <-.
  - destruct (prop_step ops call isPartial p v ctx) as [[g c1]|e] eqn:E; simpl; [|discriminate].
    intros H Hf. pose proof (prop_step_failed_mono _ _ _ _ _ _ _ E Hf) as Hf1.
    destruct g.
    + eapply IH; eauto.
    + now injection H as _ <-.
Qed.

Lemma index_loop_failed_mono (ic : CheckerFunc (C := C)) keys v ctx go ctx' :
  index_loop ops ic keys v ctx = Ok (go, ctx') ->
  failed ops ctx = true -> failed ops ctx' = true.
Proof.
  revert ctx. induction keys as [|k ks IH]; intros ctx; simpl.
  - intros H. now injection H as _ <-.
  - destruct (ic (get_prop v k) (fork ops ctx)) as [[ok child]|e]; simpl; [|discriminate].
    destruct (completeFork ops ctx _) as [g c1] eqn:E.
    intros H Hf.
    assert (Hf1 : failed ops c1 = true).
    { apply (f_equal snd) in E. simpl in E. subst c1. now apply completeFork_failed_mono. }
    destruct g.
    + eapply IH; eauto.
    + now injection H as _ <-.
Qed.

Lemma extraneous_loop_failed_mono allowed keys ctx :
  failed ops ctx = true -> failed ops (snd (extraneous_loop ops allowed keys ctx)) = true.
Proof.
  revert ctx. induction keys as [|k ks IH]; intros ctx Hf; simpl; [exact Hf|].
  destruct (set_has allowed k); [now apply IH|].
  destruct (completeFork ops ctx _) as [g c1] eqn:E.
  assert (Hf1 : failed ops c1 = true).
  { apply (f_equal snd) in E. simpl in E. subst c1. now apply completeFork_failed_mono. }
  destruct g; [now apply IH | exact Hf1].
Qed.

Lemma prop_step_go (call : Chk -> CheckerFunc (C := C)) isPartial p v ctx go ctx' :
  prop_step ops call isPartial p v ctx = Ok (go, ctx') -> go = true.
Proof.
  pose proof (completeFork_continues ops laws) as Hgo.
  destruct p as [[n c] r]. unfold prop_step.
  destruct (is_undefined (get_prop v n)).
  - destruct (r && negb isPartial); intros E; injection E as E.
    + apply (f_equal fst) in E. now rewrite Hgo in E.
    + now symmetry.
  - destruct (call c (get_prop v n) (fork ops ctx)) as [[ok child]|e]; simpl; [|discriminate].
    intros E. injection E as E. apply (f_equal fst) in E. now rewrite Hgo in E.
Qed.

Lemma prop_loop_go (call : Chk -> CheckerFunc (C := C)) isPartial ps v ctx go ctx' :
  prop_loop ops call isPartial ps v ctx = Ok (go, ctx') -> go = true.
Proof.
  revert ctx. induction ps as [|p ps IH]; intros ctx; simpl.
  - intros H. now injection H as <- _.
  - destruct (prop_step ops call isPartial p v ctx) as [[g c1]|e] eqn:E; simpl; [|discriminate].
    apply prop_step_go in E as ->. apply IH.
Qed.

Lemma fork_loop_go (call : Chk -> CheckerFunc (C := C)) cs v ctx go ctx' :
  fork_loop ops call cs v ctx = Ok (go, ctx') -> go = true.
Proof.
  rewrite (fork_loop_fork_all ops laws).
  destruct (fork_all ops call cs v ctx) as [[children c1]|e]; simpl; [|discriminate].
  intros H. now injection H as <- _.
Qed.

Lemma index_loop_go (ic : CheckerFunc (C := C)) keys v ctx go ctx' :
  index_loop ops ic keys v ctx = Ok (go, ctx') -> go = true.
Proof.
  pose proof (completeFork_continues ops laws) as Hgo.
  revert ctx. induction keys as [|k ks IH]; intros ctx; simpl.
  - intros H. now injection H as <- _.
  - destruct (ic (get_prop v k) (fork ops ctx)) as [[ok child]|e]; simpl; [|discriminate].
    match goal with |- context [completeFork ops ctx ?c] =>
      specialize (Hgo ctx c); destruct (completeFork ops ctx c) as [g c1] end.
    simpl in Hgo. subst g. apply IH.
Qed.

Lemma extraneous_loop_go allowed keys ctx :
  fst (extraneous_loop ops allowed keys ctx) = true.
Proof.
  pose proof (completeFork_continues ops laws) as Hgo.
  revert ctx. induction keys as [|k ks IH]; intros ctx; simpl; [reflexivity|].
  destruct (set_has allowed k); [apply IH|].
  match goal with |- context [completeFork ops ctx ?c] =>
    specialize (Hgo ctx c); destruct (completeFork ops ctx c) as [g c1] end.
  simpl in Hgo. subst g. apply IH.
Qed.

(** A missing required property leaves the context failed. *)
Lemma prop_loop_missing (call : Chk -> CheckerFunc (C := C)) ps name pc v ctx go ctx' :
  In (name, pc, true) ps ->
  get_prop v name = VUndefined ->
  prop_loop ops call false ps v ctx = Ok (go, ctx') ->
  failed ops ctx' = true.
Proof.
  revert ctx. induction ps as [|p ps IH]; intros ctx Hin Hu; [destruct Hin|].
  simpl. destruct (prop_step ops call false p v ctx) as [[g c1]|e] eqn:E; simpl; [|discriminate].
  intros H. destruct Hin as [-> | Hin].
  - assert (Hf1 : failed ops c1 = true).
    { unfold prop_step in E. rewrite Hu in E. simpl in E. injection E as E.
      apply (f_equal snd) in E. simpl in E. subst c1.
      apply completeFork_failed_child. apply (failed_fail ops laws). }
    destruct g.
    + eapply prop_loop_failed_mono; eauto.
    + now injection H as _ <-.
  - pose proof (prop_step_go _ _ _ _ _ _ _ E) as ->. eapply IH; eauto.
Qed.

(** With a required property missing, the interface checker returns false. *)
Lemma iface_missing_rejected f heap env bcs pcs ic strict a name pc v ctx b ctx' :
  In (name, pc, true) pcs ->
  get_prop v name = VUndefined ->
  run ops f heap env (CIface bcs pcs ic strict false a) v ctx = Ok (b, ctx') ->
  b = false.
Proof.
  intros Hin Hu. destruct f as [|f]; [discriminate|]. simpl.
  destruct (is_object v); simpl.
  2:{ unfold ret_fail. intros H. now injection H as <- _. }
  destruct (fork_loop ops _ bcs v ctx) as [[g1 c1]|e]; simpl; [|discriminate].
  destruct g1; simpl; [|intros H; now injection H as <- _].
  destruct (prop_loop ops _ false pcs v c1) as [[g2 c2]|e] eqn:E2; simpl; [|discriminate].
  pose proof (prop_loop_missing _ _ _ _ _ _ _ _ Hin Hu E2) as Hf2.
  destruct g2; simpl; [|intros H; now injection H as <- _].
  destruct ic as [ic|].
  - destruct (index_loop ops _ (for_in_keys v) v c2) as [[g3 c3]|e] eqn:E3; simpl;
      [|discriminate].
    pose proof (index_loop_failed_mono _ _ _ _ _ _ E3 Hf2) as Hf3.
    destruct g3; simpl; intros H; injection H as <- <-; [now rewrite Hf3 | reflexivity].
  - destruct strict; simpl.
    + pose proof (extraneous_loop_failed_mono (heap_get heap a) (for_in_keys v) c2 Hf2) as Hf3.
      destruct (extraneous_loop ops (heap_get heap a) (for_in_keys v) c2) as [g3 c3].
      simpl in *. destruct g3; simpl; intros H; injection H as <- <-;
        [now rewrite Hf3 | reflexivity].
    + intros H. injection H as <- <-. now rewrite Hf2.
Qed.
End IfaceLoops.

(** *** What the detail context records *)

Lemma extends_refl d : extends d d.
Proof. split; [reflexivity | apply incl_refl]. Qed.

Lemma extends_trans d1 d2 d3 : extends d1 d2 -> extends d2 d3 -> extends d1 d3.
Proof.
  intros [F1 I1] [F2 I2]. split; [congruence | eapply incl_tran; eauto].
Qed.

Lemma detail_completeFork_extends d child :
  extends d (snd (detail_completeFork d child)).
Proof.
  destruct d as [frames forks]. simpl. destruct (detail_failed child); simpl.
  - split; [reflexivity|]. simpl. apply incl_appl, incl_refl.
  - apply extends_refl.
Qed.

Lemma detail_completeFork_child d child :
  detail_failed child = true ->
  In child (forks_of (snd (detail_completeFork d child))).
Proof.
  destruct d as [frames forks]. simpl. intros ->. simpl.
  apply in_or_app. right. now left.
Qed.

Lemma detail_prop_step_extends (call : Chk -> CheckerFunc (C := DetailContext))
  isPartial p v d go d' :
  prop_step DetailOps call isPartial p v d = Ok (go, d') -> extends d d'.
Proof.
  destruct p as [[name c] r]. unfold prop_step.
  destruct (is_undefined (get_prop v name)).
  - destruct (r && negb isPartial); intros H; injection H as H.
    + apply (f_equal snd) in H. simpl in H. subst d'. apply detail_completeFork_extends.
    + subst d'. apply extends_refl.
  - destruct (call c (get_prop v name) (fork DetailOps d)) as [[ok child]|e]; simpl;
      [|discriminate].
    intros H; injection H as H. apply (f_equal snd) in H. simpl in H. subst d'.
    apply detail_completeFork_extends.
Qed.

Lemma detail_prop_loop_extends (call : Chk -> CheckerFunc (C := DetailContext))
  isPartial ps v d go d' :
  prop_loop DetailOps call isPartial ps v d = Ok (go, d') -> extends d d'.
Proof.
  revert d. induction ps as [|p ps IH]; intros d; simpl.
  - intros H. injection H as _ <-. apply extends_refl.
  - destruct (prop_step DetailOps call isPartial p v d) as [[g d1]|e] eqn:E; simpl;
      [|discriminate].
    apply detail_prop_step_extends in E. destruct g; intros H.
    + eapply extends_trans; eauto.
    + now injection H as _ <-.
Qed.

Lemma detail_index_loop_extends (ic : CheckerFunc (C := DetailContext)) keys v d go d' :
  index_loop DetailOps ic keys v d = Ok (go, d') -> extends d d'.
Proof.
  revert d. induction keys as [|k ks IH]; intros d; simpl.
  - intros H. injection H as _ <-. apply extends_refl.
  - destruct (ic (get_prop v k) detail_empty) as [[ok child]|e]; simpl; [|discriminate].
    match goal with |- context [detail_completeFork d ?c] =>
      pose proof (detail_completeFork_extends d c) as Hx;
      destruct (detail_completeFork d c) as [g d1] end.
    simpl in Hx. destruct g; intros H.
    + eapply extends_trans; eauto.
    + now injection H as _ <-.
Qed.

Lemma detail_extraneous_loop_extends allowed keys d :
  extends d (snd (extraneous_loop DetailOps allowed keys d)).
Proof.
  revert d. induction keys as [|k ks IH]; intros d; simpl; [apply extends_refl|].
  destruct (set_has allowed k); [apply IH|].
  match goal with |- context [detail_completeFork d ?c] =>
    pose proof (detail_completeFork_extends d c) as Hx;
    destruct (detail_completeFork d c) as [g d1] end.
  simpl in Hx. destruct g; simpl; [|exact Hx].
  eapply extends_trans; eauto.
Qed.

Lemma detail_fork_loop_extends (call : Chk -> CheckerFunc (C := DetailContext)) cs v d go d' :
  fork_loop DetailOps call cs v d = Ok (go, d') -> extends d d'.
Proof.
  revert d. induction cs as [|c cs IH]; intros d; simpl.
  - intros H. injection H as _ <-. apply extends_refl.
  - destruct (call c v detail_empty) as [[ok child]|e]; simpl; [|discriminate].
    pose proof (detail_completeFork_extends d child) as Hx.
    destruct (detail_completeFork d child) as [g d1].
    simpl in Hx. destruct g; intros H.
    + eapply extends_trans; eauto.
    + now injection H as _ <-.
Qed.

Lemma detail_prop_loop_missing (call : Chk -> CheckerFunc (C := DetailContext))
  ps name pc v d go d' :
  In (name, pc, true) ps ->
  get_prop v name = VUndefined ->
  prop_loop DetailOps call false ps v d = Ok (go, d') ->
  In (missing_fork name) (forks_of d').
Proof.
  revert d. induction ps as [|p ps IH]; intros d Hin Hu; [destruct Hin|].
  simpl. destruct (prop_step DetailOps call false p v d) as [[g d1]|e] eqn:E; simpl;
    [|discriminate].
  pose proof (prop_step_go DetailOps DetailOps_laws _ _ _ _ _ _ _ E) as ->.
  intros H. destruct Hin as [-> | Hin].
  - assert (Hd1 : In (missing_fork name) (forks_of d1)).
    { unfold prop_step in E. rewrite Hu in E. simpl in E. injection E as E.
      apply (f_equal snd) in E. simpl in E. subst d1.
      destruct d as [frames forks]. simpl. apply in_or_app. right. now left. }
    apply detail_prop_loop_extends in H as [_ Hincl]. now apply Hincl.
  - eapply IH; eauto.
Qed.

Lemma detail_iface_missing f heap env bcs pcs ic strict a name pc v d b d' :
  In (name, pc, true) pcs ->
  get_prop v name = VUndefined ->
  is_object v = true ->
  run DetailOps f heap env (CIface bcs pcs ic strict false a) v d = Ok (b, d') ->
  frames_of d' = frames_of d /\ In (missing_fork name) (forks_of d').
Proof.
  intros Hin Hu Hobj. destruct f as [|f]; [discriminate|]. simpl. rewrite Hobj. simpl.
  destruct (fork_loop DetailOps _ bcs v d) as [[g1 d1]|e] eqn:E1; simpl; [|discriminate].
  pose proof (fork_loop_go DetailOps DetailOps_laws _ _ _ _ _ _ E1) as ->.
  apply detail_fork_loop_extends in E1 as [F1 _]. simpl.
  destruct (prop_loop DetailOps _ false pcs v d1) as [[g2 d2]|e] eqn:E2; simpl; [|discriminate].
  pose proof (prop_loop_go DetailOps DetailOps_laws _ _ _ _ _ _ _ E2) as ->.
  pose proof (detail_prop_loop_missing _ _ _ _ _ _ _ _ Hin Hu E2) as Hm.
  apply detail_prop_loop_extends in E2 as [F2 _]. simpl.
  destruct ic as [ic|].
  - destruct (index_loop DetailOps _ (for_in_keys v) v d2) as [[g3 d3]|e] eqn:E3; simpl;
      [|discriminate].
    pose proof (index_loop_go DetailOps DetailOps_laws _ _ _ _ _ _ E3) as ->.
    apply detail_index_loop_extends in E3 as [F3 I3]. simpl.
    intros H. injection H as _ <-. split; [congruence | now apply I3].
  - destruct strict; simpl.
    + pose proof (extraneous_loop_go DetailOps DetailOps_laws (heap_get heap a)
                    (for_in_keys v) d2) as Hg.
      pose proof (detail_extraneous_loop_extends (heap_get heap a) (for_in_keys v) d2)
        as [F3 I3].
      destruct (extraneous_loop DetailOps (heap_get heap a) (for_in_keys v) d2) as [g3 d3].
      simpl in *. subst g3. simpl. intros H. injection H as _ <-.
      split; [congruence | now apply I3].
    + intros H. injection H as _ <-. split; [congruence | exact Hm].
Qed.

Lemma getErrorDetails_fork d x root e :
  frames_of d = [] ->
  In x (forks_of d) ->
  In e (getErrorDetails x root) ->
  In e (getErrorDetails d root).
Proof.
  destruct d as [frames forks]. simpl. intros -> Hx He.
  destruct forks as [|f0 forks]; [destruct Hx|].
  apply in_flat_map. exists x. split; [exact Hx | exact He].
Qed.

Lemma nth_error_combine {A B : Type} (l : list A) (l' : list B) i a b :
  nth_error l i = Some a -> nth_error l' i = Some b ->
  nth_error (combine l l') i = Some (a, b).
Proof.
  revert l l'. induction i as [|i IH]; intros [|x l] [|y l']; simpl; try discriminate.
  - now intros [= ->] [= ->].
  - apply IH.
Qed.

Lemma facade_iface_missing f this bcs pcs ic strict a heap name pc v :
  In (name, pc, true) pcs ->
  is_object v = true ->
  get_prop v name = VUndefined ->
  forall checkerFunc, checkerFunc = (CIface bcs pcs ic strict false a, heap) ->
  (forall ok ctx, apply f NoopContext checkerFunc v newNoop = Ok (ok, ctx) -> ok = false)
  /\ (forall r, _doValidate f this checkerFunc v = Ok r ->
        exists details,
          r = Some details
          /\ In {| path := _path this ++ "." ++ name; message := "is missing" |} details).
Proof.
  intros Hin Hobj Hu checkerFunc ->.
  assert (Hnoop : forall ok ctx,
             apply f NoopContext (CIface bcs pcs ic strict false a, heap) v newNoop
             = Ok (ok, ctx) -> ok = false).
  { intros ok ctx H. unfold apply in H. simpl in H.
    eapply (iface_missing_rejected NoopContext NoopContext_laws); eauto. }
  split; [exact Hnoop|].
  intros r. unfold _doValidate.
  destruct (apply f NoopContext _ v newNoop) as [[ok ctx]|e] eqn:En; simpl; [|discriminate].
  rewrite (Hnoop ok ctx eq_refl).
  destruct (apply f DetailOps _ v detail_empty) as [[b d]|e] eqn:Ed; simpl; [|discriminate].
  intros H. injection H as <-. eexists. split; [reflexivity|].
  unfold apply in Ed. simpl in Ed.
  apply (detail_iface_missing _ _ _ _ _ _ _ _ name pc) in Ed as [Hf Hm]; try assumption.
  apply (getErrorDetails_fork d (missing_fork name)); try assumption.
  simpl. now left.
Qed.

(** C5. The flag of a property depends on the properties before it: the
    probes [propCheckers[i](undefined, testCtx)] share one context.  In
    [iface([], {a: "string", b: intersection("any", "unknown")})] the type
    of [b] allows [undefined] (its checker returns true on it), yet [b] is
    flagged required, because the probe of [a] has left the shared context
    failed and the checker of an intersection ends with [!ctx.failed()]:
    [{a: "x"}] is rejected and [validate] reports "value.b is missing".
    With the two properties in the other order [b] is not required and the
    same value is accepted. *)
Theorem required_flag_follows_earlier_probe :
  exists ab ba any,
    new_Checker 10 10 (fullSuite []) stringThenAny "value" = Ok ab
    /\ new_Checker 10 10 (fullSuite []) anyThenString "value" = Ok ba
    /\ new_Checker 10 10 (fullSuite []) anyAndUnknown "value" = Ok any
    /\ test 10 any VUndefined = Ok true
    /\ strictTest 10 any VUndefined = Ok true
    /\ (exists pa pb a heap,
          checkerPlain ab
          = (CIface [] [("a", pa, true); ("b", pb, true)] None false false a, heap))
    /\ (exists pa pb a heap,
          checkerPlain ba
          = (CIface [] [("b", pb, false); ("a", pa, true)] None false false a, heap))
    /\ test 10 ab (VObject [("a", VString "x")]) = Ok false
    /\ validate 10 ab (VObject [("a", VString "x")])
       = Ok (Some [ {| path := "value.b"; message := "is missing" |} ])
    /\ strictTest 10 ab (VObject [("a", VString "x")]) = Ok false
    /\ test 10 ba (VObject [("a", VString "x")]) = Ok true
    /\ validate 10 ba (VObject [("a", VString "x")]) = Ok None
    /\ strictTest 10 ba (VObject [("a", VString "x")]) = Ok true.
Proof.
  do 3 eexists.
  split; [vm_compute; reflexivity|].
  split; [vm_compute; reflexivity|].
  split; [vm_compute; reflexivity|].
  split; [reflexivity|]. split; [reflexivity|].
  split; [do 4 eexists; reflexivity|].
  split; [do 4 eexists; reflexivity|].
  repeat split; reflexivity.
Qed.

(** The first scenario of the spec: [{name: "A"}] is not a [Person]. *)
Example person_age_is_missing :
  test 10 personChecker (VObject [("name", VString "A")]) = Ok false
  /\ validate 10 personChecker (VObject [("name", VString "A")])
     = Ok (Some [ {| path := "value.age"; message := "is missing" |} ]).
Proof. split; reflexivity. Qed.

(** ** Interfaces: index signatures *)

(** With an index signature, an interface checker does not depend on the
    mode nor on [allowedProps]: its own extraneous-key loop is never run. *)
Lemma iface_index_ignores_strict {C U : Type} (ops : IContext C U)
  f heap env bcs pcs ic strict strict' isPartial a a' v ctx :
  run ops f heap env (CIface bcs pcs (Some ic) strict isPartial a) v ctx
  = run ops f heap env (CIface bcs pcs (Some ic) strict' isPartial a') v ctx.
Proof. destruct f; reflexivity. Qed.

(** C6. [interface Tagged extends Named { [key: string]: any }] declares an
    index signature, yet in strict mode the checker compiled for it reports
    the key [extra] of [{name: "A", extra: 1}] as extraneous: the checker of
    the base [Named], compiled without the index signature, runs its own
    extraneous-key loop.  In plain mode the value is accepted. *)
Theorem index_signature_base_extraneous :
  ttype taggedChecker = TIface ["Named"] [] (Some (TName 2 "any"))
  /\ new_Checker 10 10 taggedSuite Tagged "value" = Ok taggedChecker
  /\ test 10 taggedChecker taggedValue = Ok true
  /\ strictTest 10 taggedChecker taggedValue = Ok false
  /\ strictValidate 10 taggedChecker taggedValue
     = Ok (Some [ {| path := "value.extra"; message := "is extraneous" |} ]).
Proof. repeat apply conj; reflexivity. Qed.

(** ** Partial *)

Section NoopLoops.
Let ops := NoopContext.

Lemma noop_fork_loop_true (call : Chk -> CheckerFunc (C := bool)) cs v :
  Forall (fun c => call c v false = Ok (true, false)) cs ->
  fork_loop ops call cs v false = Ok (true, false).
Proof.
  induction 1 as [|c cs Hc _ IH]; simpl; [reflexivity|].
  rewrite Hc. simpl. exact IH.
Qed.

Lemma noop_prop_loop_true (call : Chk -> CheckerFunc (C := bool)) ps v :
  Forall (fun p => get_prop v (fst (fst p)) = VUndefined
                   \/ call (snd (fst p)) (get_prop v (fst (fst p))) false = Ok (true, false))
         ps ->
  prop_loop ops call true ps v false = Ok (true, false).
Proof.
  induction 1 as [|[[name c] r] ps Hp _ IH]; simpl; [reflexivity|].
  simpl in Hp. destruct (is_undefined (get_prop v name)) eqn:Eu.
  - rewrite andb_false_r. simpl. exact IH.
  - destruct Hp as [Hp|Hp]; [rewrite Hp in Eu; discriminate|].
    rewrite Hp. simpl. exact IH.
Qed.

Lemma noop_index_loop_true (ic : CheckerFunc (C := bool)) keys v :
  Forall (fun k => ic (get_prop v k) false = Ok (true, false)) keys ->
  index_loop ops ic keys v false = Ok (true, false).
Proof.
  induction 1 as [|k ks Hk _ IH]; simpl; [reflexivity|].
  rewrite Hk. simpl. exact IH.
Qed.
End NoopLoops.

(** *** In the no-op context, a checker that returns true records nothing *)

Lemma fork_loop_failed_mono {C U : Type} (ops : IContext C U) (laws : ForkLaws ops)
  (call : Chk -> CheckerFunc (C := C)) cs v ctx go ctx' :
  fork_loop ops call cs v ctx = Ok (go, ctx') ->
  failed ops ctx = true -> failed ops ctx' = true.
Proof.
  rewrite (fork_loop_fork_all ops laws).
  destruct (fork_all ops call cs v ctx) as [[children c1]|e] eqn:E; simpl; [|discriminate].
  intros H Hf. injection H as _ <-.
  apply (fork_all_failed ops laws) in E as [_ ->]. now rewrite Hf.
Qed.

Section TrueUnchanged.
Variable call : Chk -> CheckerFunc (C := bool).
Hypothesis Hcall : forall c v ctx ctx', call c v ctx = Ok (true, ctx') -> ctx' = ctx.

Lemma noop_array_loop_unchanged c items i ctx ctx' :
  array_loop NoopContext (call c) items i ctx = Ok (true, ctx') -> ctx' = ctx.
Proof.
  revert i ctx. induction items as [|x items IH]; intros i ctx; simpl.
  - intros H. now injection H as <-.
  - destruct (call c x ctx) as [[ok c1]|e] eqn:E; simpl; [|discriminate].
    destruct ok; [|discriminate]. apply Hcall in E as ->. apply IH.
Qed.

Lemma noop_tuple_loop_unchanged cs items i ctx ctx' :
  tuple_loop NoopContext call cs items i ctx = Ok (true, ctx') -> ctx' = ctx.
Proof.
  revert i ctx. induction cs as [|c cs IH]; intros i ctx; simpl.
  - intros H. now injection H as <-.
  - destruct (call c (get_index items i) ctx) as [[ok c1]|e] eqn:E; simpl; [|discriminate].
    destruct ok; [|discriminate]. apply Hcall in E as ->. apply IH.
Qed.

Lemma noop_param_loop_unchanged cs items i ctx ctx' :
  param_loop NoopContext call cs items i ctx = Ok (true, ctx') -> ctx' = ctx.
Proof.
  revert i ctx. induction cs as [|[[n c] r] cs IH]; intros i ctx; simpl.
  - intros H. now injection H as <-.
  - destruct (is_undefined (get_index items i)).
    + destruct r; [discriminate | apply IH].
    + destruct (call c (get_index items i) ctx) as [[ok c1]|e] eqn:E; simpl; [|discriminate].
      destruct ok; [|discriminate]. apply Hcall in E as ->. apply IH.
Qed.
End TrueUnchanged.

Lemma noop_true_unchanged f heap env c v ctx ctx' :
  run NoopContext f heap env c v ctx = Ok (true, ctx') -> ctx' = ctx.
Proof.
  revert env c v ctx ctx'. induction f as [|f IH]; intros env c v ctx ctx'; [discriminate|].
  assert (Hcall : forall c v ctx ctx',
             run NoopContext f heap env c v ctx = Ok (true, ctx') -> ctx' = ctx)
    by (intros; eapply IH; eauto).
  destruct c; simpl.
  - destruct (validator v); [|discriminate]. intros H. now injection H as <-.
  - destruct (cell env node); [apply IH | discriminate].
  - apply IH.
  - destruct (run NoopContext f heap env c v ctx) as [[ok c1]|e] eqn:E; simpl; [|discriminate].
    destruct ok; [|discriminate]. intros H. injection H as <-. eapply IH; eauto.
  - destruct (strict_eq v lit_value); [|discriminate]. intros H. now injection H as <-.
  - destruct v; try discriminate. apply noop_array_loop_unchanged. exact Hcall.
  - destruct v; try discriminate; destruct start; try discriminate;
      try (intros H; now injection H as <-).
    apply noop_array_loop_unchanged. exact Hcall.
  - destruct v; try discriminate. apply noop_tuple_loop_unchanged. exact Hcall.
  - destruct (run NoopContext f heap env c1 v ctx) as [[ok x]|e] eqn:E; simpl; [|discriminate].
    destruct ok; [|discriminate]. apply IH in E as ->. apply IH.
  - destruct (run NoopContext f heap env c v ctx) as [[ok x]|e] eqn:E; simpl; [|discriminate].
    destruct ok; [|discriminate]. apply IH in E as ->.
    destruct v; try discriminate.
    destruct (Nat.leb _ n); [|discriminate]. intros H. now injection H as <-.
  - destruct (union_loop NoopContext _ itemCheckers v _) as [[ok ur]|e]; simpl; [|discriminate].
    destruct ok; [|discriminate]. intros H. now injection H as <-.
  - destruct (fork_loop NoopContext _ itemCheckers v ctx) as [[all c1]|e] eqn:E; simpl;
      [|discriminate].
    intros H. injection H as H <-. apply andb_prop in H as [_ H].
    destruct ctx; [|now destruct c1].
    apply (fork_loop_failed_mono NoopContext NoopContext_laws) in E; [|reflexivity].
    simpl in E. now rewrite E in H.
  - destruct (is_undefined v); [|apply IH]. intros H. now injection H as <-.
  - destruct (is_undefined v); [|apply IH]. intros H. now injection H as <-.
  - destruct (existsb _ validValues); [|discriminate]. intros H. now injection H as <-.
  - destruct (strict_eq v val); [|discriminate]. intros H. now injection H as <-.
  - destruct (is_object v); simpl; [|discriminate].
    destruct (fork_loop NoopContext _ baseCheckers v ctx) as [[g1 c1]|e] eqn:E1; simpl;
      [|discriminate].
    destruct g1; simpl; [|discriminate].
    destruct (prop_loop NoopContext _ isPartial propCheckers v c1) as [[g2 c2]|e] eqn:E2; simpl;
      [|discriminate].
    destruct g2; simpl; [|discriminate].
    assert (Hmono : forall c3, (c2 = true -> c3 = true) ->
              Ok (negb c3, c3) = Ok (true, ctx') -> ctx' = ctx).
    { intros c3 H23 H. injection H as H <-. destruct c3; [discriminate|].
      destruct ctx; [|reflexivity].
      apply (fork_loop_failed_mono NoopContext NoopContext_laws) in E1; [|reflexivity].
      apply (prop_loop_failed_mono NoopContext NoopContext_laws) in E2; [|exact E1].
      simpl in E2. apply H23 in E2. discriminate. }
    destruct indexTypeChecker as [ic|].
    + destruct (index_loop NoopContext _ (for_in_keys v) v c2) as [[g3 c3]|e] eqn:E3; simpl;
        [|discriminate].
      destruct g3; simpl; [|discriminate]. apply Hmono. intros ->.
      now apply (index_loop_failed_mono NoopContext NoopContext_laws) in E3.
    + destruct strict; simpl.
      * pose proof (extraneous_loop_failed_mono NoopContext NoopContext_laws
                      (heap_get heap allowedProps) (for_in_keys v) c2) as Hx.
        destruct (extraneous_loop NoopContext _ (for_in_keys v) c2) as [g3 c3]. simpl in *.
        destruct g3; simpl; [|discriminate]. apply Hmono. exact Hx.
      * apply Hmono. auto.
  - destruct (is_function v); [|discriminate]. intros H. now injection H as <-.
  - destruct v; try discriminate. apply noop_param_loop_unchanged. exact Hcall.
Qed.

Lemma accepts_run f heap env c v :
  accepts f heap env c v -> run NoopContext f heap env c v false = Ok (true, false).
Proof.
  intros [ctx H]. unfold newNoop in H. rewrite H.
  now rewrite (noop_true_unchanged _ _ _ _ _ _ _ H).
Qed.

(** *** The allowed property names only grow *)

Lemma set_has_app s1 s2 k : set_has (s1 ++ s2)%list k = set_has s1 k || set_has s2 k.
Proof. unfold set_has. apply existsb_app. Qed.

Lemma set_has_add s x k :
  set_has (set_add s x) k = true -> set_has s k = true \/ k = x.
Proof.
  unfold set_add. destruct (set_has s x); [now left|].
  rewrite set_has_app. simpl. rewrite orb_false_r.
  intros H. apply orb_true_iff in H. destruct H as [H|H]; [now left|].
  right. now apply String.eqb_eq.
Qed.

Lemma set_has_fold_add names s k :
  set_has (fold_left set_add names s) k = true -> set_has s k = true \/ In k names.
Proof.
  revert s. induction names as [|n names IH]; intros s; simpl; [now left|].
  intros H. destruct (IH _ H) as [H1|H1]; [|now right; right].
  destruct (set_has_add _ _ _ H1) as [H2| ->]; [now left | right; now left].
Qed.

Lemma heap_update_length h r f : List.length (heap_update h r f) = List.length h.
Proof.
  revert r. induction h as [|s h IH]; intros [|r]; simpl; try reflexivity.
  now rewrite IH.
Qed.

Lemma heap_get_update h r f i :
  i < List.length h ->
  heap_get (heap_update h r f) i
  = if Nat.eqb i r then f (heap_get h i) else heap_get h i.
Proof.
  unfold heap_get. revert r i. induction h as [|s h IH]; intros r i Hi; simpl in Hi; [lia|].
  destruct r as [|r], i as [|i]; simpl; try reflexivity.
  apply IH. lia.
Qed.

Lemma set_has_in_range h i k : set_has (heap_get h i) k = true -> i < List.length h.
Proof.
  intros H. destruct (Nat.lt_ge_cases i (List.length h)) as [Hlt|Hge]; [exact Hlt|].
  unfold heap_get in H. now rewrite nth_overflow in H by exact Hge.
Qed.

Lemma set_has_add_mono s x k : set_has s k = true -> set_has (set_add s x) k = true.
Proof.
  intros H. unfold set_add. destruct (set_has s x); [exact H|].
  rewrite set_has_app, H. reflexivity.
Qed.

Lemma set_has_add_same s x : set_has (set_add s x) x = true.
Proof.
  unfold set_add. destruct (set_has s x) eqn:E; [exact E|].
  rewrite set_has_app. simpl. rewrite String.eqb_refl. now rewrite orb_true_r.
Qed.

Lemma set_has_fold_add_mono names s k :
  set_has s k = true -> set_has (fold_left set_add names s) k = true.
Proof.
  revert s. induction names as [|n names IH]; intros s H; simpl; [exact H|].
  apply IH. now apply set_has_add_mono.
Qed.

Lemma set_has_fold_add_in names s k :
  In k names -> set_has (fold_left set_add names s) k = true.
Proof.
  revert s. induction names as [|n names IH]; intros s; simpl; [tauto|].
  intros [->|H]; [|now apply IH].
  apply set_has_fold_add_mono. apply set_has_add_same.
Qed.

Lemma grows_pure {A : Type} (m : M A) :
  (forall s, sets (snd (m s)) = sets s) -> grows m.
Proof. intros H s i k Hk. now rewrite H. Qed.

Lemma grows_ret {A : Type} (a : A) : grows (ret a).
Proof. now apply grows_pure. Qed.

Lemma grows_throw {A : Type} e : grows (@throw A e).
Proof. now apply grows_pure. Qed.

Lemma grows_lift {A : Type} (r : res A) : grows (lift r).
Proof. now apply grows_pure. Qed.

Lemma grows_mbind {A B : Type} (m : M A) (k : A -> M B) :
  grows m -> (forall a, grows (k a)) -> grows (mbind m k).
Proof.
  intros Hm Hk s i x Hx. unfold mbind. specialize (Hm s i x Hx).
  destruct (m s) as [[a|e] s1]; simpl in *; [now apply Hk | exact Hm].
Qed.

Lemma grows_mapM {A B : Type} (f : A -> M B) (l : list A) :
  (forall a, grows (f a)) -> grows (mapM f l).
Proof.
  intros Hf. induction l as [|a l IH]; simpl.
  - apply grows_ret.
  - apply grows_mbind; [apply Hf|]. intros b.
    apply grows_mbind; [apply IH|]. intros bs. apply grows_ret.
Qed.

Lemma grows_default_set allowedProps : grows (default_set allowedProps).
Proof.
  destruct allowedProps as [a|]; [apply grows_ret|].
  intros s i k Hk. simpl. pose proof (set_has_in_range _ _ _ Hk) as Hi.
  unfold heap_get in *. now rewrite app_nth1.
Qed.

Lemma grows_add_all a names : grows (add_all a names).
Proof.
  intros s i k Hk. simpl. pose proof (set_has_in_range _ _ _ Hk) as Hi.
  rewrite heap_get_update by exact Hi.
  destruct (Nat.eqb i a); [now apply set_has_fold_add_mono | exact Hk].
Qed.

Lemma grows_slot {A : Type} node (a : A) (m : M A) :
  grows m ->
  grows (fun s => if slot_set node s then (Ok a, s)
                  else finally m (uninstall node) (install node s)).
Proof.
  intros Hm s i k Hk. destruct (slot_set node s); [exact Hk|].
  unfold finally. specialize (Hm (install node s) i k Hk).
  now destruct (m (install node s)) as [r s1].
Qed.

Lemma grows_getChecker_of callee (getC : TType -> M Chk) t :
  (forall t, grows (getC t)) -> grows (getChecker_of callee getC t).
Proof. intros H. destruct t; simpl; try apply H. apply grows_throw. Qed.

Lemma getChecker_grows fuel pf suite :
  forall strict isPartial allowedProps t,
    grows (getChecker fuel pf suite strict isPartial allowedProps t).
Proof.
  induction fuel as [|f IH]; intros strict isPartial ap t; [apply grows_throw|].
  destruct t; cbn [getChecker];
    repeat first
      [ apply grows_ret | apply grows_throw | apply grows_lift | apply IH
      | apply grows_default_set | apply grows_add_all
      | apply grows_slot | apply grows_getChecker_of
      | apply grows_mapM | apply grows_mbind | progress intros
      | apply grows_pure; intros; reflexivity
      | match goal with
        | |- grows (match ?x with _ => _ end) => destruct x
        | |- grows (if ?x then _ else _) => destruct x
        end ].
Qed.

Lemma getChecker_TIface_fresh fuel pf suite strict isPartial bases props idx s :
  getChecker (S fuel) pf suite strict isPartial None (TIface bases props idx) s
  = getChecker (S fuel) pf suite strict isPartial (Some (List.length (sets s)))
      (TIface bases props idx) (snd (new_set s)).
Proof. reflexivity. Qed.

Lemma getChecker_TIface_set fuel pf suite strict isPartial allowedProps bases props idx s c s' :
  getChecker (S fuel) pf suite strict isPartial allowedProps (TIface bases props idx) s
    = (Ok c, s') ->
  exists bcs pcs ic a,
    c = CIface bcs pcs ic strict isPartial a
    /\ (idx = None -> ic = None)
    /\ fst (default_set allowedProps s) = Ok a.
Proof.
  simpl. unfold mbind at 1.
  destruct (default_set allowedProps s) as [[a|e] s1]; [|discriminate].
  unfold mbind at 1. unfold add_all at 1.
  unfold mbind at 1.
  destruct (mapM _ bases _) as [[bcs|e] s2]; [|discriminate].
  unfold mbind at 1.
  destruct (mapM _ props s2) as [[items|e] s3]; [|discriminate].
  unfold mbind at 1.
  destruct idx as [it|].
  - unfold mbind at 1.
    destruct (getChecker fuel pf suite strict isPartial None it s3) as [[c0|e] s4];
      [|discriminate].
    unfold ret at 1. unfold mbind.
    destruct (probe_required pf (sets s4) _ newNoop) as [required|e]; [|discriminate].
    unfold ret. intros H. injection H as <- <-.
    eexists _, _, _, a. split; [reflexivity|]. split; [discriminate | reflexivity].
  - unfold ret at 1. unfold mbind.
    destruct (probe_required pf (sets s3) _ newNoop) as [required|e]; [|discriminate].
    unfold ret. intros H. injection H as <- <-.
    eexists _, _, _, a. split; [reflexivity|]. split; reflexivity.
Qed.

Lemma mbind_add_all_names {B : Type} a names (K : unit -> M B) s r s' :
  (forall u, grows (K u)) ->
  a < List.length (sets s) ->
  mbind (add_all a names) K s = (r, s') ->
  forall k, In k names -> set_has (heap_get (sets s') a) k = true.
Proof.
  unfold mbind, add_all. intros HK Ha H k Hk.
  match type of H with K tt ?s1 = _ => specialize (HK tt s1 a k) end.
  rewrite H in HK. apply HK. simpl.
  rewrite heap_get_update by exact Ha. rewrite Nat.eqb_refl.
  now apply set_has_fold_add_in.
Qed.

(** The names of its own properties are in the [allowedProps] set of a
    compiled interface. *)
Lemma iface_own_names_allowed f pf suite strict isPartial bases props idx s c s' :
  getChecker (S f) pf suite strict isPartial None (TIface bases props idx) s = (Ok c, s') ->
  forall k, In k (map prop_name props) ->
    set_has (heap_get (sets s') (List.length (sets s))) k = true.
Proof.
  rewrite getChecker_TIface_fresh. cbn [getChecker]. unfold mbind at 1.
  cbn [default_set ret]. intros H k Hk.
  refine (mbind_add_all_names _ _ _ _ _ _ _ _ H k Hk).
  - intros _.
    repeat first
      [ apply grows_ret | apply grows_throw | apply grows_lift | apply getChecker_grows
      | apply grows_getChecker_of
      | apply grows_mapM | apply grows_mbind | progress intros
      | apply grows_pure; intros; reflexivity
      | match goal with
        | |- grows (match ?x with _ => _ end) => destruct x
        end ].
  - simpl. rewrite length_app. simpl. lia.
Qed.

(** C7, as stated, fails: the Partial of an interface whose base is not an
    interface, here [iface(["number"], {})], rejects the empty object; so
    does the Partial of [iface([], {toString: "string"})], for which
    [value["toString"]] finds the function that the empty object inherits. *)
Lemma partial_nonobject_base_rejects_empty :
  exists this this',
    new_Checker 10 10 (fullSuite []) (TPartial extendsNumber) "value" = Ok this
    /\ test 10 this (VObject []) = Ok false
    /\ new_Checker 10 10 (fullSuite []) (TPartial hasToString) "value" = Ok this'
    /\ test 10 this' (VObject []) = Ok false
    /\ validate 10 this' (VObject [])
       = Ok (Some [ {| path := "value.toString"; message := "is not a string" |} ]).
Proof.
  do 2 eexists.
  split; [vm_compute; reflexivity|]. split; [reflexivity|].
  split; [vm_compute; reflexivity|]. split; reflexivity.
Qed.

Lemma noop_extraneous_loop_true allowed keys :
  Forall (fun k => set_has allowed k = true) keys ->
  extraneous_loop NoopContext allowed keys false = (true, false).
Proof.
  induction 1 as [|k ks Hk _ IH]; simpl; [reflexivity|]. now rewrite Hk.
Qed.

Lemma get_prop_empty_object name :
  is_member name Object_prototype = false -> get_prop (VObject []) name = VUndefined.
Proof.
  intros H. unfold get_prop. cbn [assoc]. unfold inherited.
  destruct (String.eqb name "__proto__") eqn:E.
  - apply String.eqb_eq in E. subst name. discriminate.
  - now rewrite H.
Qed.

(** C7 (amended). For any interface I, the checker compiled from
    Partial(I), plain or strict, accepts [undefined]; it accepts every
    object that the checkers of I's bases accept, whose present properties
    (those that [value[name]] finds, own or inherited) are accepted by the
    checkers of I's corresponding properties, and whose keys are all
    accepted by the index checker when I has an index signature or, in
    strict mode without one, are all allowed property names, among which
    are the names of I's own properties.  It accepts the empty object when
    I has no bases and no property with the name of a member of
    [Object.prototype].  Missing properties, required or not, are not
    reported. *)
Theorem partial_iface_accepts
  (fuel pf : nat) (suite : ITypeSuite) (strict isPartial : bool) (allowedProps : option nat)
  (bases : list string) (props : list TProp) (idx : option TType)
  (s s' : CompileState) (c : Chk) :
  getChecker (S (S fuel)) pf suite strict isPartial allowedProps
    (TPartial (TIface bases props idx)) s = (Ok c, s') ->
  exists bcs pcs ic a,
    c = CPartial (CIface bcs pcs ic strict true a)
    /\ List.length bcs = List.length bases
    /\ map (fun x => fst (fst x)) pcs = map prop_name props
    /\ (ic = None <-> idx = None)
    /\ (forall k, In k (map prop_name props) -> set_has (heap_get (sets s') a) k = true)
    /\ (forall f heap env, accepts (S f) heap env c VUndefined)
    /\ (forall f heap env v,
          is_object v = true ->
          Forall (fun bc => accepts f heap env bc v) bcs ->
          Forall (fun p => get_prop v (fst (fst p)) = VUndefined
                           \/ accepts f heap env (snd (fst p)) (get_prop v (fst (fst p))))
                 pcs ->
          match ic with
          | Some icc => Forall (fun k => accepts f heap env icc (get_prop v k)) (for_in_keys v)
          | None => strict = true ->
                    Forall (fun k => set_has (heap_get heap a) k = true) (for_in_keys v)
          end ->
          accepts (S (S f)) heap env c v)
    /\ (bases = [] ->
        Forall (fun p => is_member (prop_name p) Object_prototype = false) props ->
        forall f heap env, accepts (S (S f)) heap env c (VObject [])).
Proof.
  intros Hc.
  assert (Hi : exists ci, getChecker (S fuel) pf suite strict true None (TIface bases props idx) s
                          = (Ok ci, s') /\ c = CPartial ci).
  { change (getChecker (S (S fuel)) pf suite strict isPartial allowedProps
              (TPartial (TIface bases props idx)) s)
      with ((itemChecker <- getChecker (S fuel) pf suite strict true None
                              (TIface bases props idx) ;; ret (CPartial itemChecker)) s) in Hc.
    unfold mbind, ret in Hc.
    destruct (getChecker (S fuel) pf suite strict true None (TIface bases props idx) s)
      as [[ci|e] s1]; [|discriminate].
    injection Hc as <- <-. now exists ci. }
  destruct Hi as (ci & Hi & ->).
  pose proof (iface_own_names_allowed _ _ _ _ _ _ _ _ _ _ _ Hi) as Hown.
  destruct (getChecker_TIface_set _ _ _ _ _ _ _ _ _ _ _ _ Hi) as (bcs0 & pcs0 & ic0 & a0 & Hci & _ & Ha).
  simpl in Ha.
  apply getChecker_TIface_shape in Hi as (bcs & pcs & ic & a & -> & Hlen & Hnames & Hidx & _).
  assert (Ha0 : List.length (sets s) = a) by congruence.
  clear Hci Ha.
  assert (Hobj : forall f heap env v,
            is_object v = true ->
            Forall (fun bc => accepts f heap env bc v) bcs ->
            Forall (fun p => get_prop v (fst (fst p)) = VUndefined
                             \/ accepts f heap env (snd (fst p)) (get_prop v (fst (fst p))))
                   pcs ->
            match ic with
            | Some icc => Forall (fun k => accepts f heap env icc (get_prop v k)) (for_in_keys v)
            | None => strict = true ->
                      Forall (fun k => set_has (heap_get heap a) k = true) (for_in_keys v)
            end ->
            accepts (S (S f)) heap env (CPartial (CIface bcs pcs ic strict true a)) v).
  { intros f heap env v Hv Hb Hp Hk. exists false. unfold newNoop.
    change (run NoopContext (S (S f)) heap env (CPartial (CIface bcs pcs ic strict true a)) v
              false)
      with (if is_undefined v then Ok (true, false)
            else run NoopContext (S f) heap env (CIface bcs pcs ic strict true a) v false).
    destruct (is_undefined v); [reflexivity|].
    simpl. rewrite Hv. simpl.
    rewrite noop_fork_loop_true.
    2:{ eapply Forall_impl; [|exact Hb]. intros bc. apply accepts_run. }
    simpl. rewrite noop_prop_loop_true.
    2:{ eapply Forall_impl; [|exact Hp]. intros p [H|H]; [now left | right].
        now apply accepts_run. }
    simpl. destruct ic as [icc|].
    - rewrite noop_index_loop_true; [reflexivity|].
      eapply Forall_impl; [|exact Hk]. intros k. apply accepts_run.
    - destruct strict; [|reflexivity].
      now rewrite (noop_extraneous_loop_true _ _ (Hk eq_refl)). }
  exists bcs, pcs, ic, a. split; [reflexivity|]. split; [exact Hlen|].
  split; [exact Hnames|]. split; [exact Hidx|]. split; [|split; [|split]].
  - rewrite <- Ha0. exact Hown.
  - intros f heap env. exists false. reflexivity.
  - exact Hobj.
  - intros -> Hproto f heap env. destruct bcs; [|discriminate]. apply Hobj.
    + reflexivity.
    + constructor.
    + apply Forall_forall. intros p Hp. left. apply get_prop_empty_object.
      assert (Hin : In (fst (fst p)) (map prop_name props)).
      { rewrite <- Hnames. now apply (in_map (fun x => fst (fst x))). }
      apply in_map_iff in Hin. destruct Hin as (q & <- & Hq).
      rewrite Forall_forall in Hproto. now apply Hproto.
    + destruct ic; [constructor | intros _; constructor].
Qed.

Lemma partial_iface_accepts_witness :
  exists c, fst (getChecker 4 4 personSuite true false None (TPartial Person)
                   {| building := []; sets := [] |}) = Ok c
            /\ accepts 4 [] [] c (VObject []).
Proof.
  destruct (partial_iface_accepts 2 4 personSuite true false None []
              [mkTProp "name" (TName 1 "string") false; mkTProp "age" (TName 2 "number") false]
              None {| building := []; sets := [] |}
              (snd (getChecker 4 4 personSuite true false None (TPartial Person)
                      {| building := []; sets := [] |}))
              _ eq_refl) as (bcs & pcs & ic & a & Hc & _ & _ & _ & _ & _ & _ & Hempty).
  eexists. split; [reflexivity|].
  refine (Hempty eq_refl _ 2 [] []). repeat constructor.
Defined.

(** ** Compilation: the trampoline slots *)

Lemma preserves_ret {A : Type} (a : A) : preserves (ret a).
Proof. intros s. reflexivity. Qed.

Lemma preserves_throw {A : Type} (e : error) : preserves (throw (A := A) e).
Proof. intros s. reflexivity. Qed.

Lemma preserves_lift {A : Type} (r : res A) : preserves (lift r).
Proof. intros s. reflexivity. Qed.

Lemma preserves_pure {A : Type} (g : CompileState -> res A) : preserves (fun s => (g s, s)).
Proof. intros s. reflexivity. Qed.

Lemma preserves_mbind {A B : Type} (m : M A) (k : A -> M B) :
  preserves m -> (forall a, preserves (k a)) -> preserves (mbind m k).
Proof.
  intros Hm Hk s. unfold mbind. specialize (Hm s).
  destruct (m s) as [[a|e] s1]; simpl in *.
  - now rewrite Hk.
  - exact Hm.
Qed.

Lemma preserves_mapM {A B : Type} (f : A -> M B) (l : list A) :
  (forall a, preserves (f a)) -> preserves (mapM f l).
Proof.
  intros Hf. induction l as [|a l IH]; simpl.
  - apply preserves_ret.
  - apply preserves_mbind; [apply Hf|]. intros b.
    apply preserves_mbind; [apply IH|]. intros bs. apply preserves_ret.
Qed.

Lemma preserves_default_set allowedProps : preserves (default_set allowedProps).
Proof. destruct allowedProps; intros s; reflexivity. Qed.

Lemma preserves_add_all a names : preserves (add_all a names).
Proof. intros s. reflexivity. Qed.

Create HintDb compile.

#[local] Hint Resolve preserves_ret preserves_throw preserves_lift preserves_pure
  preserves_default_set preserves_add_all : compile.

Lemma preserves_getChecker_of callee (getC : TType -> M Chk) t :
  (forall t, preserves (getC t)) -> preserves (getChecker_of callee getC t).
Proof. intros H. destruct t; simpl; try apply H. apply preserves_throw. Qed.

Lemma getChecker_preserves fuel pf suite strict isPartial allowedProps t :
  preserves (getChecker fuel pf suite strict isPartial allowedProps t).
Proof.
  revert strict isPartial allowedProps t.
  induction fuel as [|f IH]; intros strict isPartial allowedProps t;
    [apply preserves_throw|].
  destruct t; simpl; auto with compile.
  - (* TName *)
    intros s. destruct (slot_set node s) eqn:Eslot; [reflexivity|].
    unfold finally.
    match goal with |- context [mbind ?m ?k (install node s)] =>
      assert (Hp : preserves (mbind m k)) end.
    { apply preserves_mbind; [apply preserves_lift|]. intros ttype.
      apply preserves_mbind; [apply IH|]. intros checker.
      destruct (is_Basic_or_Name ttype); apply preserves_ret. }
    specialize (Hp (install node s)).
    match goal with |- context [mbind ?m ?k (install node s)] =>
      destruct (mbind m k (install node s)) as [r s1] end.
    cbn [snd] in *. unfold uninstall. cbn [building]. rewrite Hp.
    unfold install. cbn [building filter]. rewrite Nat.eqb_refl. cbn [negb].
    apply filter_not_slot. exact Eslot.
  - (* TArray *)
    apply preserves_mbind; [apply IH | auto with compile].
  - (* RestType *)
    apply preserves_mbind.
    + destruct typeSpec; auto with compile.
    + intros arrType. destruct arrType; auto with compile.
      apply preserves_mbind; [apply IH | auto with compile].
  - (* TTuple *)
    apply preserves_mbind; [apply preserves_mapM; intros; apply IH|].
    intros cs. destruct _restType.
    + apply preserves_mbind; [apply IH | auto with compile].
    + destruct strict; auto with compile.
  - (* TUnion *)
    apply preserves_mbind; [apply preserves_mapM; intros; apply IH | auto with compile].
  - (* TIntersection *)
    apply preserves_mbind; [auto with compile|]. intros a.
    apply preserves_mbind; [apply preserves_mapM; intros; apply IH | auto with compile].
  - (* TPartial *)
    apply preserves_mbind; [apply IH | auto with compile].
  - (* TEnumLiteral *)
    apply preserves_mbind; [auto with compile|]. intros ttype.
    destruct ttype; auto with compile.
    destruct (assoc "hasOwnProperty" members); auto with compile.
    destruct (assoc prop members); auto with compile.
  - (* TIface *)
    apply preserves_mbind; [auto with compile|]. intros a.
    apply preserves_mbind; [auto with compile|]. intros _.
    apply preserves_mbind.
    { apply preserves_mapM. intros b.
      apply preserves_mbind; [auto with compile|]. intros base.
      apply preserves_getChecker_of. intros; apply IH. }
    intros bcs. apply preserves_mbind; [apply preserves_mapM; intros; apply IH|].
    intros pcs. apply preserves_mbind.
    { destruct indexType; [|auto with compile].
      apply preserves_mbind; [apply IH | auto with compile]. }
    intros ic. apply preserves_mbind; [apply preserves_pure | auto with compile].
  - (* TOptional *)
    apply preserves_mbind; [apply IH | auto with compile].
  - (* TParamList *)
    apply preserves_mbind; [apply preserves_mapM; intros; apply IH|].
    intros cs. apply preserves_mbind; [apply preserves_pure|].
    intros req. destruct strict; auto with compile.
Qed.

(** ** Compilation terminates *)

(** *** Checker calls never exhaust the budget of [getChecker] *)

Lemma bind_clean {A B : Type} (r : res A) (k : A -> res B) :
  r <> Err OutOfFuel -> (forall a, k a <> Err OutOfFuel) -> bind r k <> Err OutOfFuel.
Proof.
  intros Hr Hk. destruct r; simpl; [apply Hk|].
  intros H. injection H as ->. now apply Hr.
Qed.

Ltac clean_tac :=
  repeat first
    [ discriminate
    | progress intros
    | match goal with
      | |- Ok _ <> _ => discriminate
      | |- ret_fail _ _ _ _ _ <> _ => discriminate
      | |- bind _ _ <> _ => apply bind_clean
      | |- (let (_, _) := ?p in _) <> _ => destruct p
      | |- (let '(_, _) := ?p in _) <> _ => destruct p
      | |- (if ?b then _ else _) <> _ => destruct b
      | |- (match ?p with (_, _) => _ end) <> _ => destruct p
      end ].

Section CleanLoops.
Context {C U : Type} (ops : IContext C U).
Variable call : Chk -> CheckerFunc (C := C).
Hypothesis Hcall : forall c v ctx, call c v ctx <> Err OutOfFuel.

Lemma array_loop_clean c items i ctx :
  array_loop ops (call c) items i ctx <> Err OutOfFuel.
Proof.
  revert i ctx. induction items as [|x items IH]; intros i ctx; simpl; clean_tac; auto.
Qed.

Lemma tuple_loop_clean cs items i ctx :
  tuple_loop ops call cs items i ctx <> Err OutOfFuel.
Proof.
  revert i ctx. induction cs as [|c cs IH]; intros i ctx; simpl; clean_tac; auto.
Qed.

Lemma param_loop_clean cs items i ctx :
  param_loop ops call cs items i ctx <> Err OutOfFuel.
Proof.
  revert i ctx. induction cs as [|[[n c] r] cs IH]; intros i ctx; simpl; clean_tac; auto.
Qed.

Lemma union_loop_clean cs v ur :
  union_loop ops call cs v ur <> Err OutOfFuel.
Proof.
  revert ur. induction cs as [|c cs IH]; intros ur; simpl; clean_tac; auto.
Qed.

Lemma fork_loop_clean cs v ctx :
  fork_loop ops call cs v ctx <> Err OutOfFuel.
Proof.
  revert ctx. induction cs as [|c cs IH]; intros ctx; simpl; clean_tac; auto.
Qed.

Lemma prop_loop_clean isPartial ps v ctx :
  prop_loop ops call isPartial ps v ctx <> Err OutOfFuel.
Proof.
  revert ctx. induction ps as [|[[n c] r] ps IH]; intros ctx; simpl; clean_tac; auto.
Qed.

Lemma index_loop_clean c keys v ctx :
  index_loop ops (call c) keys v ctx <> Err OutOfFuel.
Proof.
  revert ctx. induction keys as [|k ks IH]; intros ctx; simpl; clean_tac; auto.
Qed.
End CleanLoops.

Lemma run_clean {C U : Type} (ops : IContext C U) f heap env c v ctx :
  run ops f heap env c v ctx <> Err OutOfFuel.
Proof.
  revert env c v ctx. induction f as [|f IH]; intros env c v ctx; [discriminate|].
  destruct c; simpl; clean_tac; auto.
  - destruct (cell env node); [apply IH | discriminate].
  - destruct v; clean_tac. apply array_loop_clean. auto.
  - destruct v; clean_tac; destruct start; clean_tac. apply array_loop_clean. auto.
  - destruct v; clean_tac. apply tuple_loop_clean. auto.
  - destruct v; clean_tac.
  - apply union_loop_clean. auto.
  - apply fork_loop_clean. auto.
  - apply fork_loop_clean. auto.
  - apply prop_loop_clean. auto.
  - destruct indexTypeChecker; clean_tac. apply index_loop_clean. auto.
  - destruct v; clean_tac. apply param_loop_clean. auto.
Qed.

Lemma probe_required_clean pf heap items testCtx :
  probe_required pf heap items testCtx <> Err OutOfFuel.
Proof.
  revert testCtx. induction items as [|[o c] items IH]; intros testCtx; simpl; clean_tac; auto.
  apply run_clean.
Qed.

(** *** A bound on the depth of [getChecker] calls *)

Lemma finishes_ret {A : Type} B (a : A) : finishes B (ret a).
Proof. intros s _. discriminate. Qed.

Lemma finishes_throw {A : Type} B msg : finishes B (throw (A := A) (Error msg)).
Proof. intros s _. discriminate. Qed.

Lemma finishes_getNamedType B suite name : finishes B (lift (getNamedType suite name)).
Proof.
  intros s _. unfold lift, getNamedType.
  destruct (assoc name suite); [discriminate|].
  destruct (is_member name Object_prototype); simpl; discriminate.
Qed.

Lemma finishes_throw_TypeError {A : Type} B msg : finishes B (throw (A := A) (TypeError msg)).
Proof. intros s _. discriminate. Qed.

Lemma finishes_getChecker_of B callee (getC : TType -> M Chk) t :
  (t <> NotAType -> finishes B (getC t)) -> finishes B (getChecker_of callee getC t).
Proof.
  intros H. destruct t; simpl; try (apply H; discriminate).
  apply finishes_throw_TypeError.
Qed.

Lemma finishes_pure {A : Type} B (g : CompileState -> res A) :
  (forall s, g s <> Err OutOfFuel) -> finishes B (fun s => (g s, s)).
Proof. intros Hg s _. apply Hg. Qed.

Lemma finishes_mbind {A B : Type} (bs : list nat) (m : M A) (k : A -> M B) :
  finishes bs m -> preserves m -> (forall a, finishes bs (k a)) -> finishes bs (mbind m k).
Proof.
  intros Hm Hp Hk s Hs. unfold mbind. specialize (Hm s Hs). specialize (Hp s).
  destruct (m s) as [[a|e] s1]; simpl in *.
  - apply Hk. congruence.
  - intros H. injection H as ->. now apply Hm.
Qed.

Lemma finishes_mapM {A B : Type} (bs : list nat) (f : A -> M B) (l : list A) :
  (forall a, In a l -> finishes bs (f a)) -> (forall a, preserves (f a)) ->
  finishes bs (mapM f l).
Proof.
  intros Hf Hp. induction l as [|a l IH]; simpl.
  - apply finishes_ret.
  - apply finishes_mbind; [apply Hf; now left | apply Hp |]. intros b.
    apply finishes_mbind.
    + apply IH. intros a' Ha'. apply Hf. now right.
    + apply preserves_mapM. exact Hp.
    + intros. apply finishes_ret.
Qed.

Lemma finishes_default_set B allowedProps : finishes B (default_set allowedProps).
Proof. destruct allowedProps; intros s _; discriminate. Qed.

Lemma finishes_add_all B a names : finishes B (add_all a names).
Proof. intros s _. discriminate. Qed.

#[local] Hint Resolve finishes_ret finishes_throw finishes_throw_TypeError
  finishes_getNamedType finishes_default_set finishes_add_all : compile.

Lemma remaining_cons_le U B node :
  remaining U (node :: B) <= remaining U B.
Proof.
  unfold remaining. induction U as [|n U IH]; simpl in *; [lia|].
  destruct (Nat.eqb n node); simpl; destruct (existsb (Nat.eqb n) B); simpl; lia.
Qed.

Lemma remaining_install U B node :
  In node U -> existsb (Nat.eqb node) B = false ->
  remaining U (node :: B) < remaining U B.
Proof.
  intros Hin Hnot. induction U as [|n U IH]; [destruct Hin|].
  destruct (Nat.eqb n node) eqn:En.
  - apply Nat.eqb_eq in En. subst n.
    pose proof (remaining_cons_le U B node) as Hle.
    unfold remaining in *. simpl. rewrite Nat.eqb_refl, Hnot. simpl in *. lia.
  - destruct Hin as [->|Hin]; [rewrite Nat.eqb_refl in En; discriminate|].
    specialize (IH Hin). unfold remaining in *. simpl in *. rewrite En. simpl.
    destruct (existsb (Nat.eqb n) B); simpl; lia.
Qed.

Lemma in_list_sum {A : Type} (f : A -> nat) (l : list A) a :
  In a l -> f a <= list_sum (map f l).
Proof.
  induction l as [|x l IH]; [intros []|]. simpl. intros [->|H]; [lia|].
  specialize (IH H). lia.
Qed.

Lemma assoc_In {A : Type} k (l : list (string * A)) a :
  assoc k l = Some a -> In (k, a) l.
Proof.
  induction l as [|[k' a'] l IH]; simpl; [discriminate|].
  destruct (String.eqb k k') eqn:E.
  - apply String.eqb_eq in E. subst k'. intros [= ->]. now left.
  - intros H. right. now apply IH.
Qed.

Lemma in_flat_map_incl {A B : Type} (f : A -> list B) (l : list A) a :
  In a l -> incl (f a) (flat_map f l).
Proof. intros Ha b Hb. apply in_flat_map. now exists a. Qed.

Section Termination.
Variables (rank : string -> nat) (suite : ITypeSuite) (U : list nat) (pf : nat).
Hypothesis Hacyc : acyclic_refs rank suite.
Hypothesis HU : forall n t, In (n, t) suite -> incl (names_of t) U.

Lemma suite_entry n t :
  assoc n suite = Some t ->
  size t < max_size suite /\ rank n < max_rank rank suite
  /\ incl (names_of t) U
  /\ (forall b, In b (direct_refs t) -> rank b < rank n).
Proof.
  intros H. apply assoc_In in H. repeat apply conj.
  - unfold max_size.
    pose proof (in_list_sum (fun entry => size (snd entry)) suite (n, t) H). simpl in *. lia.
  - unfold max_rank.
    pose proof (in_list_sum (fun entry => rank (fst entry)) suite (n, t) H). simpl in *. lia.
  - eapply HU; eauto.
  - unfold acyclic_refs in Hacyc. rewrite Forall_forall in Hacyc.
    specialize (Hacyc _ H). simpl in Hacyc. now rewrite Forall_forall in Hacyc.
Qed.

Lemma assoc_key {A : Type} k (l : list (string * A)) a :
  assoc k l = Some a -> In k (map fst l).
Proof. intros H. apply assoc_In in H. apply in_map_iff. now exists (k, a). Qed.

Ltac sub_incl :=
  let n := fresh "n" in let Hn := fresh "Hn" in
  intros n Hn; simpl; rewrite ?in_app_iff, ?in_flat_map; eauto 8.

Lemma enough_child k r sz sz' f :
  sz' < sz -> enough rank suite k r sz <= S f -> enough rank suite k r sz' <= f.
Proof. unfold enough. lia. Qed.

Lemma enough_name k k' r r' sz sz' f :
  k' < k -> r' < max_rank rank suite -> sz' < max_size suite -> 1 <= sz ->
  enough rank suite k r sz <= S f -> enough rank suite k' r' sz' <= f.
Proof.
  unfold enough. intros Hk Hr Hs Hsz He.
  set (M := max_size suite) in *. set (R := max_rank rank suite) in *.
  assert (H1 : r' * M <= R * M) by (apply Nat.mul_le_mono_r; lia).
  assert (H2 : k' * (R * M + M) + (R * M + M) <= k * (R * M + M)).
  { replace (k' * (R * M + M) + (R * M + M)) with (S k' * (R * M + M)) by lia.
    apply Nat.mul_le_mono_r. lia. }
  lia.
Qed.

Lemma enough_ref k r r' sz sz' f :
  r' < r -> sz' < max_size suite -> 1 <= sz ->
  enough rank suite k r sz <= S f -> enough rank suite k r' sz' <= f.
Proof.
  unfold enough. intros Hr Hs Hsz He.
  set (M := max_size suite) in *.
  assert (H1 : r' * M + M <= r * M).
  { replace (r' * M + M) with (S r' * M) by lia. apply Nat.mul_le_mono_r. lia. }
  lia.
Qed.

Lemma size_pos t : 1 <= size t.
Proof. destruct t; simpl; try lia. destruct typeSpec; lia. Qed.

Lemma getChecker_finishes fuel :
  forall t r strict isPartial allowedProps B,
    incl (names_of t) U ->
    (forall b, In b (direct_refs t) -> In b (map fst suite) -> rank b < r) ->
    r <= max_rank rank suite ->
    enough rank suite (remaining U B) r (size t) <= fuel ->
    finishes B (getChecker fuel pf suite strict isPartial allowedProps t).
Proof.
  induction fuel as [|f IH]; intros t r strict isPartial allowedProps B Hn Hr HR He.
  { unfold enough in He. lia. }
  assert (Hchild : forall t' st ip ap,
             incl (names_of t') (names_of t) -> incl (direct_refs t') (direct_refs t) ->
             size t' < size t ->
             finishes B (getChecker f pf suite st ip ap t')).
  { intros t' st ip ap H1 H2 H3. apply (IH t' r).
    - eapply incl_tran; eauto.
    - intros b Hb. apply Hr. now apply H2.
    - exact HR.
    - eapply enough_child; eauto. }
  assert (Hrefd : forall b st ip ap,
             In b (direct_refs t) ->
             finishes B (base <- lift (getNamedType suite b) ;;
                         getChecker_of "getNamedType(...)"
                           (getChecker f pf suite st ip ap) base)).
  { intros b st ip ap Hb s Hs. unfold mbind, lift, getNamedType.
    destruct (assoc b suite) as [target|] eqn:Ea;
      [|destruct (is_member b Object_prototype); discriminate].
    destruct (suite_entry _ _ Ea) as (Hsz & Hrk & Hin & Hrefs).
    assert (Hfin : finishes B (getChecker_of "getNamedType(...)"
                                 (getChecker f pf suite st ip ap) target)).
    { apply finishes_getChecker_of. intros _.
      apply (IH target (rank b)); try assumption.
      - intros b' Hb' _. now apply Hrefs.
      - lia.
      - apply (enough_ref (remaining U B) r (rank b) (size t) (size target) f).
        + apply Hr; [exact Hb | eapply assoc_key; eauto].
        + exact Hsz.
        + apply size_pos.
        + exact He. }
    exact (Hfin s Hs). }
  destruct t; simpl; auto with compile.
  - (* TName *)
    intros s Hs. destruct (slot_set node s) eqn:Eslot; [discriminate|].
    unfold finally, mbind, lift, getNamedType.
    destruct (assoc name suite) as [target|] eqn:Ea.
    2:{ destruct (is_member name Object_prototype); [|discriminate].
        destruct f as [|f']; [unfold enough in He; simpl in He; lia|]. discriminate. }
    destruct (suite_entry _ _ Ea) as (Hsz & Hrk & Hin & Hrefs).
    assert (Hfin : finishes (node :: B)
                     (getChecker f pf suite strict isPartial allowedProps target)).
    { apply (IH target (rank name)); try assumption.
      - intros b' Hb' _. now apply Hrefs.
      - lia.
      - apply (enough_name (remaining U B) (remaining U (node :: B)) r (rank name)
                 (size (TName node name)) (size target) f).
        + apply remaining_install; [apply Hn; now left|].
          rewrite <- Hs. exact Eslot.
        + exact Hrk.
        + exact Hsz.
        + simpl. lia.
        + exact He. }
    specialize (Hfin (install node s)). simpl in Hfin. rewrite Hs in Hfin.
    specialize (Hfin eq_refl).
    destruct (getChecker f pf suite strict isPartial allowedProps target (install node s))
      as [[c|e] s1]; simpl in *.
    + destruct (is_Basic_or_Name target); discriminate.
    + exact Hfin.
  - (* TArray *)
    apply finishes_mbind; [| apply getChecker_preserves | auto with compile].
    apply Hchild; [apply incl_refl | apply incl_refl | simpl; lia].
  - (* RestType *)
    destruct typeSpec as [ttype|name]; intros s Hs.
    + unfold mbind at 1. simpl.
      destruct ttype as [| | |elt| | | | | | | | | | | |]; try discriminate.
      assert (Hfin : finishes B (getChecker f pf suite strict false None elt))
        by (apply Hchild; [apply incl_refl | apply incl_refl | simpl; lia]).
      refine (finishes_mbind B _ _ Hfin _ _ s Hs);
        [apply getChecker_preserves | auto with compile].
    + unfold mbind at 1. unfold lift, getNamedType.
      destruct (assoc name suite) as [target|] eqn:Ea;
        [|destruct (is_member name Object_prototype); discriminate].
      destruct (suite_entry _ _ Ea) as (Hsz & Hrk & Hin & Hrefs).
      destruct target as [| | |elt| | | | | | | | | | | |]; try discriminate.
      assert (Hfin : finishes B (getChecker f pf suite strict false None elt)).
      { apply (IH elt (rank name)); try assumption.
        * intros b' Hb' _. now apply Hrefs.
        * lia.
        * apply (enough_ref (remaining U B) r (rank name)
                   (size (RestType (inr name) _start)) (size elt) f).
          -- apply Hr; [now left | eapply assoc_key; eauto].
          -- simpl in Hsz. lia.
          -- simpl. lia.
          -- exact He. }
      refine (finishes_mbind B _ _ Hfin _ _ s Hs);
        [apply getChecker_preserves | auto with compile].
  - (* TTuple *)
    apply finishes_mbind.
    + apply finishes_mapM; [|intros; apply getChecker_preserves].
      intros a Ha. apply Hchild; [sub_incl | sub_incl |].
      pose proof (in_list_sum size ttypes a Ha). simpl. lia.
    + apply preserves_mapM. intros. apply getChecker_preserves.
    + intros cs. destruct _restType as [r0|].
      * apply finishes_mbind; [| apply getChecker_preserves | auto with compile].
        apply Hchild; [sub_incl | sub_incl | simpl; lia].
      * destruct strict; auto with compile.
  - (* TUnion *)
    apply finishes_mbind; [| apply preserves_mapM; intros; apply getChecker_preserves
                           | auto with compile].
    apply finishes_mapM; [|intros; apply getChecker_preserves].
    intros a Ha. apply Hchild; [sub_incl | sub_incl |].
    pose proof (in_list_sum size ttypes a Ha). simpl. lia.
  - (* TIntersection *)
    apply finishes_mbind; [auto with compile | apply preserves_default_set |]. intros a0.
    apply finishes_mbind; [| apply preserves_mapM; intros; apply getChecker_preserves
                           | auto with compile].
    apply finishes_mapM; [|intros; apply getChecker_preserves].
    intros a Ha. apply Hchild; [sub_incl | sub_incl |].
    pose proof (in_list_sum size ttypes a Ha). simpl. lia.
  - (* TPartial *)
    apply finishes_mbind; [| apply getChecker_preserves | auto with compile].
    apply Hchild; [apply incl_refl | apply incl_refl | simpl; lia].
  - (* TEnumLiteral *)
    apply finishes_mbind; [auto with compile | apply preserves_lift |]. intros ttype.
    destruct ttype; auto with compile.
    destruct (assoc "hasOwnProperty" members); auto with compile.
    destruct (assoc prop members); auto with compile.
  - (* TIface *)
    apply finishes_mbind; [auto with compile | apply preserves_default_set |]. intros a0.
    apply finishes_mbind; [auto with compile | apply preserves_add_all |]. intros _.
    apply finishes_mbind.
    { apply finishes_mapM.
      - intros b Hb. apply Hrefd. simpl. apply in_or_app. now left.
      - intros b. apply preserves_mbind; [apply preserves_lift|].
        intros. apply preserves_getChecker_of. intros. apply getChecker_preserves. }
    { apply preserves_mapM. intros b. apply preserves_mbind; [apply preserves_lift|].
      intros. apply preserves_getChecker_of. intros. apply getChecker_preserves. }
    intros bcs. apply finishes_mbind.
    { apply finishes_mapM; [|intros; apply getChecker_preserves].
      intros [pn pt po] Ha. simpl. apply Hchild; [sub_incl | sub_incl |].
      pose proof (in_list_sum (fun p => let 'mkTProp _ ttype _ := p in size ttype)
                    props _ Ha). simpl in *. lia. }
    { apply preserves_mapM. intros. apply getChecker_preserves. }
    intros pcs. apply finishes_mbind.
    { destruct indexType as [it|]; [|auto with compile].
      apply finishes_mbind; [| apply getChecker_preserves | auto with compile].
      apply Hchild; [sub_incl | sub_incl | simpl; lia]. }
    { destruct indexType; [|auto with compile].
      apply preserves_mbind; [apply getChecker_preserves | auto with compile]. }
    intros ic. apply finishes_mbind; [| apply preserves_pure | auto with compile].
    apply finishes_pure. intros. apply probe_required_clean.
  - (* TOptional *)
    apply finishes_mbind; [| apply getChecker_preserves | auto with compile].
    apply Hchild; [apply incl_refl | apply incl_refl | simpl; lia].
  - (* TParamList *)
    apply finishes_mbind.
    { apply finishes_mapM; [|intros; apply getChecker_preserves].
      intros [pn pt po] Ha. simpl. apply Hchild; [sub_incl | sub_incl |].
      pose proof (in_list_sum (fun p => let 'mkTParam _ ttype _ := p in size ttype)
                    params _ Ha). simpl in *. lia. }
    { apply preserves_mapM. intros. apply getChecker_preserves. }
    intros cs. apply finishes_mbind; [| apply preserves_pure |].
    + apply finishes_pure. intros. apply probe_required_clean.
    + intros req. destruct strict; auto with compile.
Qed.
End Termination.

Lemma remaining_le U B : remaining U B <= List.length U.
Proof. unfold remaining. apply filter_length_le. Qed.

Lemma enough_mono rank suite k k' r sz :
  k <= k' -> enough rank suite k r sz <= enough rank suite k' r sz.
Proof.
  unfold enough. intros H.
  assert (k * (max_rank rank suite * max_size suite + max_size suite)
          <= k' * (max_rank rank suite * max_size suite + max_size suite))
    by (apply Nat.mul_le_mono_r; exact H).
  lia.
Qed.

Lemma key_rank_bound rank (suite : ITypeSuite) b :
  In b (map fst suite) -> rank b < max_rank rank suite.
Proof.
  intros H. apply in_map_iff in H as ([n t] & <- & Hin). unfold max_rank.
  pose proof (in_list_sum (fun entry => rank (fst entry)) suite (n, t) Hin). simpl in *. lia.
Qed.



(** The sixth scenario of the spec: the recursive [Tree] compiles and its
    checker follows the recursion of the value. *)
Example tree_compiles_and_checks :
  new_Checker 10 10 treeSuite Tree "value" = Ok treeChecker
  /\ test 12 treeChecker
       (VObject [("value", VNumber 1);
                 ("children", VArray [VObject [("value", VNumber 2);
                                               ("children", VArray [])]])])
     = Ok true
  /\ validate 12 treeChecker
       (VObject [("value", VNumber 1);
                 ("children", VArray [VObject [("value", VString "x");
                                               ("children", VArray [])]])])
     = Ok (Some [ {| path := "value.children[0].value"; message := "is not a number" |} ]).
Proof. repeat apply conj; reflexivity. Qed.

(** ** A misplaced rest: strict against plain mode, order of alternatives *)

(** C2. On a type with a [rest] before the last position of a tuple, which
    neither the constructors nor compilation reject, the strict checker
    accepts a value on which the plain checker throws.  For
    [union(array(tuple(rest(array("any")), "any")), "any")] and
    [[[[], 1, 5], []]]: in strict mode the first element has an entry too
    many, the array alternative fails there and "any" accepts; in plain
    mode the first element passes and the second, the empty array, makes
    the checker of the [rest] read [length] of undefined. *)
Theorem strict_accepts_where_plain_throws :
  exists this,
    new_Checker 10 10 (fullSuite []) tuplesOrAny "value" = Ok this
    /\ strictTest 10 this longThenEmpty = Ok true
    /\ test 10 this longThenEmpty
       = Err (TypeError "Cannot read properties of undefined (reading 'length')")
    /\ validate 10 this longThenEmpty
       = Err (TypeError "Cannot read properties of undefined (reading 'length')")
    /\ strictValidate 10 this longThenEmpty = Ok None.
Proof.
  eexists. split; [vm_compute; reflexivity|]. repeat split; reflexivity.
Qed.

(** C9. On the same misplaced [rest], the order of the alternatives of a
    union decides between true and a throw: on the empty array
    [union("any", tuple(rest(array("any")), "any"))] returns true, "any"
    accepts first, and [union(tuple(rest(array("any")), "any"), "any")]
    throws from the checker of the [rest] before "any" is tried. *)
Theorem union_order_decides_throw :
  exists anyFirst tupleFirst,
    new_Checker 10 10 (fullSuite []) anyOrTuple "value" = Ok anyFirst
    /\ new_Checker 10 10 (fullSuite []) tupleOrAny "value" = Ok tupleFirst
    /\ test 10 anyFirst (VArray []) = Ok true
    /\ test 10 tupleFirst (VArray [])
       = Err (TypeError "Cannot read properties of undefined (reading 'length')")
    /\ strictTest 10 anyFirst (VArray []) = Ok true
    /\ strictTest 10 tupleFirst (VArray [])
       = Err (TypeError "Cannot read properties of undefined (reading 'length')").
Proof.
  do 2 eexists.
  split; [vm_compute; reflexivity|]. split; [vm_compute; reflexivity|].
  repeat split; reflexivity.
Qed.

(** * Further properties of the checkers and of the facade *)

(** ** The facade: [check], [validate] and [test] *)

Lemma doCheck_ok_iff fuel this checkerFunc v :
  _doCheck fuel this checkerFunc v = Ok tt
  <-> exists ctx, apply fuel NoopContext checkerFunc v newNoop = Ok (true, ctx).
Proof.
  unfold _doCheck. split.
  - destruct (apply fuel NoopContext checkerFunc v newNoop) as [[[|] ctx]|e]; simpl.
    + intros _. now exists ctx.
    + destruct (apply fuel DetailOps checkerFunc v detail_empty) as [[b d]|e]; discriminate.
    + discriminate.
  - intros [ctx ->]. reflexivity.
Qed.

Lemma doValidate_null_iff fuel this checkerFunc v :
  _doValidate fuel this checkerFunc v = Ok None
  <-> exists ctx, apply fuel NoopContext checkerFunc v newNoop = Ok (true, ctx).
Proof.
  unfold _doValidate. split.
  - destruct (apply fuel NoopContext checkerFunc v newNoop) as [[[|] ctx]|e]; simpl.
    + intros _. now exists ctx.
    + destruct (apply fuel DetailOps checkerFunc v detail_empty) as [[b d]|e]; discriminate.
    + discriminate.
  - intros [ctx ->]. reflexivity.
Qed.

Lemma noop_true_iff_test fuel checkerFunc v :
  (exists ctx, apply fuel NoopContext checkerFunc v newNoop = Ok (true, ctx))
  <-> (let* (ok, _) := apply fuel NoopContext checkerFunc v newNoop in Ok ok) = Ok true.
Proof.
  split.
  - intros [ctx ->]. reflexivity.
  - destruct (apply fuel NoopContext checkerFunc v newNoop) as [[ok ctx]|e]; simpl;
      [|discriminate].
    intros H. injection H as ->. now exists ctx.
Qed.

(** X1. [check] returns without throwing exactly when [test] returns true,
    and [validate] returns null exactly when [test] returns true; the same
    holds of [strictCheck], [strictValidate] and [strictTest].  So a value
    that [test] rejects makes [check] throw and [validate] return a list. *)
Theorem check_and_validate_follow_test (fuel : nat) (this : Checker) (v : value) :
  (check fuel this v = Ok tt <-> test fuel this v = Ok true)
  /\ (validate fuel this v = Ok None <-> test fuel this v = Ok true)
  /\ (strictCheck fuel this v = Ok tt <-> strictTest fuel this v = Ok true)
  /\ (strictValidate fuel this v = Ok None <-> strictTest fuel this v = Ok true).
Proof.
  unfold check, validate, test, strictCheck, strictValidate, strictTest.
  split; [|split; [|split]].
  - rewrite doCheck_ok_iff. apply noop_true_iff_test.
  - rewrite doValidate_null_iff. apply noop_true_iff_test.
  - rewrite doCheck_ok_iff. apply noop_true_iff_test.
  - rewrite doValidate_null_iff. apply noop_true_iff_test.
Qed.

(** ** Checkers do not depend on the kind of context *)

Lemma NoopContext_fresh : FreshLaws NoopContext.
Proof. split; reflexivity. Qed.

Lemma DetailOps_fresh : FreshLaws DetailOps.
Proof. split; reflexivity. Qed.

Section Agreement.
Context {C U : Type} (ops : IContext C U).
Hypothesis laws : ForkLaws ops.
Hypothesis fresh : FreshLaws ops.

Lemma agree_bind (r1 : res (bool * bool)) (r2 : res (bool * C)) k1 k2 :
  agree ops r1 r2 ->
  (forall b n c, n = failed ops c -> agree ops (k1 (b, n)) (k2 (b, c))) ->
  agree ops (bind r1 k1) (bind r2 k2).
Proof.
  destruct r1 as [[b1 n]|e1], r2 as [[b2 c]|e2]; simpl; try tauto.
  intros [<- Hn] Hk. now apply Hk.
Qed.

Lemma agree_fail n ctx k m score :
  agree ops (ret_fail NoopContext n k m score) (ret_fail ops ctx k m score).
Proof. simpl. split; [reflexivity|]. symmetry. apply (failed_fail ops laws). Qed.

Lemma agree_ok b n ctx : n = failed ops ctx -> agree ops (Ok (b, n)) (Ok (b, ctx)).
Proof. intros H. simpl. auto. Qed.

Lemma agree_completeFork n ctx nc child :
  n = failed ops ctx -> nc = failed ops child ->
  completeFork NoopContext n nc = (true, n || nc)
  /\ exists ctx1, completeFork ops ctx child = (true, ctx1)
                  /\ n || nc = failed ops ctx1.
Proof.
  intros -> ->. split; [reflexivity|].
  pose proof (completeFork_continues ops laws ctx child) as Hgo.
  pose proof (failed_completeFork ops laws ctx child) as Hf.
  destruct (completeFork ops ctx child) as [go ctx1]. simpl in *. subst go.
  exists ctx1. split; [reflexivity | now symmetry].
Qed.

Variable callN : Chk -> CheckerFunc (C := bool).
Variable callO : Chk -> CheckerFunc (C := C).
Hypothesis Hcall : forall c v n ctx,
  n = failed ops ctx -> agree ops (callN c v n) (callO c v ctx).

Lemma agree_array_loop c items i n ctx :
  n = failed ops ctx ->
  agree ops (array_loop NoopContext (callN c) items i n)
            (array_loop ops (callO c) items i ctx).
Proof.
  revert i n ctx. induction items as [|x items IH]; intros i n ctx Hn; simpl.
  - now apply agree_ok.
  - apply agree_bind; [now apply Hcall|]. intros b n1 c1 H1.
    destruct b; [now apply IH | apply agree_fail].
Qed.

Lemma agree_tuple_loop cs items i n ctx :
  n = failed ops ctx ->
  agree ops (tuple_loop NoopContext callN cs items i n)
            (tuple_loop ops callO cs items i ctx).
Proof.
  revert i n ctx. induction cs as [|c cs IH]; intros i n ctx Hn; simpl.
  - now apply agree_ok.
  - apply agree_bind; [now apply Hcall|]. intros b n1 c1 H1.
    destruct b; [now apply IH | apply agree_fail].
Qed.

Lemma agree_param_loop cs items i n ctx :
  n = failed ops ctx ->
  agree ops (param_loop NoopContext callN cs items i n)
            (param_loop ops callO cs items i ctx).
Proof.
  revert i n ctx. induction cs as [|[[pn c] r] cs IH]; intros i n ctx Hn; simpl.
  - now apply agree_ok.
  - destruct (is_undefined (get_index items i)).
    + destruct r; [apply agree_fail | now apply IH].
    + apply agree_bind; [now apply Hcall|]. intros b n1 c1 H1.
      destruct b; [now apply IH | apply agree_fail].
Qed.

(** The outcome of the loop over the alternatives of a union. *)
Lemma agree_union_loop cs v (urN : unit) (urO : U) :
  match union_loop NoopContext callN cs v urN, union_loop ops callO cs v urO with
  | Ok (b1, _), Ok (b2, _) => b1 = b2
  | Err e1, Err e2 => e1 = e2
  | _, _ => False
  end.
Proof.
  revert urN urO. induction cs as [|c cs IH]; intros urN urO; simpl; [reflexivity|].
  pose proof (Hcall c v false (createContext ops urO)) as H.
  rewrite (failed_createContext ops fresh) in H. specialize (H eq_refl).
  destruct (callN c v false) as [[b1 n1]|e1], (callO c v (createContext ops urO))
    as [[b2 c2]|e2]; simpl in *; try tauto.
  destruct H as [<- _]. destruct b1; [reflexivity | apply IH].
Qed.

Lemma agree_fork_loop cs v n ctx :
  n = failed ops ctx ->
  agree ops (fork_loop NoopContext callN cs v n) (fork_loop ops callO cs v ctx).
Proof.
  revert n ctx. induction cs as [|c cs IH]; intros n ctx Hn; simpl.
  - now apply agree_ok.
  - pose proof (Hcall c v false (fork ops ctx)) as H.
    rewrite (failed_fork ops fresh) in H. specialize (H eq_refl).
    destruct (callN c v false) as [[b1 n1]|e1], (callO c v (fork ops ctx))
      as [[b2 c2]|e2]; simpl in *; try tauto.
    destruct H as [_ H].
    destruct (agree_completeFork n ctx n1 c2 Hn H) as [_ (ctx1 & -> & H1)].
    now apply IH.
Qed.

Lemma agree_prop_step isPartial p v n ctx :
  n = failed ops ctx ->
  agree ops (prop_step NoopContext callN isPartial p v n)
            (prop_step ops callO isPartial p v ctx).
Proof.
  intros Hn. destruct p as [[name c] r]. unfold prop_step.
  destruct (is_undefined (get_prop v name)).
  - destruct (r && negb isPartial); [|now apply agree_ok].
    destruct (agree_completeFork n ctx true
                (fail ops (fork ops ctx) (KName name) (Some "is missing") 1) Hn)
      as [_ (ctx1 & -> & H1)].
    { symmetry. apply (failed_fail ops laws). }
    simpl. split; [reflexivity | exact H1].
  - change (fork NoopContext n) with false.
    pose proof (Hcall c (get_prop v name) false (fork ops ctx)) as H.
    rewrite (failed_fork ops fresh) in H. specialize (H eq_refl).
    destruct (callN c (get_prop v name) false) as [[b1 n1]|e1],
             (callO c (get_prop v name) (fork ops ctx)) as [[b2 c2]|e2];
      simpl in *; try tauto.
    destruct H as [<- H].
    destruct b1.
    + destruct (agree_completeFork n ctx n1 c2 Hn H) as [_ (ctx1 & -> & H1)].
      split; [reflexivity | exact H1].
    + destruct (agree_completeFork n ctx true (fail ops c2 (KName name) None 1) Hn)
        as [_ (ctx1 & -> & H1)].
      { symmetry. apply (failed_fail ops laws). }
      split; [reflexivity | exact H1].
Qed.

Lemma agree_prop_loop isPartial ps v n ctx :
  n = failed ops ctx ->
  agree ops (prop_loop NoopContext callN isPartial ps v n)
            (prop_loop ops callO isPartial ps v ctx).
Proof.
  revert n ctx. induction ps as [|p ps IH]; intros n ctx Hn; simpl.
  - now apply agree_ok.
  - apply agree_bind; [now apply agree_prop_step|]. intros b n1 c1 H1.
    destruct b; [now apply IH | now apply agree_ok].
Qed.

Lemma agree_index_loop c keys v n ctx :
  n = failed ops ctx ->
  agree ops (index_loop NoopContext (callN c) keys v n)
            (index_loop ops (callO c) keys v ctx).
Proof.
  revert n ctx. induction keys as [|k ks IH]; intros n ctx Hn; simpl.
  - now apply agree_ok.
  - pose proof (Hcall c (get_prop v k) false (fork ops ctx)) as H.
    rewrite (failed_fork ops fresh) in H. specialize (H eq_refl).
    destruct (callN c (get_prop v k) false) as [[b1 n1]|e1],
             (callO c (get_prop v k) (fork ops ctx)) as [[b2 c2]|e2];
      simpl in *; try tauto.
    destruct H as [<- H]. destruct b1.
    + destruct (agree_completeFork n ctx n1 c2 Hn H) as [_ (ctx1 & -> & H1)].
      now apply IH.
    + destruct (agree_completeFork n ctx true (fail ops c2 (KName k) None 1) Hn)
        as [_ (ctx1 & -> & H1)].
      { symmetry. apply (failed_fail ops laws). }
      now apply IH.
Qed.

Lemma agree_extraneous_loop allowed keys n ctx :
  n = failed ops ctx ->
  fst (extraneous_loop NoopContext allowed keys n)
  = fst (extraneous_loop ops allowed keys ctx)
  /\ snd (extraneous_loop NoopContext allowed keys n)
     = failed ops (snd (extraneous_loop ops allowed keys ctx)).
Proof.
  revert n ctx. induction keys as [|k ks IH]; intros n ctx Hn; simpl; [auto|].
  destruct (set_has allowed k); [now apply IH|].
  destruct (agree_completeFork n ctx true
              (fail ops (fork ops ctx) (KName k) (Some "is extraneous") 2) Hn)
    as [_ (ctx1 & -> & H1)].
  { symmetry. apply (failed_fail ops laws). }
  now apply IH.
Qed.
End Agreement.

Section AgreementRun.
Context {C U : Type} (ops : IContext C U).
Hypothesis laws : ForkLaws ops.
Hypothesis fresh : FreshLaws ops.

Lemma run_agrees f heap env c v n ctx :
  n = failed ops ctx ->
  agree ops (run NoopContext f heap env c v n) (run ops f heap env c v ctx).
Proof.
  revert env c v n ctx. induction f as [|f IH]; intros env c v n ctx Hn; [reflexivity|].
  assert (Hcall : forall c v n ctx, n = failed ops ctx ->
             agree ops (run NoopContext f heap env c v n) (run ops f heap env c v ctx))
    by (intros; now apply IH).
  destruct c; simpl.
  - destruct (validator v); [now apply agree_ok | now apply agree_fail].
  - destruct (cell env node); [now apply IH | reflexivity].
  - now apply IH.
  - apply agree_bind; [now apply IH|]. intros b nx cx Hx.
    destruct b; [now apply agree_ok | now apply agree_fail].
  - destruct (strict_eq v lit_value); [now apply agree_ok | now apply agree_fail].
  - destruct v; try (now apply agree_fail). now apply agree_array_loop.
  - destruct v; try reflexivity; destruct start; try reflexivity;
      try (now apply agree_ok). now apply agree_array_loop.
  - destruct v; try (now apply agree_fail). now apply agree_tuple_loop.
  - apply agree_bind; [now apply IH|]. intros b nx cx Hx.
    destruct b; [now apply IH | now apply agree_ok].
  - apply agree_bind; [now apply IH|]. intros b nx cx Hx.
    destruct b; [|now apply agree_ok].
    destruct v; try reflexivity.
    destruct (Nat.leb _ n0); [now apply agree_ok | now apply agree_fail].
  - pose proof (agree_union_loop ops fresh _ _ Hcall itemCheckers v tt
                  (unionResolver ops ctx)) as H.
    change (unionResolver NoopContext n) with tt.
    destruct (union_loop NoopContext _ itemCheckers v tt) as [[b1 u1]|e1],
             (union_loop ops _ itemCheckers v (unionResolver ops ctx)) as [[b2 u2]|e2];
      simpl in *; try tauto.
    subst b2. destruct b1; simpl; (split; [reflexivity|]); [exact Hn|].
    symmetry. apply (failed_fail ops laws).
  - apply agree_bind; [now apply agree_fork_loop|]. intros b nx cx Hx.
    simpl. split; [|exact Hx]. now rewrite Hx.
  - destruct (is_undefined v); [now apply agree_ok | now apply IH].
  - destruct (is_undefined v); [now apply agree_ok | now apply IH].
  - destruct (existsb _ validValues); [now apply agree_ok | now apply agree_fail].
  - destruct (strict_eq v val); [now apply agree_ok | now apply agree_fail].
  - destruct (is_object v); cbn [negb]; [|now apply agree_fail].
    apply agree_bind; [now apply agree_fork_loop|]. intros g1 nx1 cx1 Hx1.
    destruct g1; cbn [negb]; [|now apply agree_ok].
    apply agree_bind; [now apply agree_prop_loop|]. intros g2 nx2 cx2 Hx2.
    destruct g2; cbn [negb]; [|now apply agree_ok].
    apply agree_bind.
    + destruct indexTypeChecker as [ic|].
      * now apply agree_index_loop.
      * destruct strict; [|now apply agree_ok].
        destruct (agree_extraneous_loop ops laws (heap_get heap allowedProps)
                    (for_in_keys v) nx2 cx2 Hx2) as [Hg Hc].
        destruct (extraneous_loop NoopContext _ (for_in_keys v) nx2) as [g3 n3],
                 (extraneous_loop ops _ (for_in_keys v) cx2) as [g3' c3].
        simpl in *. subst g3'. auto.
    + intros g3 nx3 cx3 Hx3. destruct g3; cbn [negb]; [|now apply agree_ok].
      split; [now rewrite Hx3 | exact Hx3].
  - destruct (is_function v); [now apply agree_ok | now apply agree_fail].
  - destruct v; try (now apply agree_fail). now apply agree_param_loop.
Qed.
End AgreementRun.

(** ** A checker returns false only after recording a failure *)

Section FalseFailed.
Variable call : Chk -> CheckerFunc (C := bool).

Lemma noop_array_loop_false c items i ctx ctx' :
  array_loop NoopContext (call c) items i ctx = Ok (false, ctx') -> ctx' = true.
Proof.
  revert i ctx. induction items as [|x items IH]; intros i ctx; simpl; [discriminate|].
  destruct (call c x ctx) as [[ok c1]|e]; simpl; [|discriminate].
  destruct ok; [apply IH|]. intros H. now injection H as <-.
Qed.

Lemma noop_tuple_loop_false cs items i ctx ctx' :
  tuple_loop NoopContext call cs items i ctx = Ok (false, ctx') -> ctx' = true.
Proof.
  revert i ctx. induction cs as [|c cs IH]; intros i ctx; simpl; [discriminate|].
  destruct (call c (get_index items i) ctx) as [[ok c1]|e]; simpl; [|discriminate].
  destruct ok; [apply IH|]. intros H. now injection H as <-.
Qed.

Lemma noop_param_loop_false cs items i ctx ctx' :
  param_loop NoopContext call cs items i ctx = Ok (false, ctx') -> ctx' = true.
Proof.
  revert i ctx. induction cs as [|[[n c] r] cs IH]; intros i ctx; simpl; [discriminate|].
  destruct (is_undefined (get_index items i)).
  - destruct r; [|apply IH]. intros H. now injection H as <-.
  - destruct (call c (get_index items i) ctx) as [[ok c1]|e]; simpl; [|discriminate].
    destruct ok; [apply IH|]. intros H. now injection H as <-.
Qed.
End FalseFailed.

Lemma noop_false_failed f heap env c v ctx ctx' :
  run NoopContext f heap env c v ctx = Ok (false, ctx') -> ctx' = true.
Proof.
  revert env c v ctx ctx'. induction f as [|f IH]; intros env c v ctx ctx'; [discriminate|].
  pose proof (fork_loop_go NoopContext NoopContext_laws) as Hfork.
  pose proof (prop_loop_go NoopContext NoopContext_laws) as Hprop.
  pose proof (index_loop_go NoopContext NoopContext_laws) as Hindex.
  pose proof (extraneous_loop_go NoopContext NoopContext_laws) as Hextra.
  destruct c; simpl.
  - destruct (validator v); [discriminate|]. intros H. now injection H as <-.
  - destruct (cell env node); [apply IH | discriminate].
  - apply IH.
  - destruct (run NoopContext f heap env c v ctx) as [[ok cx]|e]; simpl; [|discriminate].
    destruct ok; [discriminate|]. intros H. now injection H as <-.
  - destruct (strict_eq v lit_value); [discriminate|]. intros H. now injection H as <-.
  - destruct v; try (intros H; now injection H as <-). apply noop_array_loop_false.
  - destruct v; try discriminate; destruct start; try discriminate.
    apply noop_array_loop_false.
  - destruct v; try (intros H; now injection H as <-). apply noop_tuple_loop_false.
  - destruct (run NoopContext f heap env c1 v ctx) as [[ok cx]|e] eqn:E; simpl;
      [|discriminate].
    destruct ok; [apply IH|]. intros H. injection H as <-. eapply IH; eauto.
  - destruct (run NoopContext f heap env c v ctx) as [[ok cx]|e] eqn:E; simpl;
      [|discriminate].
    destruct ok.
    + destruct v; try discriminate.
      destruct (Nat.leb _ n); [discriminate|]. intros H. now injection H as <-.
    + intros H. injection H as <-. eapply IH; eauto.
  - destruct (union_loop NoopContext _ itemCheckers v _) as [[ok ur]|e]; simpl;
      [|discriminate].
    destruct ok; [discriminate|]. intros H. now injection H as <-.
  - destruct (fork_loop NoopContext _ itemCheckers v ctx) as [[all cx]|e] eqn:E; simpl;
      [|discriminate].
    apply Hfork in E as ->. simpl. intros H. injection H as H <-. now destruct cx.
  - destruct (is_undefined v); [discriminate | apply IH].
  - destruct (is_undefined v); [discriminate | apply IH].
  - destruct (existsb _ validValues); [discriminate|]. intros H. now injection H as <-.
  - destruct (strict_eq v val); [discriminate|]. intros H. now injection H as <-.
  - destruct (is_object v); cbn [negb]; [|intros H; now injection H as <-].
    destruct (fork_loop NoopContext _ baseCheckers v ctx) as [[g1 cx1]|e] eqn:E1; simpl;
      [|discriminate].
    apply Hfork in E1 as ->. cbn [negb].
    destruct (prop_loop NoopContext _ isPartial propCheckers v cx1) as [[g2 cx2]|e] eqn:E2;
      simpl; [|discriminate].
    apply Hprop in E2 as ->. cbn [negb].
    destruct indexTypeChecker as [ic|].
    + destruct (index_loop NoopContext _ (for_in_keys v) v cx2) as [[g3 cx3]|e] eqn:E3;
        simpl; [|discriminate].
      apply Hindex in E3 as ->. cbn [negb].
      intros H. injection H as H <-. now destruct cx3.
    + destruct strict; simpl.
      * specialize (Hextra (heap_get heap allowedProps) (for_in_keys v) cx2).
        destruct (extraneous_loop NoopContext _ (for_in_keys v) cx2) as [g3 cx3].
        simpl in Hextra. subst g3. cbn [negb].
        intros H. injection H as H <-. now destruct cx3.
      * intros H. injection H as H <-. now destruct cx2.
  - destruct (is_function v); [discriminate|]. intros H. now injection H as <-.
  - destruct v; try (intros H; now injection H as <-). apply noop_param_loop_false.
Qed.

(** X2. The outcome of a checker does not depend on the kind of context it
    is given: in every context that obeys the fork laws, started unfailed,
    a checker returns the boolean, or throws the error, that it gives in a
    new no-op context, and the context has failed afterwards exactly when
    the no-op context has. *)
Theorem checker_outcome_context_independent
  {C U : Type} (ops : IContext C U) (laws : ForkLaws ops) (fresh : FreshLaws ops)
  (f : nat) (heap : Heap) (env : Cells) (c : Chk) (v : value) (ctx : C) :
  failed ops ctx = false ->
  (forall b ctx', run ops f heap env c v ctx = Ok (b, ctx') ->
     run NoopContext f heap env c v newNoop = Ok (b, failed ops ctx'))
  /\ (forall e, run ops f heap env c v ctx = Err e ->
        run NoopContext f heap env c v newNoop = Err e).
Proof.
  intros Hctx.
  pose proof (run_agrees ops laws fresh f heap env c v false ctx (eq_sym Hctx)) as H.
  unfold newNoop.
  destruct (run NoopContext f heap env c v false) as [[b1 n]|e1],
           (run ops f heap env c v ctx) as [[b2 c2]|e2]; simpl in H; try tauto.
  - destruct H as [-> ->]. split; [|discriminate].
    intros b ctx' E. now injection E as -> ->.
  - subst e2. split; [discriminate|]. intros e E. now injection E as ->.
Qed.

Lemma checker_outcome_context_independent_witness :
  run NoopContext 10 (snd (checkerPlain personChecker)) [] (fst (checkerPlain personChecker))
    (VObject [("name", VString "A")]) newNoop
  = Ok (false, true).
Proof.
  refine (proj1 (checker_outcome_context_independent DetailOps DetailOps_laws DetailOps_fresh
                   10 (snd (checkerPlain personChecker)) [] (fst (checkerPlain personChecker))
                   (VObject [("name", VString "A")]) detail_empty eq_refl)
            false (mkDetail [] [missing_fork "age"]) _).
  reflexivity.
Defined.

(** X3. A checker returns false exactly when it has recorded a failure: in
    every context that obeys the fork laws, started unfailed, the boolean a
    checker returns is the negation of [failed()] afterwards.  This is what
    [TIface] and [TIntersection] rely on when they return [!ctx.failed()]. *)
Theorem checker_false_iff_failed
  {C U : Type} (ops : IContext C U) (laws : ForkLaws ops) (fresh : FreshLaws ops)
  (f : nat) (heap : Heap) (env : Cells) (c : Chk) (v : value) (ctx ctx' : C) (b : bool) :
  failed ops ctx = false ->
  run ops f heap env c v ctx = Ok (b, ctx') ->
  b = negb (failed ops ctx').
Proof.
  intros Hctx Hrun.
  pose proof (run_agrees ops laws fresh f heap env c v false ctx (eq_sym Hctx)) as H.
  rewrite Hrun in H.
  destruct (run NoopContext f heap env c v false) as [[b1 n]|e1] eqn:E; simpl in H;
    [|contradiction].
  destruct H as [-> <-]. destruct b.
  - apply noop_true_unchanged in E. now subst n.
  - apply noop_false_failed in E. now subst n.
Qed.

Lemma checker_false_iff_failed_witness :
  false = negb (failed DetailOps (mkDetail [] [missing_fork "age"])).
Proof.
  refine (checker_false_iff_failed DetailOps DetailOps_laws DetailOps_fresh
            10 (snd (checkerPlain personChecker)) [] (fst (checkerPlain personChecker))
            (VObject [("name", VString "A")]) detail_empty _ false eq_refl _).
  reflexivity.
Defined.

Lemma facade_rejected fuel this checkerFunc v :
  (forall ctx, apply fuel NoopContext checkerFunc v newNoop = Ok (false, ctx) ->
     exists d, detail_failed d = true
               /\ _doValidate fuel this checkerFunc v
                  = Ok (Some (getErrorDetails d (_path this)))
               /\ _doCheck fuel this checkerFunc v = Err (getError d (_path this)))
  /\ (forall e, apply fuel NoopContext checkerFunc v newNoop = Err e ->
        _doValidate fuel this checkerFunc v = Err e
        /\ _doCheck fuel this checkerFunc v = Err e).
Proof.
  split.
  - intros ctx E. unfold _doValidate, _doCheck. rewrite E. simpl.
    pose proof (run_agrees DetailOps DetailOps_laws DetailOps_fresh fuel (snd checkerFunc) []
                  (fst checkerFunc) v false detail_empty eq_refl) as H.
    unfold apply in *. unfold newNoop in E. rewrite E in H.
    destruct (run DetailOps fuel (snd checkerFunc) [] (fst checkerFunc) v detail_empty)
      as [[b d]|e]; simpl in H; [|contradiction].
    destruct H as [<- Hd]. exists d. simpl.
    apply noop_false_failed in E. subst ctx. auto.
  - intros e E. unfold _doValidate, _doCheck. rewrite E. auto.
Qed.

Lemma getError_is_VError d root : exists p m, getError d root = VError p m.
Proof. unfold getError. destruct (getErrorDetails d root); eauto. Qed.

(** X4. Validation failures are thrown by [check] only: when [test]
    returns false, [validate] returns a list of details and [check] throws
    a [VError], both built from a detail context that has failed; an error
    thrown while checking (a [TypeError] of a checker) is thrown alike by
    [test], [validate] and [check]. *)
Theorem rejected_value_validate_and_check (fuel : nat) (this : Checker) (v : value) :
  (test fuel this v = Ok false ->
     exists d p m,
       detail_failed d = true
       /\ validate fuel this v = Ok (Some (getErrorDetails d (_path this)))
       /\ check fuel this v = Err (VError p m))
  /\ (forall e, test fuel this v = Err e ->
        validate fuel this v = Err e /\ check fuel this v = Err e).
Proof.
  destruct (facade_rejected fuel this (checkerPlain this) v) as [Hrej Herr].
  unfold test, validate, check. split.
  - destruct (apply fuel NoopContext (checkerPlain this) v newNoop) as [[ok ctx]|e];
      simpl; [|discriminate].
    intros H. injection H as ->.
    destruct (Hrej ctx eq_refl) as (d & Hd & Hv & Hc).
    destruct (getError_is_VError d (_path this)) as (p & m & Hpm).
    exists d, p, m. rewrite <- Hpm. auto.
  - intros e. destruct (apply fuel NoopContext (checkerPlain this) v newNoop) as [[ok ctx]|e'];
      simpl; [discriminate|].
    intros H. injection H as ->. now apply Herr.
Qed.

Lemma rejected_value_validate_and_check_witness :
  exists d p m,
    detail_failed d = true
    /\ validate 10 personChecker (VObject [("name", VString "A")])
       = Ok (Some (getErrorDetails d (_path personChecker)))
    /\ check 10 personChecker (VObject [("name", VString "A")]) = Err (VError p m).
Proof.
  exact (proj1 (rejected_value_validate_and_check 10 personChecker
                  (VObject [("name", VString "A")])) eq_refl).
Defined.

(** ** What the checkers accept *)

Lemma run_noop_inv f heap env c v b n :
  run NoopContext f heap env c v false = Ok (b, n) -> n = negb b.
Proof.
  intros H. destruct b.
  - now apply noop_true_unchanged in H.
  - now apply noop_false_failed in H.
Qed.

Lemma accepts_iff_run f heap env c v :
  accepts f heap env c v <-> run NoopContext f heap env c v false = Ok (true, false).
Proof.
  split; [apply accepts_run|]. intros H. now exists false.
Qed.

Section NoopAccepts.
Variable call : Chk -> CheckerFunc (C := bool).
Hypothesis Hinv : forall c v b n, call c v false = Ok (b, n) -> n = negb b.

Lemma noop_fork_loop_iff cs v :
  fork_loop NoopContext call cs v false = Ok (true, false)
  <-> Forall (fun c => call c v false = Ok (true, false)) cs.
Proof.
  split; [|apply noop_fork_loop_true].
  induction cs as [|c cs IH]; simpl; [constructor|].
  destruct (call c v false) as [[b n]|e] eqn:E; simpl; [|discriminate].
  intros H. pose proof (Hinv _ _ _ _ E) as ->.
  destruct b; simpl in *.
  - constructor; [exact E | now apply IH].
  - apply (fork_loop_failed_mono NoopContext NoopContext_laws) in H; [|reflexivity].
    discriminate.
Qed.

Lemma noop_prop_loop_iff isPartial ps v :
  prop_loop NoopContext call isPartial ps v false = Ok (true, false)
  <-> Forall (fun p =>
                if is_undefined (get_prop v (fst (fst p)))
                then snd p && negb isPartial = false
                else call (snd (fst p)) (get_prop v (fst (fst p))) false = Ok (true, false))
             ps.
Proof.
  split.
  - induction ps as [|[[name c] r] ps IH]; simpl; [constructor|].
    destruct (is_undefined (get_prop v name)) eqn:Eu.
    + destruct (r && negb isPartial) eqn:Er; simpl.
      * intros H.
        apply (prop_loop_failed_mono NoopContext NoopContext_laws) in H; [|reflexivity].
        discriminate.
      * intros H. constructor; [simpl; now rewrite Eu | now apply IH].
    + destruct (call c (get_prop v name) false) as [[b n]|e] eqn:E; simpl; [|discriminate].
      pose proof (Hinv _ _ _ _ E) as ->. destruct b; simpl.
      * intros H. constructor; [simpl; rewrite Eu; exact E | now apply IH].
      * intros H.
        apply (prop_loop_failed_mono NoopContext NoopContext_laws) in H; [|reflexivity].
        discriminate.
  - induction 1 as [|[[name c] r] ps Hp _ IH]; simpl; [reflexivity|].
    simpl in Hp. destruct (is_undefined (get_prop v name)).
    + rewrite Hp. exact IH.
    + rewrite Hp. simpl. exact IH.
Qed.

Lemma noop_index_loop_iff c keys v :
  index_loop NoopContext (call c) keys v false = Ok (true, false)
  <-> Forall (fun k => call c (get_prop v k) false = Ok (true, false)) keys.
Proof.
  split; [|apply noop_index_loop_true].
  induction keys as [|k ks IH]; simpl; [constructor|].
  destruct (call c (get_prop v k) false) as [[b n]|e] eqn:E; simpl; [|discriminate].
  pose proof (Hinv _ _ _ _ E) as ->. destruct b; simpl.
  - intros H. constructor; [exact E | now apply IH].
  - intros H.
    apply (index_loop_failed_mono NoopContext NoopContext_laws) in H; [|reflexivity].
    discriminate.
Qed.

Lemma noop_extraneous_loop_iff allowed keys :
  extraneous_loop NoopContext allowed keys false = (true, false)
  <-> Forall (fun k => set_has allowed k = true) keys.
Proof.
  split.
  - induction keys as [|k ks IH]; simpl; [constructor|].
    destruct (set_has allowed k) eqn:E.
    + intros H. constructor; [exact E | now apply IH].
    + intros H.
      pose proof (extraneous_loop_failed_mono NoopContext NoopContext_laws allowed ks true
                    eq_refl) as Hm.
      rewrite H in Hm. discriminate.
  - induction 1 as [|k ks Hk _ IH]; simpl; [reflexivity|]. now rewrite Hk.
Qed.

Lemma noop_array_loop_iff c items i :
  array_loop NoopContext (call c) items i false = Ok (true, false)
  <-> Forall (fun x => call c x false = Ok (true, false)) items.
Proof.
  revert i. induction items as [|x items IH]; intros i; simpl.
  - split; [constructor | reflexivity].
  - destruct (call c x false) as [[b n]|e] eqn:E; simpl.
    + pose proof (Hinv _ _ _ _ E) as ->. destruct b; simpl.
      * rewrite IH. split; [intros; constructor; assumption | now inversion 1].
      * split; [discriminate | inversion 1; congruence].
    + split; [discriminate | inversion 1; congruence].
Qed.

Lemma noop_tuple_loop_iff cs items i :
  tuple_loop NoopContext call cs items i false = Ok (true, false)
  <-> (forall k c, nth_error cs k = Some c ->
         call c (get_index items (i + k)) false = Ok (true, false)).
Proof.
  revert i. induction cs as [|c cs IH]; intros i; simpl.
  - split; [intros _ [|k] c'; discriminate | reflexivity].
  - destruct (call c (get_index items i) false) as [[b n]|e] eqn:E; simpl.
    + pose proof (Hinv _ _ _ _ E) as ->. destruct b; simpl.
      * rewrite IH. split.
        -- intros H [|k] c'; simpl.
           ++ intros [= <-]. rewrite Nat.add_0_r. exact E.
           ++ intros Hk. replace (i + S k) with (S i + k) by lia. now apply H.
        -- intros H k c' Hk. replace (S i + k) with (i + S k) by lia. now apply H.
      * split; [discriminate|]. intros H. specialize (H 0 c eq_refl).
        rewrite Nat.add_0_r, E in H. discriminate.
    + split; [discriminate|]. intros H. specialize (H 0 c eq_refl).
      rewrite Nat.add_0_r, E in H. discriminate.
Qed.
End NoopAccepts.

Lemma Forall_iff {A : Type} (P Q : A -> Prop) (l : list A) :
  (forall x, P x <-> Q x) -> (Forall P l <-> Forall Q l).
Proof.
  intros H. split; apply Forall_impl; intros x; apply H.
Qed.

Lemma noop_param_loop_iff (call : Chk -> CheckerFunc (C := bool))
  (Hinv : forall c v b n, call c v false = Ok (b, n) -> n = negb b) cs items i :
  param_loop NoopContext call cs items i false = Ok (true, false)
  <-> (forall k p, nth_error cs k = Some p ->
         if is_undefined (get_index items (i + k)) then snd p = false
         else call (snd (fst p)) (get_index items (i + k)) false = Ok (true, false)).
Proof.
  revert i. induction cs as [|[[pn c] r] cs IH]; intros i; simpl.
  - split; [intros _ [|k] p; discriminate | reflexivity].
  - assert (Hshift : (forall k p, nth_error cs k = Some p ->
                        if is_undefined (get_index items (S i + k)) then snd p = false
                        else call (snd (fst p)) (get_index items (S i + k)) false
                             = Ok (true, false))
                     <-> (forall k p, nth_error cs k = Some p ->
                            if is_undefined (get_index items (i + S k)) then snd p = false
                            else call (snd (fst p)) (get_index items (i + S k)) false
                                 = Ok (true, false))).
    { split; intros H k p Hk; specialize (H k p Hk);
        [replace (i + S k) with (S i + k) by lia | replace (S i + k) with (i + S k) by lia];
        exact H. }
    destruct (is_undefined (get_index items i)) eqn:Eu.
    + destruct r.
      * split; [discriminate|]. intros H. specialize (H 0 _ eq_refl).
        rewrite Nat.add_0_r, Eu in H. discriminate.
      * rewrite IH, Hshift. split.
        -- intros H [|k] p; simpl.
           ++ intros [= <-]. rewrite Nat.add_0_r, Eu. reflexivity.
           ++ apply H.
        -- intros H k p Hk. now apply (H (S k)).
    + destruct (call c (get_index items i) false) as [[b n]|e] eqn:E; simpl.
      * pose proof (Hinv _ _ _ _ E) as ->. destruct b; simpl.
        -- rewrite IH, Hshift. split.
           ++ intros H [|k] p; simpl.
              ** intros [= <-]. rewrite Nat.add_0_r, Eu. exact E.
              ** apply H.
           ++ intros H k p Hk. now apply (H (S k)).
        -- split; [discriminate|]. intros H. specialize (H 0 _ eq_refl).
           rewrite Nat.add_0_r, Eu in H. simpl in H. congruence.
      * split; [discriminate|]. intros H. specialize (H 0 _ eq_refl).
        rewrite Nat.add_0_r, Eu in H. simpl in H. congruence.
Qed.

(** X5. What an interface checker accepts.  The checker compiled from an
    interface accepts a value exactly when the value is an object (or an
    array), every base checker accepts it, every property that is present
    is accepted by its property checker, every property that is missing is
    not required or the check is inside a Partial, and, with an index
    signature, every key is accepted by the index checker, or else, in
    strict mode, every key is among the allowed property names. *)
Theorem iface_accepts_iff
  (f : nat) (heap : Heap) (env : Cells) (bcs : list Chk)
  (pcs : list (string * Chk * bool)) (ic : option Chk) (strict isPartial : bool)
  (a : nat) (v : value) :
  accepts (S f) heap env (CIface bcs pcs ic strict isPartial a) v
  <-> is_object v = true
      /\ Forall (fun bc => accepts f heap env bc v) bcs
      /\ Forall (fun p =>
                   if is_undefined (get_prop v (fst (fst p)))
                   then snd p && negb isPartial = false
                   else accepts f heap env (snd (fst p)) (get_prop v (fst (fst p))))
                pcs
      /\ match ic with
         | Some c => Forall (fun k => accepts f heap env c (get_prop v k)) (for_in_keys v)
         | None =>
             strict = true ->
             Forall (fun k => set_has (heap_get heap a) k = true) (for_in_keys v)
         end.
Proof.
  pose (call := run NoopContext f heap env).
  assert (Hinv : forall c v b n, call c v false = Ok (b, n) -> n = negb b)
    by (intros; eapply run_noop_inv; eauto).
  assert (H1 : Forall (fun bc => accepts f heap env bc v) bcs
               <-> fork_loop NoopContext call bcs v false = Ok (true, false)).
  { rewrite (noop_fork_loop_iff call Hinv).
    apply Forall_iff. intros bc. apply accepts_iff_run. }
  assert (H2 : Forall (fun p =>
                   if is_undefined (get_prop v (fst (fst p)))
                   then snd p && negb isPartial = false
                   else accepts f heap env (snd (fst p)) (get_prop v (fst (fst p))))
                pcs
               <-> prop_loop NoopContext call isPartial pcs v false = Ok (true, false)).
  { rewrite (noop_prop_loop_iff call Hinv).
    apply Forall_iff. intros p.
    destruct (is_undefined _); [reflexivity | apply accepts_iff_run]. }
  assert (Hthird :
            match ic with
            | Some c => Forall (fun k => accepts f heap env c (get_prop v k)) (for_in_keys v)
            | None => strict = true ->
                      Forall (fun k => set_has (heap_get heap a) k = true) (for_in_keys v)
            end
            <-> (match ic with
                 | Some c => index_loop NoopContext (call c) (for_in_keys v) v false
                 | None => if strict
                           then Ok (extraneous_loop NoopContext (heap_get heap a)
                                      (for_in_keys v) false)
                           else Ok (true, false)
                 end) = Ok (true, false)).
  { destruct ic as [c|].
    - rewrite (noop_index_loop_iff call Hinv).
      apply Forall_iff. intros k. apply accepts_iff_run.
    - destruct strict.
      + rewrite <- noop_extraneous_loop_iff. split.
        * intros H. now rewrite H.
        * intros H _. now injection H.
      + split; [reflexivity | discriminate]. }
  rewrite accepts_iff_run, H1, H2, Hthird. clear H1 H2 Hthird.
  change (run NoopContext (S f) heap env (CIface bcs pcs ic strict isPartial a) v false)
    with (if negb (is_object v) then ret_fail NoopContext false KNull (Some "is not an object") 0
          else
            let* (go1, ctx1) := fork_loop NoopContext call bcs v false in
            if negb go1 then Ok (false, ctx1) else
            let* (go2, ctx2) := prop_loop NoopContext call isPartial pcs v ctx1 in
            if negb go2 then Ok (false, ctx2) else
            let* (go3, ctx3) :=
              match ic with
              | Some c => index_loop NoopContext (call c) (for_in_keys v) v ctx2
              | None =>
                  if strict
                  then Ok (extraneous_loop NoopContext (heap_get heap a) (for_in_keys v) ctx2)
                  else Ok (true, ctx2)
              end in
            if negb go3 then Ok (false, ctx3)
            else Ok (negb (failed NoopContext ctx3), ctx3)).
  destruct (is_object v); cbn [negb].
  2:{ split; [discriminate | intros [H _]; discriminate]. }
  split.
  - destruct (fork_loop NoopContext call bcs v false) as [[g1 c1]|e] eqn:E1; simpl;
      [|discriminate].
    pose proof (fork_loop_go NoopContext NoopContext_laws _ _ _ _ _ _ E1) as ->. cbn [negb].
    destruct (prop_loop NoopContext call isPartial pcs v c1) as [[g2 c2]|e] eqn:E2; simpl;
      [|discriminate].
    pose proof (prop_loop_go NoopContext NoopContext_laws _ _ _ _ _ _ _ E2) as ->. cbn [negb].
    intros H.
    assert (H3 : exists g3,
               (match ic with
                | Some c => index_loop NoopContext (call c) (for_in_keys v) v c2
                | None => if strict
                          then Ok (extraneous_loop NoopContext (heap_get heap a)
                                     (for_in_keys v) c2)
                          else Ok (true, c2)
                end) = Ok (g3, false)).
    { destruct (match ic with Some _ => _ | None => _ end) as [[g3 c3]|e]; simpl in H;
        [|discriminate].
      destruct g3; cbn [negb] in H; [|discriminate].
      injection H as H <-. exists true. now destruct c3. }
    destruct H3 as [g3 H3].
    assert (Hc2 : c2 = false).
    { destruct c2; [|reflexivity]. exfalso. destruct ic as [c|].
      - apply (index_loop_failed_mono NoopContext NoopContext_laws) in H3; [|reflexivity].
        discriminate.
      - destruct strict.
        + pose proof (extraneous_loop_failed_mono NoopContext NoopContext_laws
                        (heap_get heap a) (for_in_keys v) true eq_refl) as Hm.
          injection H3 as H3. rewrite H3 in Hm. discriminate.
        + discriminate. }
    subst c2.
    assert (Hc1 : c1 = false).
    { destruct c1; [|reflexivity].
      apply (prop_loop_failed_mono NoopContext NoopContext_laws) in E2; [|reflexivity].
      discriminate. }
    subst c1. repeat apply conj; try reflexivity; try assumption.
    rewrite H3 in H. simpl in H. destruct g3; [now rewrite H3 | discriminate].
  - intros (_ & E1 & E2 & E3). rewrite E1. simpl. rewrite E2. simpl. rewrite E3.
    reflexivity.
Qed.

(** X6. An intersection checker accepts a value exactly when every
    conjunct's checker accepts it. *)
Theorem intersection_accepts_iff
  (f : nat) (heap : Heap) (env : Cells) (cs : list Chk) (v : value) :
  accepts (S f) heap env (CIntersection cs) v
  <-> Forall (fun c => accepts f heap env c v) cs.
Proof.
  pose (call := run NoopContext f heap env).
  assert (Hinv : forall c v b n, call c v false = Ok (b, n) -> n = negb b)
    by (intros; eapply run_noop_inv; eauto).
  assert (H1 : Forall (fun c => accepts f heap env c v) cs
               <-> fork_loop NoopContext call cs v false = Ok (true, false)).
  { rewrite (noop_fork_loop_iff call Hinv).
    apply Forall_iff. intros c. apply accepts_iff_run. }
  rewrite accepts_iff_run, H1.
  change (run NoopContext (S f) heap env (CIntersection cs) v false)
    with (let* (all, ctx1) := fork_loop NoopContext call cs v false in
          Ok (all && negb (failed NoopContext ctx1), ctx1)).
  destruct (fork_loop NoopContext call cs v false) as [[all c1]|e] eqn:E; simpl.
  - pose proof (fork_loop_go NoopContext NoopContext_laws _ _ _ _ _ _ E) as ->.
    destruct c1; simpl; split; congruence.
  - split; discriminate.
Qed.

(** X7. An array checker accepts exactly the arrays all of whose elements
    the element checker accepts; a value that is not an array is rejected. *)
Theorem array_accepts_iff
  (f : nat) (heap : Heap) (env : Cells) (c : Chk) (v : value) :
  accepts (S f) heap env (CArray c) v
  <-> exists items, v = VArray items /\ Forall (accepts f heap env c) items.
Proof.
  pose (call := run NoopContext f heap env).
  assert (Hinv : forall c v b n, call c v false = Ok (b, n) -> n = negb b)
    by (intros; eapply run_noop_inv; eauto).
  rewrite accepts_iff_run.
  destruct v as [| |vb|vn|vs| |items|vprops]; simpl;
    try (split; [discriminate | intros (items0 & Hv & _); discriminate]).
  change (array_loop NoopContext (call c) items 0 false = Ok (true, false)
          <-> exists items0, VArray items = VArray items0
                             /\ Forall (accepts f heap env c) items0).
  rewrite (noop_array_loop_iff call Hinv). split.
  - intros H. exists items. split; [reflexivity|].
    eapply Forall_impl; [|exact H]. intros x Hx. now exists false.
  - intros (items0 & [= <-] & H).
    eapply Forall_impl; [|exact H]. intros x. apply accepts_run.
Qed.

(** X8. What a tuple checker accepts.  In plain mode: the arrays whose
    entry at each position of the tuple is accepted by the checker of that
    position (an entry beyond the end of the array counts as [undefined]),
    whatever comes after.  In strict mode, in addition, the array is not
    longer than the tuple.  With a rest element, in both modes: every
    entry from the rest's start on is accepted by the rest's checker. *)
Theorem tuple_accepts_iff
  (f : nat) (heap : Heap) (env : Cells) (cs : list Chk) (rc : Chk) (v : value) :
  let fixed items :=
    forall k c, nth_error cs k = Some c -> accepts f heap env c (get_index items k) in
  (accepts (S f) heap env (CTuple cs) v
   <-> exists items, v = VArray items /\ fixed items)
  /\ (accepts (S (S f)) heap env (CExtraneous (CTuple cs) (List.length cs)) v
      <-> exists items, v = VArray items /\ fixed items
                        /\ List.length items <= List.length cs)
  /\ (accepts (S (S f)) heap env
        (CTupleRest (CTuple cs) (CRest rc (Some (List.length cs)))) v
      <-> exists items, v = VArray items /\ fixed items
                        /\ Forall (accepts f heap env rc) (skipn (List.length cs) items)).
Proof.
  intros fixed.
  pose (call := run NoopContext f heap env).
  assert (Hinv : forall c v b n, call c v false = Ok (b, n) -> n = negb b)
    by (intros; eapply run_noop_inv; eauto).
  assert (Hfixed : forall items,
             tuple_loop NoopContext call cs items 0 false = Ok (true, false) <-> fixed items).
  { intros items. rewrite (noop_tuple_loop_iff call Hinv). unfold fixed. simpl.
    split; intros H k c Hk; specialize (H k c Hk).
    - now exists false.
    - now apply accepts_run. }
  assert (Hplain : forall items b n,
             run NoopContext (S f) heap env (CTuple cs) (VArray items) false = Ok (b, n) ->
             (b = true <-> fixed items) /\ n = negb b).
  { intros items b n H. pose proof (run_noop_inv _ _ _ _ _ _ _ H) as ->.
    split; [|reflexivity]. rewrite <- Hfixed.
    change (run NoopContext (S f) heap env (CTuple cs) (VArray items) false)
      with (tuple_loop NoopContext call cs items 0 false) in H.
    rewrite H. destruct b; simpl; split; congruence. }
  split; [|split].
  - rewrite accepts_iff_run.
    destruct v as [| |vb|vn|vs| |items|vprops]; simpl;
      try (split; [discriminate | intros (items0 & Hv & _); discriminate]).
    change (tuple_loop NoopContext call cs items 0 false = Ok (true, false)
            <-> exists items0, VArray items = VArray items0 /\ fixed items0).
    rewrite Hfixed. split.
    + intros H. now exists items.
    + now intros (items0 & [= <-] & H).
  - rewrite accepts_iff_run, run_CExtraneous.
    destruct (run NoopContext (S f) heap env (CTuple cs) v false) as [[b n]|e] eqn:E; simpl.
    + destruct v as [| |vb|vn|vs| |items|vprops];
        try (simpl in E; injection E as <- <-; simpl;
             split; [discriminate | intros (items0 & Hv & _); discriminate]).
      destruct (Hplain _ _ _ E) as [Hb ->]. destruct b; simpl.
      * destruct (Nat.leb (List.length items) (List.length cs)) eqn:El.
        -- apply Nat.leb_le in El. split; [|reflexivity].
           intros _. exists items. repeat split; [now apply Hb | exact El].
        -- apply Nat.leb_gt in El. split; [discriminate|].
           intros (items0 & [= <-] & _ & Hl). lia.
      * split; [discriminate|]. intros (items0 & [= <-] & Hf & _).
        apply Hb in Hf. discriminate.
    + split; [discriminate|]. intros (items & -> & Hf & _).
      apply Hfixed in Hf.
      change (run NoopContext (S f) heap env (CTuple cs) (VArray items) false)
        with (tuple_loop NoopContext call cs items 0 false) in E. congruence.
  - rewrite accepts_iff_run.
    change (run NoopContext (S (S f)) heap env
              (CTupleRest (CTuple cs) (CRest rc (Some (List.length cs)))) v false)
      with (let* (ok, ctx1) := run NoopContext (S f) heap env (CTuple cs) v false in
            if ok then run NoopContext (S f) heap env (CRest rc (Some (List.length cs))) v ctx1
            else Ok (false, ctx1)).
    destruct (run NoopContext (S f) heap env (CTuple cs) v false) as [[b n]|e] eqn:E; simpl.
    + destruct v as [| |vb|vn|vs| |items|vprops];
        try (simpl in E; injection E as <- <-; simpl;
             split; [discriminate | intros (items0 & Hv & _); discriminate]).
      destruct (Hplain _ _ _ E) as [Hb ->]. destruct b; simpl.
      * change (array_loop NoopContext (call rc) (skipn (List.length cs) items)
                  (List.length cs) false = Ok (true, false)
                <-> exists items0, VArray items = VArray items0 /\ fixed items0
                      /\ Forall (accepts f heap env rc) (skipn (List.length cs) items0)).
        rewrite (noop_array_loop_iff call Hinv). split.
        -- intros H. exists items. repeat split; [now apply Hb|].
           eapply Forall_impl; [|exact H]. intros x Hx. now exists false.
        -- intros (items0 & [= <-] & _ & H).
           eapply Forall_impl; [|exact H]. intros x. apply accepts_run.
      * split; [discriminate|]. intros (items0 & [= <-] & Hf & _).
        apply Hb in Hf. discriminate.
    + split; [discriminate|]. intros (items & -> & Hf & _).
      apply Hfixed in Hf.
      change (run NoopContext (S f) heap env (CTuple cs) (VArray items) false)
        with (tuple_loop NoopContext call cs items 0 false) in E. congruence.
Qed.

(** *** Unions *)

Section UnionLoop.
Variable call : Chk -> CheckerFunc (C := bool).

Lemma union_loop_true cs v u u' :
  union_loop NoopContext call cs v u = Ok (true, u') ->
  Exists (fun c => exists n, call c v false = Ok (true, n)) cs.
Proof.
  revert u. induction cs as [|c cs IH]; intros u; simpl; [discriminate|].
  destruct (call c v false) as [[b n]|e] eqn:E; simpl; [|discriminate].
  destruct b.
  - intros _. left. now exists n.
  - intros H. right. eapply IH; eauto.
Qed.

Lemma union_loop_false cs v u u' :
  union_loop NoopContext call cs v u = Ok (false, u') ->
  Forall (fun c => exists n, call c v false = Ok (false, n)) cs.
Proof.
  revert u. induction cs as [|c cs IH]; intros u; simpl; [constructor|].
  destruct (call c v false) as [[b n]|e] eqn:E; simpl; [|discriminate].
  destruct b; [discriminate|].
  intros H. constructor; [now exists n | eapply IH; eauto].
Qed.

Lemma union_loop_returns cs v u :
  Forall (fun c => exists b n, call c v false = Ok (b, n)) cs ->
  exists b u', union_loop NoopContext call cs v u = Ok (b, u').
Proof.
  destruct u. intros H. induction H as [|c cs (b & n & Hc) _ IH]; simpl.
  - exists false, tt. reflexivity.
  - rewrite Hc. simpl. destruct b; [|exact IH]. exists true, tt. reflexivity.
Qed.
End UnionLoop.

Lemma union_accepts_exists f heap env cs m v :
  accepts (S f) heap env (CUnion cs m) v -> Exists (fun c => accepts f heap env c v) cs.
Proof.
  intros [ctx H]. unfold newNoop in H. simpl in H.
  destruct (union_loop NoopContext (run NoopContext f heap env) cs v tt) as [[b u]|e] eqn:E;
    simpl in H; [|discriminate].
  destruct b; [|discriminate].
  apply union_loop_true in E. eapply Exists_impl; [|exact E].
  intros c [n Hn]. now exists n.
Qed.

Lemma union_result f heap env cs m v b n :
  run NoopContext (S f) heap env (CUnion cs m) v false = Ok (b, n) ->
  (b = true -> Exists (fun c => accepts f heap env c v) cs)
  /\ (b = false -> Forall (fun c => exists k, run NoopContext f heap env c v false
                                               = Ok (false, k)) cs).
Proof.
  intros H. simpl in H.
  destruct (union_loop NoopContext (run NoopContext f heap env) cs v tt) as [[b1 u]|e] eqn:E;
    simpl in H; [|discriminate].
  destruct b1; injection H as <- <-; split; try discriminate; intros _.
  - apply union_loop_true in E. eapply Exists_impl; [|exact E].
    intros c [k Hk]. now exists k.
  - now apply union_loop_false in E.
Qed.

(** X9. A union checker accepts a value only if the checker of some
    alternative accepts it, and, when every alternative's checker returns,
    exactly then.  The boolean it returns does not depend on the order of
    the alternatives: two unions of the same alternatives, in any order,
    that both return, return the same boolean. *)
Theorem union_accepts_order_independent
  (f : nat) (heap : Heap) (env : Cells) (cs cs' : list Chk) (m m' : string) (v : value) :
  (accepts (S f) heap env (CUnion cs m) v -> Exists (fun c => accepts f heap env c v) cs)
  /\ (Forall (fun c => returns f heap env c v) cs ->
      Exists (fun c => accepts f heap env c v) cs ->
      accepts (S f) heap env (CUnion cs m) v)
  /\ (Permutation cs cs' ->
      forall b b' n n',
        run NoopContext (S f) heap env (CUnion cs m) v newNoop = Ok (b, n) ->
        run NoopContext (S f) heap env (CUnion cs' m') v newNoop = Ok (b', n') ->
        b = b').
Proof.
  split; [apply union_accepts_exists | split].
  - intros Hret Hex.
    destruct (union_loop_returns (run NoopContext f heap env) cs v tt Hret) as (b & u & Hu).
    exists false. unfold newNoop. simpl. rewrite Hu. simpl. destruct b; [reflexivity|].
    exfalso. apply union_loop_false in Hu.
    apply Exists_exists in Hex as (c & Hin & [k Hk]).
    rewrite Forall_forall in Hu. destruct (Hu c Hin) as [k' Hk'].
    unfold newNoop in Hk. congruence.
  - intros Hperm b b' n n' H H'. unfold newNoop in *.
    apply union_result in H as [Ht Hf]. apply union_result in H' as [Ht' Hf'].
    assert (Hboth : forall l l',
               Permutation l l' ->
               Exists (fun c => accepts f heap env c v) l ->
               Forall (fun c => exists k, run NoopContext f heap env c v false
                                          = Ok (false, k)) l' -> False).
    { intros l l' Hp Hex Hall.
      apply Exists_exists in Hex as (c & Hin & [k Hk]).
      rewrite Forall_forall in Hall.
      destruct (Hall c (Permutation_in c Hp Hin)) as [k' Hk'].
      unfold newNoop in Hk. congruence. }
    destruct b, b'; try reflexivity; exfalso.
    + exact (Hboth cs cs' Hperm (Ht eq_refl) (Hf' eq_refl)).
    + exact (Hboth cs' cs (Permutation_sym Hperm) (Ht' eq_refl) (Hf eq_refl)).
Qed.

Lemma union_accepts_order_independent_witness :
  accepts 2 [] [] stringOrNumber (VNumber 3).
Proof.
  refine (proj1 (proj2 (union_accepts_order_independent 1 [] [] _ [] _ "" (VNumber 3))) _ _).
  - repeat constructor; eexists; eexists; reflexivity.
  - right. left. eexists. reflexivity.
Defined.

(** X10. What a parameter-list checker accepts: the arrays in which, at the
    position of each parameter, the argument is [undefined] and the
    parameter is not required, or the argument is accepted by the checker
    of the parameter; in strict mode, in addition, there are no more
    arguments than parameters. *)
Theorem paramlist_accepts_iff
  (f : nat) (heap : Heap) (env : Cells) (cs : list (string * Chk * bool)) (v : value) :
  let args_ok items :=
    forall k p, nth_error cs k = Some p ->
      if is_undefined (get_index items k) then snd p = false
      else accepts f heap env (snd (fst p)) (get_index items k) in
  (accepts (S f) heap env (CParamList cs) v
   <-> exists items, v = VArray items /\ args_ok items)
  /\ (accepts (S (S f)) heap env (CExtraneous (CParamList cs) (List.length cs)) v
      <-> exists items, v = VArray items /\ args_ok items
                        /\ List.length items <= List.length cs).
Proof.
  intros args_ok.
  pose (call := run NoopContext f heap env).
  assert (Hinv : forall c v b n, call c v false = Ok (b, n) -> n = negb b)
    by (intros; eapply run_noop_inv; eauto).
  assert (Hargs : forall items,
             param_loop NoopContext call cs items 0 false = Ok (true, false)
             <-> args_ok items).
  { intros items. rewrite (noop_param_loop_iff call Hinv). unfold args_ok. simpl.
    split; intros H k p Hk; specialize (H k p Hk);
      destruct (is_undefined (get_index items k)); try assumption.
    - now exists false.
    - now apply accepts_run. }
  assert (Hplain : forall items b n,
             run NoopContext (S f) heap env (CParamList cs) (VArray items) false = Ok (b, n) ->
             (b = true <-> args_ok items) /\ n = negb b).
  { intros items b n H. pose proof (run_noop_inv _ _ _ _ _ _ _ H) as ->.
    split; [|reflexivity]. rewrite <- Hargs.
    rewrite run_CParamList in H. fold call in H.
    rewrite H. destruct b; simpl; split; congruence. }
  split.
  - rewrite accepts_iff_run.
    destruct v as [| |vb|vn|vs| |items|vprops]; simpl;
      try (split; [discriminate | intros (items0 & Hv & _); discriminate]).
    change (param_loop NoopContext call cs items 0 false = Ok (true, false)
            <-> exists items0, VArray items = VArray items0 /\ args_ok items0).
    rewrite Hargs. split.
    + intros H. now exists items.
    + now intros (items0 & [= <-] & H).
  - rewrite accepts_iff_run, run_CExtraneous.
    destruct (run NoopContext (S f) heap env (CParamList cs) v false) as [[b n]|e] eqn:E;
      simpl.
    + destruct v as [| |vb|vn|vs| |items|vprops];
        try (simpl in E; injection E as <- <-; simpl;
             split; [discriminate | intros (items0 & Hv & _); discriminate]).
      destruct (Hplain _ _ _ E) as [Hb ->]. destruct b; simpl.
      * destruct (Nat.leb (List.length items) (List.length cs)) eqn:El.
        -- apply Nat.leb_le in El. split; [|reflexivity].
           intros _. exists items. repeat split; [now apply Hb | exact El].
        -- apply Nat.leb_gt in El. split; [discriminate|].
           intros (items0 & [= <-] & _ & Hl). lia.
      * split; [discriminate|]. intros (items0 & [= <-] & Hf & _).
        apply Hb in Hf. discriminate.
    + split; [discriminate|]. intros (items & -> & Hf & _).
      apply Hargs in Hf. rewrite run_CParamList in E. fold call in E. congruence.
Qed.

(** ** Strict mode only adds rejections *)

Lemma cell_plainCells env node :
  cell (plainCells env) node
  = match cell env node with Some c => Some (plainOf c) | None => None end.
Proof.
  induction env as [|[n c] env IH]; simpl; [reflexivity|].
  destruct (Nat.eqb node n); [reflexivity | exact IH].
Qed.

(** *** On [undefined], a checker and its plain counterpart agree *)

Section UndefinedLoops.
Variables call1 call2 : Chk -> CheckerFunc (C := bool).
Variable v : value.
Hypothesis Hcall : forall c t r r',
  call1 c v t = Ok r -> call2 (plainOf c) v t = Ok r' -> r = r'.

Lemma union_loop_plainOf cs u r r' :
  union_loop NoopContext call1 cs v u = Ok r ->
  union_loop NoopContext call2 (map plainOf cs) v u = Ok r' -> r = r'.
Proof.
  destruct u. revert r r'. induction cs as [|c cs IH]; intros r r'; simpl; [congruence|].
  destruct (call1 c v false) as [[b1 n1]|e1] eqn:E1; simpl; [|discriminate].
  destruct (call2 (plainOf c) v false) as [[b2 n2]|e2] eqn:E2; simpl; [|discriminate].
  pose proof (Hcall _ _ _ _ E1 E2) as H. injection H as <- <-.
  destruct b1; [congruence | apply IH].
Qed.

Lemma fork_loop_plainOf cs t r r' :
  fork_loop NoopContext call1 cs v t = Ok r ->
  fork_loop NoopContext call2 (map plainOf cs) v t = Ok r' -> r = r'.
Proof.
  revert t r r'. induction cs as [|c cs IH]; intros t r r'; simpl; [congruence|].
  destruct (call1 c v false) as [[b1 n1]|e1] eqn:E1; simpl; [|discriminate].
  destruct (call2 (plainOf c) v false) as [[b2 n2]|e2] eqn:E2; simpl; [|discriminate].
  pose proof (Hcall _ _ _ _ E1 E2) as H. injection H as <- <-. apply IH.
Qed.
End UndefinedLoops.

Lemma undefined_plainOf f1 heap env c t r :
  run NoopContext f1 heap env c VUndefined t = Ok r ->
  forall f2 heap' r',
    run NoopContext f2 heap' (plainCells env) (plainOf c) VUndefined t = Ok r' ->
    r = r'.
Proof.
  revert env c t r. induction f1 as [|f1 IH]; intros env c t r H1 f2 heap' r' H2;
    [discriminate|].
  assert (Hcall : forall f2 c t r r',
             run NoopContext f1 heap env c VUndefined t = Ok r ->
             run NoopContext f2 heap' (plainCells env) (plainOf c) VUndefined t = Ok r' ->
             r = r') by (intros; eapply IH; eauto).
  destruct c; simpl in H1; cbn [plainOf] in H2;
    match goal with
    | H : run NoopContext f2 heap' (plainCells env) (plainOf _) VUndefined t = Ok r' |- _ =>
        idtac
    | _ => destruct f2 as [|f2]; [discriminate|]; simpl in H2
    end.
  - congruence.
  - rewrite cell_plainCells in H2. destruct (cell env node); [|discriminate]. eauto.
  - eapply (IH ((node, c) :: env)); eauto.
  - destruct (run NoopContext f1 heap env c VUndefined t) as [[b1 n1]|e1] eqn:E1;
      simpl in H1; [|discriminate].
    destruct (run NoopContext f2 heap' (plainCells env) (plainOf c) VUndefined t)
      as [[b2 n2]|e2] eqn:E2; simpl in H2; [|discriminate].
    pose proof (Hcall _ _ _ _ _ E1 E2) as H. injection H as <- <-. congruence.
  - congruence.
  - congruence.
  - discriminate.
  - congruence.
  - destruct (run NoopContext f1 heap env c1 VUndefined t) as [[b1 n1]|e1] eqn:E1;
      simpl in H1; [|discriminate].
    destruct (run NoopContext f2 heap' (plainCells env) (plainOf c1) VUndefined t)
      as [[b2 n2]|e2] eqn:E2; simpl in H2; [|discriminate].
    pose proof (Hcall _ _ _ _ _ E1 E2) as H. injection H as <- <-.
    destruct b1; [eauto | congruence].
  - destruct (run NoopContext f1 heap env c VUndefined t) as [[b1 n1]|e1] eqn:E1;
      simpl in H1; [|discriminate].
    destruct b1; [discriminate|]. injection H1 as <-. eapply IH; eauto.
  - destruct (union_loop NoopContext _ itemCheckers VUndefined _) as [[b1 u1]|e1] eqn:E1;
      simpl in H1; [|discriminate].
    destruct (union_loop NoopContext _ (map plainOf itemCheckers) VUndefined _)
      as [[b2 u2]|e2] eqn:E2; simpl in H2; [|discriminate].
    pose proof (union_loop_plainOf _ _ VUndefined (Hcall f2) _ _ _ _ E1 E2) as H.
    injection H as <- _. congruence.
  - destruct (fork_loop NoopContext _ itemCheckers VUndefined t) as [[b1 n1]|e1] eqn:E1;
      simpl in H1; [|discriminate].
    destruct (fork_loop NoopContext _ (map plainOf itemCheckers) VUndefined t)
      as [[b2 n2]|e2] eqn:E2; simpl in H2; [|discriminate].
    pose proof (fork_loop_plainOf _ _ VUndefined (Hcall f2) _ _ _ _ E1 E2) as H.
    injection H as <- <-. congruence.
  - congruence.
  - congruence.
  - congruence.
  - congruence.
  - congruence.
  - congruence.
  - congruence.
Qed.

Lemma probe_required_plainOf pf heap heap' opts cs t req req' :
  List.length opts = List.length cs ->
  probe_required pf heap (combine opts cs) t = Ok req ->
  probe_required pf heap' (combine opts (map plainOf cs)) t = Ok req' ->
  req = req'.
Proof.
  revert cs t req req'. induction opts as [|o opts IH]; intros [|c cs] t req req' Hlen;
    simpl in *; try discriminate; try congruence.
  destruct o.
  - destruct (probe_required pf heap (combine opts cs) t) as [r1|] eqn:E1; simpl;
      [|discriminate].
    destruct (probe_required pf heap' (combine opts (map plainOf cs)) t) as [r2|] eqn:E2;
      simpl; [|discriminate].
    intros [= <-] [= <-]. f_equal. eapply IH; eauto.
  - destruct (run NoopContext pf heap [] c VUndefined t) as [[b1 n1]|] eqn:R1; simpl;
      [|discriminate].
    destruct (run NoopContext pf heap' [] (plainOf c) VUndefined t) as [[b2 n2]|] eqn:R2;
      simpl; [|discriminate].
    pose proof (undefined_plainOf _ _ _ _ _ _ R1 pf heap' _ R2) as H. injection H as <- <-.
    destruct (probe_required pf heap (combine opts cs) n1) as [r1|] eqn:E1; simpl;
      [|discriminate].
    destruct (probe_required pf heap' (combine opts (map plainOf cs)) n1) as [r2|] eqn:E2;
      simpl; [|discriminate].
    intros [= <-] [= <-]. f_equal. eapply IH; eauto.
Qed.

(** *** Compiling in plain mode gives the plain counterpart *)

Lemma rel2_ret {A : Type} (R : A -> A -> Prop) a1 a2 :
  R a1 a2 -> rel2 R (ret a1) (ret a2).
Proof. intros H s x1 s1 x2 s2 [= <- <-] [= <- <-]. auto. Qed.

Lemma rel2_same {A : Type} (m : M A) : rel2 eq m m.
Proof. intros s a1 s1 a2 s2 H1 H2. rewrite H1 in H2. now injection H2 as <- <-. Qed.

Lemma rel2_throw_l {A : Type} (R : A -> A -> Prop) e m : rel2 R (throw e) m.
Proof. intros s a1 s1 a2 s2 H. discriminate. Qed.

Lemma rel2_mbind {A B : Type} (R : A -> A -> Prop) (R' : B -> B -> Prop)
  (m1 m2 : M A) (k1 k2 : A -> M B) :
  rel2 R m1 m2 ->
  (forall a1 a2, R a1 a2 -> (exists s s1, m1 s = (Ok a1, s1)) -> rel2 R' (k1 a1) (k2 a2)) ->
  rel2 R' (mbind m1 k1) (mbind m2 k2).
Proof.
  intros Hm Hk s b1 s1 b2 s2. unfold mbind.
  destruct (m1 s) as [[a1|e1] t1] eqn:E1; [|discriminate].
  destruct (m2 s) as [[a2|e2] t2] eqn:E2; [|discriminate].
  destruct (Hm _ _ _ _ _ E1 E2) as [HR ->].
  apply Hk; eauto.
Qed.

Lemma rel2_mapM {A B : Type} (R : B -> B -> Prop) (f1 f2 : A -> M B) (l : list A) :
  (forall a, rel2 R (f1 a) (f2 a)) -> rel2 (Forall2 R) (mapM f1 l) (mapM f2 l).
Proof.
  intros Hf. induction l as [|a l IH]; simpl.
  - apply rel2_ret. constructor.
  - eapply rel2_mbind; [apply Hf|]. intros b1 b2 Hb _.
    eapply rel2_mbind; [apply IH|]. intros bs1 bs2 Hbs _.
    apply rel2_ret. now constructor.
Qed.

Lemma rel2_slot {A : Type} (R : A -> A -> Prop) node (a : A) (m1 m2 : M A) :
  R a a -> rel2 R m1 m2 ->
  rel2 R (fun s => if slot_set node s then (Ok a, s)
                   else finally m1 (uninstall node) (install node s))
         (fun s => if slot_set node s then (Ok a, s)
                   else finally m2 (uninstall node) (install node s)).
Proof.
  intros Ha Hm s a1 s1 a2 s2. destruct (slot_set node s).
  { intros [= <- <-] [= <- <-]. split; [exact Ha | reflexivity]. }
  unfold finally. specialize (Hm (install node s)).
  destruct (m1 (install node s)) as [r1 t1]. destruct (m2 (install node s)) as [r2 t2].
  intros [= -> <-] [= -> <-].
  destruct (Hm _ _ _ _ eq_refl eq_refl) as [HR ->]. split; [exact HR | reflexivity].
Qed.

Lemma rel2_getChecker_of {R : Chk -> Chk -> Prop} callee (g1 g2 : TType -> M Chk) t :
  (forall t, rel2 R (g1 t) (g2 t)) ->
  rel2 R (getChecker_of callee g1 t) (getChecker_of callee g2 t).
Proof. intros H. destruct t; simpl; try apply H. apply rel2_throw_l. Qed.

Lemma Forall2_plain_of cs1 cs2 : Forall2 plain_of cs1 cs2 -> cs2 = map plainOf cs1.
Proof. induction 1 as [|c1 c2 l1 l2 H _ IH]; simpl; [reflexivity|]. now rewrite H, IH. Qed.

Lemma zip3_plainOf names cs req :
  zip3 names (map plainOf cs) req
  = map (fun p => (fst (fst p), plainOf (snd (fst p)), snd p)) (zip3 names cs req).
Proof.
  unfold zip3. revert cs req. induction names as [|n names IH]; intros [|c cs] [|r req];
    simpl; try reflexivity.
  f_equal. apply IH.
Qed.

Lemma zip3_length names cs req :
  List.length cs = List.length names -> List.length req = List.length names ->
  List.length (zip3 names cs req) = List.length cs.
Proof.
  unfold zip3. intros H1 H2. rewrite !length_combine. lia.
Qed.

Lemma getChecker_plainOf fuel pf suite :
  forall isPartial allowedProps t,
    rel2 plain_of (getChecker fuel pf suite true isPartial allowedProps t)
                  (getChecker fuel pf suite false isPartial allowedProps t).
Proof.
  induction fuel as [|f IH]; intros isPartial allowedProps t; [apply rel2_throw_l|].
  assert (Hlist : forall ip ap (l : list TType),
             rel2 (Forall2 plain_of) (mapM (getChecker f pf suite true ip ap) l)
                                     (mapM (getChecker f pf suite false ip ap) l))
    by (intros; apply rel2_mapM; intros; apply IH).
  destruct t; simpl.
  - apply rel2_ret. reflexivity.
  - (* TName *)
    apply (rel2_slot plain_of node (CThunk node)); [reflexivity|].
    eapply rel2_mbind; [apply rel2_same|]. intros t1 t2 <- _.
    eapply rel2_mbind; [apply IH|]. intros k1 k2 Hk _.
    destruct (is_Basic_or_Name t1); apply rel2_ret; unfold plain_of in *; subst k2;
      reflexivity.
  - apply rel2_ret. reflexivity.
  - (* TArray *)
    eapply rel2_mbind; [apply IH|]. intros k1 k2 Hk _.
    apply rel2_ret. unfold plain_of in *. now subst k2.
  - (* RestType *)
    eapply rel2_mbind; [apply rel2_same|]. intros t1 t2 <- _.
    destruct t1; try apply rel2_throw_l.
    eapply rel2_mbind; [apply IH|]. intros k1 k2 Hk _.
    apply rel2_ret. unfold plain_of in *. now subst k2.
  - (* TTuple *)
    eapply rel2_mbind; [apply Hlist|]. intros l1 l2 Hl _.
    apply Forall2_plain_of in Hl. subst l2.
    destruct _restType as [r0|].
    + eapply rel2_mbind; [apply IH|]. intros k1 k2 Hk _.
      apply rel2_ret. unfold plain_of in *. now subst k2.
    + apply rel2_ret. reflexivity.
  - (* TUnion *)
    eapply rel2_mbind; [apply Hlist|]. intros l1 l2 Hl _.
    apply Forall2_plain_of in Hl. subst l2. apply rel2_ret. reflexivity.
  - (* TIntersection *)
    eapply rel2_mbind; [apply rel2_same|]. intros a1 a2 <- _.
    eapply rel2_mbind; [apply Hlist|]. intros l1 l2 Hl _.
    apply Forall2_plain_of in Hl. subst l2. apply rel2_ret. reflexivity.
  - (* TPartial *)
    eapply rel2_mbind; [apply IH|]. intros k1 k2 Hk _.
    apply rel2_ret. unfold plain_of in *. now subst k2.
  - apply rel2_ret. reflexivity.
  - (* TEnumLiteral *)
    eapply rel2_mbind; [apply rel2_same|]. intros t1 t2 <- _.
    destruct t1; try apply rel2_throw_l.
    destruct (assoc "hasOwnProperty" members); [apply rel2_throw_l|].
    destruct (assoc prop members); [apply rel2_ret; reflexivity | apply rel2_throw_l].
  - (* TIface *)
    eapply rel2_mbind; [apply rel2_same|]. intros a1 a2 <- _.
    eapply rel2_mbind; [apply rel2_same|]. intros u1 u2 _ _.
    eapply rel2_mbind.
    { apply rel2_mapM. intros b.
      eapply rel2_mbind; [apply rel2_same|]. intros t1 t2 <- _.
      apply rel2_getChecker_of. intros. apply IH. }
    intros bl1 bl2 Hbl _. apply Forall2_plain_of in Hbl. subst bl2.
    eapply rel2_mbind.
    { apply (rel2_mapM plain_of). intros p. apply IH. }
    intros pl1 pl2 Hpl [sp [sp1 Hmap]]. apply Forall2_plain_of in Hpl. subst pl2.
    apply mapM_length in Hmap.
    eapply (rel2_mbind (fun i1 i2 => i2 = match i1 with Some c => Some (plainOf c)
                                                      | None => None end)).
    { destruct indexType as [it|]; [|apply rel2_ret; reflexivity].
      eapply rel2_mbind; [apply IH|]. intros k1 k2 Hk _.
      apply rel2_ret. unfold plain_of in *. now subst k2. }
    intros i1 i2 -> _.
    eapply (rel2_mbind eq).
    { intros s r1 s1 r2 s2 [= H1 <-] [= H2 <-]. split; [|reflexivity].
      eapply probe_required_plainOf; [|exact H1 | exact H2].
      rewrite length_map. congruence. }
    intros req1 req2 <- [sq [sq1 Hprobe]].
    apply rel2_ret. unfold plain_of. simpl.
    now rewrite zip3_plainOf.
  - (* TOptional *)
    eapply rel2_mbind; [apply IH|]. intros k1 k2 Hk _.
    apply rel2_ret. unfold plain_of in *. now subst k2.
  - apply rel2_ret. reflexivity.
  - (* TParamList *)
    eapply rel2_mbind.
    { apply (rel2_mapM plain_of). intros p. apply IH. }
    intros pl1 pl2 Hpl [sp [sp1 Hmap]]. apply Forall2_plain_of in Hpl. subst pl2.
    apply mapM_length in Hmap.
    eapply (rel2_mbind eq).
    { intros s r1 s1 r2 s2 [= H1 <-] [= H2 <-]. split; [|reflexivity].
      eapply probe_required_plainOf; [|exact H1 | exact H2].
      rewrite length_map. congruence. }
    intros req1 req2 <- _.
    apply rel2_ret. unfold plain_of. simpl. now rewrite zip3_plainOf.
  - (* not a type *)
    apply rel2_throw_l.
Qed.

(** *** A value the strict checker accepts is not rejected by the plain one *)

Lemma iface_true_inv f heap env bcs pcs ic strict isPartial a v :
  run NoopContext (S f) heap env (CIface bcs pcs ic strict isPartial a) v false
  = Ok (true, false) ->
  is_object v = true
  /\ fork_loop NoopContext (run NoopContext f heap env) bcs v false = Ok (true, false)
  /\ prop_loop NoopContext (run NoopContext f heap env) isPartial pcs v false
     = Ok (true, false)
  /\ match ic with
     | Some c => index_loop NoopContext (run NoopContext f heap env c) (for_in_keys v) v false
                 = Ok (true, false)
     | None => strict = true ->
               Forall (fun k => set_has (heap_get heap a) k = true) (for_in_keys v)
     end.
Proof.
  pose (call := run NoopContext f heap env).
  change (run NoopContext (S f) heap env (CIface bcs pcs ic strict isPartial a) v false)
    with (if negb (is_object v) then ret_fail NoopContext false KNull (Some "is not an object") 0
          else
            let* (go1, ctx1) := fork_loop NoopContext call bcs v false in
            if negb go1 then Ok (false, ctx1) else
            let* (go2, ctx2) := prop_loop NoopContext call isPartial pcs v ctx1 in
            if negb go2 then Ok (false, ctx2) else
            let* (go3, ctx3) :=
              match ic with
              | Some c => index_loop NoopContext (call c) (for_in_keys v) v ctx2
              | None =>
                  if strict
                  then Ok (extraneous_loop NoopContext (heap_get heap a) (for_in_keys v) ctx2)
                  else Ok (true, ctx2)
              end in
            if negb go3 then Ok (false, ctx3)
            else Ok (negb (failed NoopContext ctx3), ctx3)).
  fold call.
  destruct (is_object v); cbn [negb]; [|discriminate].
  destruct (fork_loop NoopContext call bcs v false) as [[g1 c1]|e] eqn:E1; simpl;
    [|discriminate].
  pose proof (fork_loop_go NoopContext NoopContext_laws _ _ _ _ _ _ E1) as ->. cbn [negb].
  destruct (prop_loop NoopContext call isPartial pcs v c1) as [[g2 c2]|e] eqn:E2; simpl;
    [|discriminate].
  pose proof (prop_loop_go NoopContext NoopContext_laws _ _ _ _ _ _ _ E2) as ->. cbn [negb].
  intros H.
  assert (H3 : (match ic with
                | Some c => index_loop NoopContext (call c) (for_in_keys v) v c2
                | None => if strict
                          then Ok (extraneous_loop NoopContext (heap_get heap a)
                                     (for_in_keys v) c2)
                          else Ok (true, c2)
                end) = Ok (true, false)).
  { destruct (match ic with Some _ => _ | None => _ end) as [[g3 c3]|e]; simpl in H;
      [|discriminate].
    destruct g3; cbn [negb] in H; [|discriminate].
    injection H as H <-. now destruct c3. }
  assert (Hc2 : c2 = false).
  { destruct c2; [|reflexivity]. exfalso. destruct ic as [c|].
    - apply (index_loop_failed_mono NoopContext NoopContext_laws) in H3; [|reflexivity].
      discriminate.
    - destruct strict.
      + pose proof (extraneous_loop_failed_mono NoopContext NoopContext_laws
                      (heap_get heap a) (for_in_keys v) true eq_refl) as Hm.
        injection H3 as H3. rewrite H3 in Hm. discriminate.
      + discriminate. }
  subst c2.
  assert (Hc1 : c1 = false).
  { destruct c1; [|reflexivity].
    apply (prop_loop_failed_mono NoopContext NoopContext_laws) in E2; [|reflexivity].
    discriminate. }
  subst c1. split; [reflexivity|]. split; [reflexivity|]. split; [exact E2|].
  destruct ic; [exact H3|]. intros ->. injection H3 as H3.
  now apply noop_extraneous_loop_iff.
Qed.

Section StrictPlainLoops.
Variables calls callp : Chk -> CheckerFunc (C := bool).
Hypothesis Hinv : forall c v b n, calls c v false = Ok (b, n) -> n = negb b.
Hypothesis Hsp : forall c v,
  calls c v false = Ok (true, false) -> not_rejected (callp (plainOf c) v false).

Lemma sp_array_loop c items i :
  array_loop NoopContext (calls c) items i false = Ok (true, false) ->
  not_rejected (array_loop NoopContext (callp (plainOf c)) items i false).
Proof.
  revert i. induction items as [|x items IH]; intros i; simpl; [intros _; now split|].
  destruct (calls c x false) as [[b n]|e] eqn:E; simpl; [|discriminate].
  pose proof (Hinv _ _ _ _ E) as ->. destruct b; simpl; [|discriminate].
  intros H. pose proof (Hsp _ _ E) as Hp.
  destruct (callp (plainOf c) x false) as [[b' n']|e']; simpl; [|exact I].
  destruct Hp as [-> ->]. now apply IH.
Qed.

Lemma sp_tuple_loop cs items i :
  tuple_loop NoopContext calls cs items i false = Ok (true, false) ->
  not_rejected (tuple_loop NoopContext callp (map plainOf cs) items i false).
Proof.
  revert i. induction cs as [|c cs IH]; intros i; simpl; [intros _; now split|].
  destruct (calls c (get_index items i) false) as [[b n]|e] eqn:E; simpl; [|discriminate].
  pose proof (Hinv _ _ _ _ E) as ->. destruct b; simpl; [|discriminate].
  intros H. pose proof (Hsp _ _ E) as Hp.
  destruct (callp (plainOf c) (get_index items i) false) as [[b' n']|e']; simpl; [|exact I].
  destruct Hp as [-> ->]. now apply IH.
Qed.

Lemma sp_param_loop pcs items i :
  param_loop NoopContext calls pcs items i false = Ok (true, false) ->
  not_rejected
    (param_loop NoopContext callp
       (map (fun p => (fst (fst p), plainOf (snd (fst p)), snd p)) pcs) items i false).
Proof.
  revert i. induction pcs as [|[[pn c] r] pcs IH]; intros i; simpl; [intros _; now split|].
  destruct (is_undefined (get_index items i)).
  { destruct r; [discriminate | apply IH]. }
  destruct (calls c (get_index items i) false) as [[b n]|e] eqn:E; simpl; [|discriminate].
  pose proof (Hinv _ _ _ _ E) as ->. destruct b; simpl; [|discriminate].
  intros H. pose proof (Hsp _ _ E) as Hp.
  destruct (callp (plainOf c) (get_index items i) false) as [[b' n']|e']; simpl; [|exact I].
  destruct Hp as [-> ->]. now apply IH.
Qed.

Lemma sp_fork_loop cs v :
  fork_loop NoopContext calls cs v false = Ok (true, false) ->
  not_rejected (fork_loop NoopContext callp (map plainOf cs) v false).
Proof.
  intros H. apply (noop_fork_loop_iff calls Hinv) in H.
  induction H as [|c cs Hc _ IH]; simpl; [now split|].
  pose proof (Hsp _ _ Hc) as Hp.
  destruct (callp (plainOf c) v false) as [[b' n']|e']; simpl; [|exact I].
  destruct Hp as [-> ->]. exact IH.
Qed.

Lemma sp_prop_loop isPartial pcs v :
  prop_loop NoopContext calls isPartial pcs v false = Ok (true, false) ->
  not_rejected
    (prop_loop NoopContext callp isPartial
       (map (fun p => (fst (fst p), plainOf (snd (fst p)), snd p)) pcs) v false).
Proof.
  intros H. apply (noop_prop_loop_iff calls Hinv) in H.
  induction H as [|[[name c] r] ps Hp _ IH]; simpl; [now split|].
  simpl in Hp. destruct (is_undefined (get_prop v name)).
  - rewrite Hp. exact IH.
  - pose proof (Hsp _ _ Hp) as Hq.
    destruct (callp (plainOf c) (get_prop v name) false) as [[b' n']|e']; simpl; [|exact I].
    destruct Hq as [-> ->]. exact IH.
Qed.

Lemma sp_index_loop c keys v :
  index_loop NoopContext (calls c) keys v false = Ok (true, false) ->
  not_rejected (index_loop NoopContext (callp (plainOf c)) keys v false).
Proof.
  intros H. apply (noop_index_loop_iff calls Hinv) in H.
  induction H as [|k ks Hk _ IH]; simpl; [now split|].
  pose proof (Hsp _ _ Hk) as Hq.
  destruct (callp (plainOf c) (get_prop v k) false) as [[b' n']|e']; simpl; [|exact I].
  destruct Hq as [-> ->]. exact IH.
Qed.

Lemma sp_union_loop cs v u u' :
  union_loop NoopContext calls cs v u = Ok (true, u') ->
  match union_loop NoopContext callp (map plainOf cs) v u with
  | Ok (b, _) => b = true
  | Err _ => True
  end.
Proof.
  revert u. induction cs as [|c cs IH]; intros u; simpl; [discriminate|].
  destruct (calls c v false) as [[b n]|e] eqn:E; simpl; [|discriminate].
  destruct (callp (plainOf c) v false) as [[b' n']|e'] eqn:E'; simpl; [|intros _; exact I].
  destruct b'; [reflexivity|].
  destruct b.
  - pose proof (Hinv _ _ _ _ E) as ->. pose proof (Hsp _ _ E) as Hp.
    rewrite E' in Hp. destruct Hp as [Hp _]. discriminate.
  - apply IH.
Qed.
End StrictPlainLoops.

Lemma strict_true_plain fs :
  forall heap env c v,
    run NoopContext fs heap env c v false = Ok (true, false) ->
    forall fp heap',
      not_rejected (run NoopContext fp heap' (plainCells env) (plainOf c) v false).
Proof.
  induction fs as [|f IH]; intros heap env c v H fp heap'; [discriminate|].
  assert (Hinv : forall c v b n, run NoopContext f heap env c v false = Ok (b, n) -> n = negb b)
    by (intros; eapply run_noop_inv; eauto).
  assert (Hsp : forall fp c v, run NoopContext f heap env c v false = Ok (true, false) ->
                  not_rejected (run NoopContext fp heap' (plainCells env) (plainOf c) v false))
    by (intros; eapply IH; eauto).
  destruct c as [validator message|node|node cf|c msg|lit msg|c|c start|cs|c1 c2|c n|cs msg|cs
                |c|c|vals msg|val msg|bcs pcs ic strict isPartial a| |pcs].
  - (* CBasic *)
    destruct fp as [|fp]; [exact I|]. simpl in *.
    destruct (validator v); [now split | discriminate].
  - (* CThunk *)
    simpl in H. destruct (cell env node) as [cf|] eqn:Ec; [|discriminate].
    destruct fp as [|fp]; [exact I|]. simpl. rewrite cell_plainCells, Ec.
    now apply Hsp.
  - (* CNamed *)
    simpl in H. destruct fp as [|fp]; [exact I|].
    exact (IH heap ((node, cf) :: env) cf v H fp heap').
  - (* CNameFail *)
    simpl in H. destruct (run NoopContext f heap env c v false) as [[b n]|e] eqn:E;
      simpl in H; [|discriminate].
    destruct b; [|discriminate]. injection H as ->.
    destruct fp as [|fp]; [exact I|]. simpl.
    pose proof (Hsp fp _ _ E) as Hp.
    destruct (run NoopContext fp heap' (plainCells env) (plainOf c) v false) as [[b' n']|e'];
      simpl; [|exact I].
    destruct Hp as [-> ->]. now split.
  - (* CLiteral *)
    destruct fp as [|fp]; [exact I|]. simpl in *.
    destruct (strict_eq v lit); [now split | discriminate].
  - (* CArray *)
    destruct fp as [|fp]; [exact I|].
    destruct v as [| |vb|vn|vs| |items|vprops]; try discriminate.
    simpl in *. apply (sp_array_loop (run NoopContext f heap env)
             (run NoopContext fp heap' (plainCells env)) Hinv (Hsp fp)). exact H.
  - (* CRest *)
    destruct fp as [|fp]; [exact I|].
    destruct v as [| |vb|vn|vs| |items|vprops]; try discriminate;
      destruct start as [st|]; try discriminate; simpl in *; try (now split).
    apply (sp_array_loop (run NoopContext f heap env)
             (run NoopContext fp heap' (plainCells env)) Hinv (Hsp fp)). exact H.
  - (* CTuple *)
    destruct fp as [|fp]; [exact I|].
    destruct v as [| |vb|vn|vs| |items|vprops]; try discriminate.
    simpl in *. apply (sp_tuple_loop (run NoopContext f heap env)
             (run NoopContext fp heap' (plainCells env)) Hinv (Hsp fp)). exact H.
  - (* CTupleRest *)
    simpl in H. destruct (run NoopContext f heap env c1 v false) as [[b n]|e] eqn:E;
      simpl in H; [|discriminate].
    pose proof (Hinv _ _ _ _ E) as ->.
    destruct b; [|discriminate]. simpl in H.
    destruct fp as [|fp]; [exact I|]. simpl.
    pose proof (Hsp fp _ _ E) as Hp.
    destruct (run NoopContext fp heap' (plainCells env) (plainOf c1) v false) as [[b' n']|e'];
      simpl; [|exact I].
    destruct Hp as [-> ->]. now apply Hsp.
  - (* CExtraneous *)
    simpl in H. destruct (run NoopContext f heap env c v false) as [[b n0]|e] eqn:E;
      simpl in H; [|discriminate].
    pose proof (Hinv _ _ _ _ E) as ->.
    destruct b; [|discriminate]. simpl. now apply Hsp.
  - (* CUnion *)
    simpl in H.
    destruct (union_loop NoopContext (run NoopContext f heap env) cs v tt) as [[b u]|e] eqn:E;
      simpl in H; [|discriminate].
    destruct b; [|discriminate].
    destruct fp as [|fp]; [exact I|]. simpl.
    pose proof (sp_union_loop (run NoopContext f heap env)
                  (run NoopContext fp heap' (plainCells env)) Hinv (Hsp fp) _ _ _ _ E) as Hp.
    destruct (union_loop NoopContext _ (map plainOf cs) v tt) as [[b' u']|e']; simpl;
      [|exact I].
    subst b'. now split.
  - (* CIntersection *)
    simpl in H.
    destruct (fork_loop NoopContext (run NoopContext f heap env) cs v false) as [[g c1]|e] eqn:E;
      simpl in H; [|discriminate].
    injection H as Hg ->. rewrite andb_true_r in Hg. subst g.
    destruct fp as [|fp]; [exact I|]. simpl.
    pose proof (sp_fork_loop (run NoopContext f heap env)
                  (run NoopContext fp heap' (plainCells env)) Hinv (Hsp fp) _ _ E) as Hp.
    destruct (fork_loop NoopContext _ (map plainOf cs) v false) as [[b' n']|e']; simpl;
      [|exact I].
    destruct Hp as [-> ->]. now split.
  - (* CPartial *)
    destruct fp as [|fp]; [exact I|]. simpl in *.
    destruct (is_undefined v); [now split | now apply Hsp].
  - (* COptional *)
    destruct fp as [|fp]; [exact I|]. simpl in *.
    destruct (is_undefined v); [now split | now apply Hsp].
  - (* CEnumType *)
    destruct fp as [|fp]; [exact I|]. simpl in *.
    destruct (existsb _ vals); [now split | discriminate].
  - (* CEnumLiteral *)
    destruct fp as [|fp]; [exact I|]. simpl in *.
    destruct (strict_eq v val); [now split | discriminate].
  - (* CIface *)
    apply iface_true_inv in H. destruct H as (Ho & H1 & H2 & H3).
    destruct fp as [|fp]; [exact I|]. simpl. rewrite Ho. simpl.
    pose proof (sp_fork_loop (run NoopContext f heap env)
                  (run NoopContext fp heap' (plainCells env)) Hinv (Hsp fp) _ _ H1) as Hp1.
    destruct (fork_loop NoopContext _ (map plainOf bcs) v false) as [[b1 n1]|e1]; simpl;
      [|exact I].
    destruct Hp1 as [-> ->]. simpl.
    pose proof (sp_prop_loop (run NoopContext f heap env)
                  (run NoopContext fp heap' (plainCells env)) Hinv (Hsp fp) _ _ _ H2) as Hp2.
    destruct (prop_loop NoopContext (run NoopContext fp heap' (plainCells env)) isPartial _ v
                false) as [[b2 n2]|e2]; simpl;
      [|exact I].
    destruct Hp2 as [-> ->]. simpl.
    destruct ic as [c|]; simpl; [|now split].
    pose proof (sp_index_loop (run NoopContext f heap env)
                  (run NoopContext fp heap' (plainCells env)) Hinv (Hsp fp) _ _ _ H3) as Hp3.
    destruct (index_loop NoopContext (run NoopContext fp heap' (plainCells env) (plainOf c))
                (for_in_keys v) v false) as [[b3 n3]|e3]; simpl;
      [|exact I].
    destruct Hp3 as [-> ->]. now split.
  - (* CFunc *)
    destruct fp as [|fp]; [exact I|]. simpl in *.
    destruct (is_function v); [now split | discriminate].
  - (* CParamList *)
    destruct fp as [|fp]; [exact I|].
    destruct v as [| |vb|vn|vs| |items|vprops]; try discriminate.
    simpl in *. apply (sp_param_loop (run NoopContext f heap env)
             (run NoopContext fp heap' (plainCells env)) Hinv (Hsp fp)). exact H.
Qed.

(** X11. Strict mode only adds rejections.  For a [Checker] built by the
    constructor, a value that [strictTest] accepts is accepted by [test]
    too, whenever [test] returns: the plain checker is the strict one
    without the extraneous-element and extraneous-property checks, and the
    required-ness of properties and parameters, probed at compile time, is
    the same in both modes. *)
Theorem strict_test_implies_test
  (fuel pfuel : nat) (suite : ITypeSuite) (t : TType) (root : string) (this : Checker)
  (f1 f2 : nat) (v : value) (b : bool) :
  new_Checker fuel pfuel suite t root = Ok this ->
  strictTest f1 this v = Ok true ->
  test f2 this v = Ok b ->
  b = true.
Proof.
  unfold new_Checker, compile.
  destruct (getChecker fuel pfuel suite false false None t {| building := []; sets := [] |})
    as [[cp|ep] sp] eqn:Ep; simpl; [|discriminate].
  destruct (getChecker fuel pfuel suite true false None t {| building := []; sets := [] |})
    as [[cs|es] ss] eqn:Es; simpl; [|discriminate].
  destruct (getChecker_plainOf fuel pfuel suite false None t _ _ _ _ _ Es Ep) as [Hc Hs].
  unfold plain_of in Hc. subst cp sp.
  intros [= <-]. unfold strictTest, test, apply. simpl.
  destruct (run NoopContext f1 (sets ss) [] cs v newNoop) as [[b1 n1]|e1] eqn:E1; simpl;
    [|discriminate].
  intros [= ->].
  pose proof (run_noop_inv _ _ _ _ _ _ _ E1) as Hn. simpl in Hn. subst n1.
  pose proof (strict_true_plain _ _ _ _ _ E1 f2 (sets ss)) as Hp. simpl in Hp.
  unfold newNoop.
  destruct (run NoopContext f2 (sets ss) [] (plainOf cs) v false) as [[b2 n2]|e2]; simpl;
    [|discriminate].
  intros [= <-]. now destruct Hp.
Qed.

Lemma strict_test_implies_test_witness :
  new_Checker 10 10 personSuite Person "value" = Ok personChecker
  /\ strictTest 10 personChecker alice = Ok true
  /\ test 10 personChecker alice = Ok true
  /\ true = true.
Proof.
  split; [vm_compute; reflexivity|]. split; [vm_compute; reflexivity|].
  split; [vm_compute; reflexivity|].
  apply (strict_test_implies_test 10 10 personSuite Person "value" personChecker 10 10 alice
           true); vm_compute; reflexivity.
Defined.

(** ** Compilation *)

(** X12. Compiling a type leaves every [_checkerBeingBuilt] slot as it
    found it, whether [getChecker] returns or throws (the [try]/[finally] of
    [TName.getChecker]): a compilation that fails leaves no trampoline
    behind for the next one. *)
Theorem compile_restores_slots
  (fuel pfuel : nat) (suite : ITypeSuite) (strict isPartial : bool)
  (allowedProps : option nat) (t : TType) (s : CompileState) :
  building (snd (getChecker fuel pfuel suite strict isPartial allowedProps t s)) = building s.
Proof.
  exact (getChecker_preserves fuel pfuel suite strict isPartial allowedProps t s).
Qed.

(** ** [createCheckers] *)

Lemma assoc_app {A : Type} k (l1 l2 : list (string * A)) :
  assoc k (l1 ++ l2)%list = match assoc k l1 with Some a => Some a | None => assoc k l2 end.
Proof.
  induction l1 as [|[k' a] l1 IH]; simpl; [reflexivity|].
  destruct (String.eqb k k'); [reflexivity | exact IH].
Qed.

Lemma assoc_set_entry {A : Type} k (o : list (string * A)) name a :
  assoc k (set_entry o name a) = if String.eqb k name then Some a else assoc k o.
Proof.
  induction o as [|[k' a'] o IH]; simpl.
  - reflexivity.
  - destruct (String.eqb name k') eqn:E; simpl.
    + apply String.eqb_eq in E. subst k'. now destruct (String.eqb k name).
    + rewrite IH. destruct (String.eqb k name) eqn:E1; [|reflexivity].
      apply String.eqb_eq in E1. subst k. now rewrite E.
Qed.

Lemma assoc_Some_In {A : Type} k (l : list (string * A)) a :
  assoc k l = Some a -> In (k, a) l.
Proof.
  induction l as [|[k' a'] l IH]; simpl; [discriminate|].
  destruct (String.eqb k k') eqn:E.
  - apply String.eqb_eq in E. subst k'. intros [= ->]. now left.
  - intros H. right. now apply IH.
Qed.

Lemma assoc_None_notin {A : Type} k (l : list (string * A)) :
  assoc k l = None -> ~ In k (map fst l).
Proof.
  induction l as [|[k' a'] l IH]; simpl; [tauto|].
  destruct (String.eqb k k') eqn:E; [discriminate|].
  apply String.eqb_neq in E. intros H [Hk|Hk]; [congruence | now apply IH].
Qed.

Lemma In_assoc_NoDup {A : Type} k (l : list (string * A)) a :
  NoDup (map fst l) -> In (k, a) l -> assoc k l = Some a.
Proof.
  induction l as [|[k' a'] l IH]; simpl; [tauto|].
  intros Hnd [Hin|Hin].
  - injection Hin as -> ->. now rewrite String.eqb_refl.
  - inversion Hnd as [|x xs Hx Hnd']; subst.
    destruct (String.eqb k k') eqn:E.
    + apply String.eqb_eq in E. subst k'. exfalso. apply Hx.
      change k with (fst (k, a)). now apply in_map.
    + now apply IH.
Qed.

Lemma assoc_rev_NoDup {A : Type} k (l : list (string * A)) :
  NoDup (map fst l) -> assoc k (rev l) = assoc k l.
Proof.
  intros Hnd.
  assert (Hnd' : NoDup (map fst (rev l))) by (rewrite map_rev; now apply NoDup_rev).
  destruct (assoc k l) as [a|] eqn:E.
  - apply In_assoc_NoDup; [exact Hnd'|]. apply in_rev. rewrite rev_involutive.
    now apply assoc_Some_In.
  - destruct (assoc k (rev l)) as [a|] eqn:E'; [|reflexivity].
    apply assoc_Some_In in E'. apply in_rev in E'.
    apply (In_assoc_NoDup _ _ _ Hnd) in E'. congruence.
Qed.

Lemma assoc_rev_concat k (suites : list ITypeSuite) :
  Forall (fun s => NoDup (map fst s)) suites ->
  assoc k (rev (List.concat suites)) = assoc k (List.concat (rev suites)).
Proof.
  induction 1 as [|s suites Hs _ IH]; simpl; [reflexivity|].
  rewrite rev_app_distr, concat_app, !assoc_app, IH. simpl. rewrite app_nil_r.
  now rewrite assoc_rev_NoDup.
Qed.

Lemma new_Checker_fields fuel pfuel full t root this :
  new_Checker fuel pfuel full t root = Ok this ->
  suite this = full /\ ttype this = t /\ _path this = root.
Proof.
  unfold new_Checker.
  destruct (compile fuel pfuel full false t) as [p|e]; simpl; [|discriminate].
  destruct (compile fuel pfuel full true t) as [q|e]; simpl; [|discriminate].
  intros [= <-]. auto.
Qed.

Lemma createCheckers_loop_spec fuel pfuel full entries :
  forall checkers out,
    createCheckers_loop fuel pfuel full entries checkers = Ok out ->
    forall name,
      match assoc name (rev entries) with
      | Some t => exists c, new_Checker fuel pfuel full t "value" = Ok c
                            /\ assoc name out = Some c
      | None => assoc name out = assoc name checkers
      end.
Proof.
  induction entries as [|[n t] entries IH]; intros checkers out; simpl.
  - intros [= <-] name. reflexivity.
  - destruct (new_Checker fuel pfuel full t "value") as [c|e] eqn:Ec; simpl; [|discriminate].
    intros H name. specialize (IH _ _ H name). rewrite assoc_app.
    destruct (assoc name (rev entries)) as [t'|]; [exact IH|].
    simpl. rewrite IH, assoc_set_entry.
    destruct (String.eqb name n); [|reflexivity].
    exists c. split; [exact Ec | reflexivity].
Qed.

(** X13. [createCheckers] gives each name the checker of the type that the
    name refers to.  When the suites are objects (no name twice in one
    suite) and [createCheckers] returns, the checker found under a name was
    built over the full suite, reports under the path ["value"], and is a
    checker of the type that the full suite gives that name, which is the
    type other types get when they refer to it; a name has no checker only
    if no suite defines it. *)
Theorem createCheckers_follow_full_suite
  (fuel pfuel : nat) (typeSuite : list ITypeSuite) (checkers : list (string * Checker))
  (name : string) :
  Forall (fun s => NoDup (map fst s)) typeSuite ->
  createCheckers fuel pfuel typeSuite = Ok checkers ->
  (forall c, assoc name checkers = Some c ->
     suite c = fullSuite typeSuite
     /\ _path c = "value"
     /\ getNamedType (fullSuite typeSuite) name = Ok (ttype c)
     /\ new_Checker fuel pfuel (fullSuite typeSuite) (ttype c) "value" = Ok c)
  /\ (assoc name checkers = None ->
      forall s, In s typeSuite -> assoc name s = None).
Proof.
  intros Hnd H. unfold createCheckers in H.
  pose proof (createCheckers_loop_spec _ _ _ _ _ _ H name) as Hspec.
  rewrite (assoc_rev_concat _ _ Hnd) in Hspec.
  split.
  - intros c Hc.
    destruct (assoc name (List.concat (rev typeSuite))) as [t|] eqn:Et.
    + destruct Hspec as (c' & Hnew & Hout). rewrite Hc in Hout. injection Hout as <-.
      destruct (new_Checker_fields _ _ _ _ _ _ Hnew) as (Hs & Ht & Hp).
      split; [exact Hs|]. split; [exact Hp|]. rewrite Ht.
      split; [|exact Hnew].
      unfold getNamedType, fullSuite. now rewrite assoc_app, Et.
    + rewrite Hc in Hspec. discriminate.
  - intros Hnone s Hs.
    destruct (assoc name (List.concat (rev typeSuite))) as [t|] eqn:Et.
    + destruct Hspec as (c' & _ & Hout). congruence.
    + destruct (assoc name s) as [t|] eqn:Es; [|reflexivity]. exfalso.
      apply assoc_None_notin in Et. apply Et.
      apply assoc_Some_In in Es.
      rewrite concat_map, in_concat. exists (map fst s). split.
      * apply in_map. now apply -> in_rev.
      * change name with (fst (name, t)). now apply in_map.
Qed.

Lemma createCheckers_follow_full_suite_witness :
  Forall (fun s : ITypeSuite => NoDup (map fst s)) [[("Person", Person)]]
  /\ createCheckers 10 10 [[("Person", Person)]] = Ok [("Person", personChecker)]
  /\ getNamedType (fullSuite [[("Person", Person)]]) "Person" = Ok (ttype personChecker).
Proof.
  assert (Hnd : Forall (fun s : ITypeSuite => NoDup (map fst s)) [[("Person", Person)]]).
  { constructor; [|constructor]. simpl. constructor; [intros []|constructor]. }
  assert (Hc : createCheckers 10 10 [[("Person", Person)]] = Ok [("Person", personChecker)])
    by (vm_compute; reflexivity).
  split; [exact Hnd|]. split; [exact Hc|].
  exact (proj1 (proj2 (proj2 (proj1 (createCheckers_follow_full_suite 10 10
                  [[("Person", Person)]] [("Person", personChecker)] "Person" Hnd Hc)
                  personChecker eq_refl)))).
Defined.

(** ** Enum types and enum literals *)

Lemma new_Checker_stateless fuel pfuel full t root c :
  (forall strict,
     getChecker fuel pfuel full strict false None t {| building := []; sets := [] |}
     = (Ok c, {| building := []; sets := [] |})) ->
  new_Checker fuel pfuel full t root
  = Ok {| suite := full; ttype := t; _path := root;
          checkerPlain := (c, []); checkerStrict := (c, []) |}.
Proof.
  intros H. unfold new_Checker, compile. now rewrite !H.
Qed.

Lemma strict_eq_same_value_zero v val :
  strict_eq v val = true -> same_value_zero v val = true.
Proof.
  destruct v as [| |b|[z|]|s0| |items|props], val as [| |b'|[z'|]|s'| |items'|props'];
    simpl; auto; discriminate.
Qed.

Lemma same_value_zero_not_NaN v val :
  v <> VNumber NaN -> same_value_zero v val = strict_eq v val.
Proof.
  destruct v as [| |b|[z|]|s0| |items|props]; try reflexivity.
  intros H. now destruct H.
Qed.

Lemma strict_eq_NaN val : strict_eq (VNumber NaN) val = false.
Proof. now destruct val as [| |b'|[z'|]|s'| |items'|props']. Qed.

Lemma existsb_members (eq : value -> value -> bool) v (members : list (string * value)) :
  NoDup (map fst members) ->
  existsb (eq v) (map snd members) = true
  <-> exists prop val, assoc prop members = Some val /\ eq v val = true.
Proof.
  intros Hnd. rewrite existsb_exists. split.
  - intros (val & Hin & Hv). apply in_map_iff in Hin. destruct Hin as ([prop val'] & <- & Hin).
    exists prop, val'. split; [now apply In_assoc_NoDup | exact Hv].
  - intros (prop & val & Ha & Hv). exists val. split; [|exact Hv].
    apply assoc_Some_In in Ha. change val with (snd (prop, val)). now apply in_map.
Qed.

(** X14. Enum types and their literals.  With [enumName] naming an enum
    type in the suite that has no member named [hasOwnProperty] (the
    method [TEnumLiteral.getChecker] calls on the members object): the
    checker of [enumlit(enumName, prop)] accepts
    exactly the values strictly equal ([===]) to the member's value, in both
    modes, and its construction throws "Unknown value ..." when the enum has
    no such member; the checker of the enum type accepts exactly the values
    that [Set.has] finds among the members' values.  So the enum type
    accepts every value that the literal of some member accepts, and a
    value other than [NaN] that the enum type accepts is accepted by the
    literal of some member; [NaN] is accepted by the enum type when a
    member's value is [NaN], and by no literal. *)
Theorem enum_type_and_literals
  (fuel pfuel f : nat) (full : ITypeSuite) (enumName : string)
  (members : list (string * value)) (root : string) (v : value) :
  getNamedType full enumName = Ok (TEnumType members) ->
  NoDup (map fst members) ->
  assoc "hasOwnProperty" members = None ->
  (forall prop,
     match assoc prop members with
     | Some val =>
         exists lit,
           new_Checker (S fuel) pfuel full (TEnumLiteral enumName prop) root = Ok lit
           /\ test (S f) lit v = Ok (strict_eq v val)
           /\ strictTest (S f) lit v = Ok (strict_eq v val)
     | None =>
         new_Checker (S fuel) pfuel full (TEnumLiteral enumName prop) root
         = Err (Error ("Unknown value " ++ enumName ++ "." ++ prop ++ " used in enumlit"))
     end)
  /\ exists enum,
       new_Checker (S fuel) pfuel full (TEnumType members) root = Ok enum
       /\ test (S f) enum v = Ok (existsb (same_value_zero v) (map snd members))
       /\ strictTest (S f) enum v = Ok (existsb (same_value_zero v) (map snd members))
       /\ ((exists prop lit,
              new_Checker (S fuel) pfuel full (TEnumLiteral enumName prop) root = Ok lit
              /\ test (S f) lit v = Ok true) ->
           test (S f) enum v = Ok true)
       /\ (v <> VNumber NaN -> test (S f) enum v = Ok true ->
           exists prop lit,
             new_Checker (S fuel) pfuel full (TEnumLiteral enumName prop) root = Ok lit
             /\ test (S f) lit v = Ok true)
       /\ (v = VNumber NaN ->
           (test (S f) enum v = Ok true <-> In (VNumber NaN) (map snd members))
           /\ forall prop lit,
                new_Checker (S fuel) pfuel full (TEnumLiteral enumName prop) root = Ok lit ->
                test (S f) lit v = Ok false).
Proof.
  intros Hname Hnd Hown.
  assert (Hlit : forall prop,
     match assoc prop members with
     | Some val =>
         exists lit,
           new_Checker (S fuel) pfuel full (TEnumLiteral enumName prop) root = Ok lit
           /\ test (S f) lit v = Ok (strict_eq v val)
           /\ strictTest (S f) lit v = Ok (strict_eq v val)
     | None =>
         new_Checker (S fuel) pfuel full (TEnumLiteral enumName prop) root
         = Err (Error ("Unknown value " ++ enumName ++ "." ++ prop ++ " used in enumlit"))
     end).
  { intros prop. destruct (assoc prop members) as [val|] eqn:Ea.
    - eexists. split.
      + apply new_Checker_stateless. intros strict. simpl. unfold mbind, lift.
        rewrite Hname, Hown, Ea. reflexivity.
      + unfold test, strictTest, apply. simpl.
        destruct (strict_eq v val); split; reflexivity.
    - unfold new_Checker, compile. simpl. unfold mbind, lift. rewrite Hname, Hown, Ea.
      reflexivity. }
  split; [exact Hlit|].
  assert (Hlit' : forall prop lit,
             new_Checker (S fuel) pfuel full (TEnumLiteral enumName prop) root = Ok lit ->
             exists val, assoc prop members = Some val
                         /\ test (S f) lit v = Ok (strict_eq v val)).
  { intros prop lit Hnew. specialize (Hlit prop).
    destruct (assoc prop members) as [val|].
    - destruct Hlit as (lit' & Hnew' & Ht' & _). rewrite Hnew in Hnew'.
      injection Hnew' as <-. now exists val.
    - rewrite Hnew in Hlit. discriminate. }
  set (enum := {| suite := full; ttype := TEnumType members; _path := root;
                  checkerPlain := (CEnumType (map snd members) "is not a valid enum value", []);
                  checkerStrict := (CEnumType (map snd members) "is not a valid enum value", [])
               |}).
  assert (Ht : test (S f) enum v = Ok (existsb (same_value_zero v) (map snd members))).
  { unfold test, apply. simpl.
    now destruct (existsb (same_value_zero v) (map snd members)). }
  assert (Hs : strictTest (S f) enum v = Ok (existsb (same_value_zero v) (map snd members))).
  { unfold strictTest, apply. simpl.
    now destruct (existsb (same_value_zero v) (map snd members)). }
  exists enum. split.
  { apply new_Checker_stateless. intros strict. reflexivity. }
  rewrite Ht. split; [reflexivity|]. split; [exact Hs|]. clear Ht Hs. split; [|split].
  - intros (prop & lit & Hnew & Ht). f_equal.
    destruct (Hlit' _ _ Hnew) as (val & Ha & Ht'). rewrite Ht in Ht'. injection Ht' as Hv.
    apply (existsb_members same_value_zero _ _ Hnd). exists prop, val.
    split; [exact Ha | now apply strict_eq_same_value_zero].
  - intros Hv He. injection He as He.
    apply (existsb_members same_value_zero _ _ Hnd) in He.
    destruct He as (prop & val & Ha & Hs). rewrite (same_value_zero_not_NaN _ _ Hv) in Hs.
    specialize (Hlit prop). rewrite Ha in Hlit. destruct Hlit as (lit & Hnew & Ht & _).
    exists prop, lit. rewrite Ht, Hs. auto.
  - intros ->. split.
    + split.
      * intros He. injection He as He. apply existsb_exists in He.
        destruct He as (val & Hin & Hs).
        destruct val as [| |b'|[z'|]|s'| |items'|props']; try discriminate. exact Hin.
      * intros Hin. f_equal. apply existsb_exists.
        exists (VNumber NaN). split; [exact Hin | reflexivity].
    + intros prop lit Hnew. destruct (Hlit' _ _ Hnew) as (val & _ & Ht).
      now rewrite Ht, strict_eq_NaN.
Qed.

Lemma enum_type_and_literals_witness :
  getNamedType directionSuite "Direction" = Ok (TEnumType [("Up", VNumber 1); ("Down", VNumber 2)])
  /\ exists lit,
       new_Checker 2 2 directionSuite (TEnumLiteral "Direction" "Down") "value" = Ok lit
       /\ test 2 lit (VNumber 2) = Ok true.
Proof.
  split; [reflexivity|].
  assert (Hnd : NoDup (map fst [("Up", VNumber 1); ("Down", VNumber 2)])).
  { simpl. constructor; [simpl; intros [H|[]]; discriminate|].
    constructor; [intros []|constructor]. }
  destruct (proj1 (enum_type_and_literals 1 2 1 directionSuite "Direction"
                     [("Up", VNumber 1); ("Down", VNumber 2)] "value" (VNumber 2)
                     eq_refl Hnd eq_refl) "Down") as (lit & Hnew & Ht & _).
  exists lit. split; [exact Hnew | exact Ht].
Defined.

(** ** Checkers of properties and methods *)

Lemma new_Checker_TFunc fuel pfuel full paramList result root :
  new_Checker (S fuel) pfuel full (TFunc paramList result) root
  = Ok {| suite := full; ttype := TFunc paramList result; _path := root;
          checkerPlain := (CFunc, []); checkerStrict := (CFunc, []) |}.
Proof. apply new_Checker_stateless. intros strict. reflexivity. Qed.

(** X15. The checkers of a method are those of its property.  When
    [methodArgs(m)] returns a checker, [getProp(m)] returns a checker of the
    method's function type, whose [getArgs()] is that checker and whose
    [getResult()] is what [methodResult(m)] gives.  On a checker whose type
    is not an interface (a name that refers to an interface included),
    [getProp], [methodArgs] and [methodResult] all throw "Type has no
    property", and when the property is not a function [methodArgs] and
    [methodResult] throw "Property ... is not a method". *)
Theorem method_checkers_via_getProp (fuel pfuel : nat) (this : Checker) (m : string) :
  (forall args, methodArgs (S fuel) pfuel this m = Ok args ->
     exists p,
       getProp (S fuel) pfuel this m = Ok p
       /\ getArgs (S fuel) pfuel p = Ok args
       /\ getResult (S fuel) pfuel p = methodResult (S fuel) pfuel this m)
  /\ ((forall bases props index, ttype this <> TIface bases props index) ->
      getProp (S fuel) pfuel this m = Err (Error ("Type has no property " ++ m))
      /\ methodArgs (S fuel) pfuel this m = Err (Error ("Type has no property " ++ m))
      /\ methodResult (S fuel) pfuel this m = Err (Error ("Type has no property " ++ m)))
  /\ (forall p, getProp (S fuel) pfuel this m = Ok p ->
      (forall paramList result, ttype p <> TFunc paramList result) ->
      methodArgs (S fuel) pfuel this m = Err (Error ("Property " ++ m ++ " is not a method"))
      /\ methodResult (S fuel) pfuel this m
         = Err (Error ("Property " ++ m ++ " is not a method"))
      /\ getArgs (S fuel) pfuel p = Err (Error "getArgs() applied to non-function")
      /\ getResult (S fuel) pfuel p = Err (Error "getResult() applied to non-function")).
Proof.
  unfold methodArgs, methodResult, getProp, _getMethod.
  split; [|split].
  - intros args.
    destruct (assoc m _) as [t|]; simpl; [|discriminate].
    destruct t; simpl; try discriminate.
    intros Hargs. rewrite new_Checker_TFunc. eexists. split; [reflexivity|].
    unfold getArgs, getResult. simpl. split; [exact Hargs | reflexivity].
  - intros Hnot. destruct (ttype this) as [| | | | | | | | | | |bases props index| | | |] eqn:Et;
      simpl; try (repeat split; reflexivity).
    exfalso. now apply (Hnot bases props index).
  - intros p. destruct (assoc m _) as [t|]; simpl; [|discriminate].
    intros Hp Hnot. apply new_Checker_fields in Hp. destruct Hp as (_ & Ht & _).
    unfold getArgs, getResult. rewrite Ht in *.
    destruct t; simpl; try (repeat split; reflexivity).
    exfalso. now apply (Hnot t1 t2).
Qed.

Lemma method_checkers_via_getProp_witness :
  exists args p,
    methodArgs 10 10 finderChecker "find" = Ok args
    /\ getProp 10 10 finderChecker "find" = Ok p
    /\ getArgs 10 10 p = Ok args.
Proof.
  eexists.
  assert (H : methodArgs 10 10 finderChecker "find"
              = Ok (the_checker (methodArgs 10 10 finderChecker "find")))
    by (vm_compute; reflexivity).
  destruct (proj1 (method_checkers_via_getProp 9 10 finderChecker "find") _ H)
    as (p & Hp & Ha & _).
  exists p. split; [exact H|]. split; [exact Hp | exact Ha].
Defined.

(** ** The allowed property names of strict mode *)

Lemma bounds_pure {A : Type} D ap (m : M A) :
  (forall s, sets (snd (m s)) = sets s) -> bounds D ap m.
Proof.
  intros H s. rewrite H. split; [lia|]. intros i k _ Hk. now left.
Qed.

Lemma bounds_ret {A : Type} D ap (a : A) : bounds D ap (ret a).
Proof. now apply bounds_pure. Qed.

Lemma bounds_throw {A : Type} D ap e : bounds D ap (@throw A e).
Proof. now apply bounds_pure. Qed.

Lemma bounds_weaken {A : Type} D D' ap (m : M A) :
  bounds D ap m -> incl D D' -> bounds D' ap m.
Proof.
  intros H Hincl s. destruct (H s) as [Hl Hb]. split; [exact Hl|].
  intros i k Hi Hk. destruct (Hb i k Hi Hk) as [H1|[H1 H2]]; [now left|].
  right. split; [exact H1 | now apply Hincl].
Qed.

Lemma bounds_none {A : Type} D D' ap (m : M A) : bounds D None m -> bounds D' ap m.
Proof.
  intros H s. destruct (H s) as [Hl Hb]. split; [exact Hl|].
  intros i k Hi Hk. destruct (Hb i k Hi Hk) as [H1|[H1 _]]; [now left | discriminate].
Qed.

Lemma bounds_mbind {A B : Type} D ap (m : M A) (k : A -> M B) :
  bounds D ap m -> (forall a, bounds D ap (k a)) -> bounds D ap (mbind m k).
Proof.
  intros Hm Hk s. unfold mbind. destruct (Hm s) as [Hl Hb].
  destruct (m s) as [[a|e] s1]; simpl in *; [|split; assumption].
  destruct (Hk a s1) as [Hl1 Hb1]. split; [lia|].
  intros i x Hi Hx. destruct (Hb1 i x ltac:(lia) Hx) as [H|H]; [now apply Hb | now right].
Qed.

Lemma bounds_lift_bind {A B : Type} D ap (r : res A) (k : A -> M B) :
  (forall a, r = Ok a -> bounds D ap (k a)) -> bounds D ap (mbind (lift r) k).
Proof.
  intros Hk. destruct r as [a|e].
  - intros s. exact (Hk a eq_refl s).
  - now apply bounds_pure.
Qed.

Lemma bounds_mapM {A B : Type} D ap (f : A -> M B) (l : list A) :
  (forall x, In x l -> bounds D ap (f x)) -> bounds D ap (mapM f l).
Proof.
  induction l as [|x l IH]; intros Hf; simpl; [apply bounds_ret|].
  apply bounds_mbind; [apply Hf; now left|]. intros b.
  apply bounds_mbind; [apply IH; intros y Hy; apply Hf; now right|]. intros bs.
  apply bounds_ret.
Qed.

Lemma bounds_add_all D a names : incl names D -> bounds D (Some a) (add_all a names).
Proof.
  intros Hincl s. unfold add_all. simpl. rewrite heap_update_length. split; [lia|].
  intros i k Hi. rewrite heap_get_update by exact Hi.
  destruct (Nat.eqb i a) eqn:E; [|now left].
  apply Nat.eqb_eq in E. subst i. intros H.
  destruct (set_has_fold_add _ _ _ H) as [H1|H1]; [now left|].
  right. split; [reflexivity | now apply Hincl].
Qed.

Lemma bounds_default_set {B : Type} D ap (k : nat -> M B) :
  (forall a, bounds D (Some a) (k a)) -> bounds D ap (mbind (default_set ap) k).
Proof.
  intros Hk. destruct ap as [a|]; simpl.
  - intros s. exact (Hk a s).
  - intros s. unfold mbind, new_set. simpl.
    destruct (Hk (List.length (sets s))
                {| building := building s; sets := (sets s ++ [[]])%list |}) as [Hl Hb].
    simpl in *. rewrite length_app in Hl. simpl in Hl. split; [lia|].
    intros i x Hi Hx.
    destruct (Hb i x ltac:(rewrite length_app; simpl; lia) Hx) as [H|[H _]].
    + left. unfold heap_get in *. now rewrite app_nth1 in H.
    + injection H as H. lia.
Qed.

Lemma bounds_slot {A : Type} D ap node (a : A) (m : M A) :
  bounds D ap m ->
  bounds D ap (fun s => if slot_set node s then (Ok a, s)
                        else finally m (uninstall node) (install node s)).
Proof.
  intros Hm s. destruct (slot_set node s).
  - simpl. split; [lia|]. intros i k _ Hk. now left.
  - unfold finally. specialize (Hm (install node s)).
    destruct (m (install node s)) as [r s1]. exact Hm.
Qed.

Lemma bounds_getChecker_of D ap callee (getC : TType -> M Chk) t :
  bounds D ap (getC t) -> bounds D ap (getChecker_of callee getC t).
Proof. intros H. destruct t; simpl; try apply H. apply bounds_throw. Qed.

Lemma getChecker_bounds fuel pf suite :
  forall strict isPartial allowedProps t,
    bounds (declared fuel suite t) allowedProps
      (getChecker fuel pf suite strict isPartial allowedProps t).
Proof.
  induction fuel as [|f IH]; intros strict isPartial ap t; [apply bounds_throw|].
  assert (Hnone : forall D strict isPartial ap t,
             bounds D ap (getChecker f pf suite strict isPartial None t))
    by (intros; eapply bounds_none; apply IH).
  destruct t; cbn [getChecker declared].
  - apply bounds_ret.
  - (* TName *)
    apply bounds_slot. apply bounds_lift_bind. intros t' Ht'. rewrite Ht'.
    apply bounds_mbind; [apply IH|]. intros c.
    destruct (is_Basic_or_Name t'); apply bounds_ret.
  - apply bounds_ret.
  - (* TArray *)
    apply bounds_mbind; [apply Hnone|]. intros c. apply bounds_ret.
  - (* RestType *)
    apply bounds_mbind.
    { destruct typeSpec as [t0|name0]; [apply bounds_ret|].
      apply bounds_pure. intros s. reflexivity. }
    intros arrType. destruct arrType; try apply bounds_throw.
    apply bounds_mbind; [apply Hnone|]. intros c. apply bounds_ret.
  - (* TTuple *)
    apply bounds_mbind; [apply bounds_mapM; intros; apply Hnone|]. intros cs.
    destruct _restType as [r0|].
    + apply bounds_mbind; [apply Hnone|]. intros c. apply bounds_ret.
    + destruct strict; apply bounds_ret.
  - (* TUnion *)
    apply bounds_mbind; [|intros cs; apply bounds_ret].
    apply bounds_mapM. intros x Hx. eapply bounds_weaken; [apply IH|].
    intros k Hk. apply in_flat_map. now exists x.
  - (* TIntersection *)
    apply bounds_default_set. intros a.
    apply bounds_mbind; [|intros cs; apply bounds_ret].
    apply bounds_mapM. intros x Hx. eapply bounds_weaken; [apply IH|].
    intros k Hk. apply in_flat_map. now exists x.
  - (* TPartial *)
    apply bounds_mbind; [apply Hnone|]. intros c. apply bounds_ret.
  - apply bounds_ret.
  - (* TEnumLiteral *)
    apply bounds_lift_bind. intros t' _. destruct t'; try apply bounds_throw.
    destruct (assoc "hasOwnProperty" members); [apply bounds_throw|].
    destruct (assoc prop members); [apply bounds_ret | apply bounds_throw].
  - (* TIface *)
    apply bounds_default_set. intros a.
    apply bounds_mbind; [apply bounds_add_all; now apply incl_appl|]. intros _.
    apply bounds_mbind.
    { apply bounds_mapM. intros b Hb. apply bounds_lift_bind. intros t' Ht'.
      apply bounds_getChecker_of.
      eapply bounds_weaken; [apply IH|].
      intros k Hk. apply in_or_app. right. apply in_flat_map. exists b.
      split; [exact Hb | now rewrite Ht']. }
    intros bcs.
    apply bounds_mbind; [apply bounds_mapM; intros; apply Hnone|]. intros pcs.
    apply bounds_mbind.
    { destruct indexType as [it|]; [|apply bounds_ret].
      apply bounds_mbind; [apply Hnone|]. intros c. apply bounds_ret. }
    intros ic.
    apply bounds_mbind; [apply bounds_pure; intros s; reflexivity|]. intros req.
    apply bounds_ret.
  - (* TOptional *)
    apply bounds_mbind; [apply Hnone|]. intros c. apply bounds_ret.
  - apply bounds_ret.
  - (* TParamList *)
    apply bounds_mbind; [apply bounds_mapM; intros; apply Hnone|]. intros cs.
    apply bounds_mbind; [apply bounds_pure; intros s; reflexivity|]. intros req.
    destruct strict; apply bounds_ret.  - (* not a type *)
    apply bounds_throw.
Qed.

(** X16. Strict mode rejects undeclared keys.  The strict checker of an
    interface without index signature accepts an object only if each of
    its keys is declared: it is a property name of the interface, or of a
    type reached from the types its bases name. *)
Theorem strict_iface_keys_declared
  (fuel pfuel : nat) (full : ITypeSuite) (bases : list string) (props : list TProp)
  (root : string) (this : Checker) (f : nat) (v : value) (k : string) :
  new_Checker fuel pfuel full (TIface bases props None) root = Ok this ->
  strictTest f this v = Ok true ->
  In k (for_in_keys v) ->
  In k (declared fuel full (TIface bases props None)).
Proof.
  unfold new_Checker, compile.
  destruct (getChecker fuel pfuel full false false None (TIface bases props None) _)
    as [[cp|ep] sp]; simpl; [|discriminate].
  destruct (getChecker fuel pfuel full true false None (TIface bases props None)
              {| building := []; sets := [] |}) as [[cs|es] ss] eqn:Es; simpl; [|discriminate].
  intros [= <-]. unfold strictTest, apply. simpl.
  destruct fuel as [|fuel]; [discriminate|].
  rewrite getChecker_TIface_fresh in Es.
  destruct (getChecker_bounds (S fuel) pfuel full true false (Some 0)
              (TIface bases props None) (snd (new_set {| building := []; sets := [] |})))
    as [_ Hb].
  change (List.length (sets {| building := []; sets := [] |})) with 0 in Es.
  rewrite Es in Hb. simpl in Hb.
  destruct (getChecker_TIface_set _ _ _ _ _ _ _ _ _ _ _ _ Es) as (bcs & pcs & ic & a & -> & Hic & Ha).
  simpl in Ha. injection Ha as <-. rewrite (Hic eq_refl).
  destruct (run NoopContext f (sets ss) [] (CIface bcs pcs None true false 0) v newNoop)
    as [[b n]|e] eqn:Er; simpl; [|discriminate].
  intros [= ->] Hk.
  pose proof (run_noop_inv _ _ _ _ _ _ _ Er) as Hn. simpl in Hn. subst n.
  destruct f as [|f]; [discriminate|].
  apply iface_true_inv in Er. destruct Er as (_ & _ & _ & Hx).
  specialize (Hx eq_refl). rewrite Forall_forall in Hx. specialize (Hx k Hk).
  destruct (Hb 0 k ltac:(lia) Hx) as [H|[_ H]]; [discriminate | exact H].
Qed.

Lemma strict_iface_keys_declared_witness :
  strictTest 10 labelledChecker (VObject [("name", VString "A"); ("label", VString "x")])
  = Ok true
  /\ In "name" (declared 10 taggedSuite Labelled).
Proof.
  split; [vm_compute; reflexivity|].
  apply (strict_iface_keys_declared 10 10 taggedSuite ["Named"]
           [mkTProp "label" (TName 1 "string") false] "value" labelledChecker 10
           (VObject [("name", VString "A"); ("label", VString "x")]) "name").
  - vm_compute. reflexivity.
  - vm_compute. reflexivity.
  - simpl. now left.
Defined.

(** ** Trampolines are assigned before they are called *)

Lemma bind_bound {A B : Type} (r : res A) (k : A -> res B) :
  r <> Err unbound -> (forall a, k a <> Err unbound) -> bind r k <> Err unbound.
Proof.
  intros Hr Hk. destruct r; simpl; [apply Hk|].
  intros H. injection H as H. apply Hr. now rewrite H.
Qed.

Ltac bound_tac :=
  repeat first
    [ discriminate
    | progress intros
    | match goal with
      | |- Ok _ <> _ => discriminate
      | |- ret_fail _ _ _ _ _ <> _ => discriminate
      | |- bind _ _ <> _ => apply bind_bound
      | |- (let (_, _) := ?p in _) <> _ => destruct p
      | |- (let '(_, _) := ?p in _) <> _ => destruct p
      | |- (if ?b then _ else _) <> _ => destruct b
      | |- (match ?p with (_, _) => _ end) <> _ => destruct p
      end ].

Section BoundLoops.
Context {C U : Type} (ops : IContext C U).
Variable call : Chk -> CheckerFunc (C := C).

Lemma array_loop_bound c items i ctx :
  (forall v ctx, call c v ctx <> Err unbound) ->
  array_loop ops (call c) items i ctx <> Err unbound.
Proof.
  intros Hc. revert i ctx.
  induction items as [|x items IH]; intros i ctx; simpl; bound_tac; auto.
Qed.

Lemma tuple_loop_bound cs items i ctx :
  (forall c, In c cs -> forall v ctx, call c v ctx <> Err unbound) ->
  tuple_loop ops call cs items i ctx <> Err unbound.
Proof.
  revert i ctx. induction cs as [|c cs IH]; intros i ctx Hc; simpl; bound_tac.
  - apply Hc. now left.
  - apply IH. intros c' Hc'. apply Hc. now right.
Qed.

Lemma param_loop_bound cs items i ctx :
  (forall p, In p cs -> forall v ctx, call (snd (fst p)) v ctx <> Err unbound) ->
  param_loop ops call cs items i ctx <> Err unbound.
Proof.
  revert i ctx. induction cs as [|[[n c] r] cs IH]; intros i ctx Hc; simpl; bound_tac.
  - apply IH. intros p Hp. apply Hc. now right.
  - apply (Hc (n, c, r)). now left.
  - apply IH. intros p Hp. apply Hc. now right.
Qed.

Lemma union_loop_bound cs v ur :
  (forall c, In c cs -> forall v ctx, call c v ctx <> Err unbound) ->
  union_loop ops call cs v ur <> Err unbound.
Proof.
  revert ur. induction cs as [|c cs IH]; intros ur Hc; simpl; bound_tac.
  - apply Hc. now left.
  - apply IH. intros c' Hc'. apply Hc. now right.
Qed.

Lemma fork_loop_bound cs v ctx :
  (forall c, In c cs -> forall v ctx, call c v ctx <> Err unbound) ->
  fork_loop ops call cs v ctx <> Err unbound.
Proof.
  revert ctx. induction cs as [|c cs IH]; intros ctx Hc; simpl; bound_tac.
  - apply Hc. now left.
  - apply IH. intros c' Hc'. apply Hc. now right.
Qed.

Lemma prop_loop_bound isPartial ps v ctx :
  (forall p, In p ps -> forall v ctx, call (snd (fst p)) v ctx <> Err unbound) ->
  prop_loop ops call isPartial ps v ctx <> Err unbound.
Proof.
  revert ctx. induction ps as [|[[n c] r] ps IH]; intros ctx Hc; simpl; bound_tac.
  - apply (Hc (n, c, r)). now left.
  - apply IH. intros p Hp. apply Hc. now right.
Qed.

Lemma index_loop_bound c keys v ctx :
  (forall v ctx, call c v ctx <> Err unbound) ->
  index_loop ops (call c) keys v ctx <> Err unbound.
Proof.
  intros Hc. revert ctx.
  induction keys as [|k ks IH]; intros ctx; simpl; bound_tac; auto.
Qed.
End BoundLoops.

Lemma assigned_cons env B node c : assigned env B -> assigned ((node, c) :: env) (node :: B).
Proof.
  intros H n Hn. simpl. destruct (Nat.eqb n node) eqn:E; [discriminate|].
  destruct Hn as [<-|Hn]; [now rewrite Nat.eqb_refl in E | now apply H].
Qed.

Lemma assigned_weaken env B node c : assigned env B -> assigned ((node, c) :: env) B.
Proof.
  intros H n Hn. simpl. destruct (Nat.eqb n node); [discriminate | now apply H].
Qed.

Lemma env_closed_cons env B node c :
  env_closed env -> closed (node :: B) c = true -> assigned env B ->
  env_closed ((node, c) :: env).
Proof.
  intros Henv Hc Ha n c' Hcell. simpl in Hcell. destruct (Nat.eqb n node).
  - injection Hcell as <-. exists (node :: B). split; [exact Hc | now apply assigned_cons].
  - destruct (Henv n c' Hcell) as (B' & Hc' & Ha').
    exists B'. split; [exact Hc' | now apply assigned_weaken].
Qed.

Lemma run_bound {C U : Type} (ops : IContext C U) f heap :
  forall env c v ctx B,
    env_closed env -> closed B c = true -> assigned env B ->
    run ops f heap env c v ctx <> Err unbound.
Proof.
  induction f as [|f IH]; intros env c v ctx B Henv Hc Ha; [discriminate|].
  assert (Hcall : forall c, closed B c = true ->
                    forall v ctx, run ops f heap env c v ctx <> Err unbound)
    by (intros; eapply IH; eauto).
  destruct c as [validator message|node|node cf|c0 msg|lit msg|c0|c0 start|cs|c1 c2|c0 n|cs msg
                |cs|c0|c0|vals msg|val msg|bcs pcs ic strict isPartial a| |pcs];
    simpl in Hc; simpl.
  - bound_tac.
  - destruct (cell env node) as [cf|] eqn:Ec.
    + destruct (Henv _ _ Ec) as (B' & Hc' & Ha'). eapply IH; eauto.
    + exfalso. apply existsb_exists in Hc. destruct Hc as (n & Hin & Hn).
      apply Nat.eqb_eq in Hn. subst n. now apply (Ha node).
  - apply (IH _ _ _ _ (node :: B)); [eapply env_closed_cons; eauto | exact Hc |].
    now apply assigned_cons.
  - bound_tac. now apply Hcall.
  - bound_tac.
  - destruct v; bound_tac. apply array_loop_bound. now apply Hcall.
  - unfold unbound.
    destruct v; try discriminate; destruct start; try discriminate.
    apply array_loop_bound. now apply Hcall.
  - destruct v; bound_tac. apply tuple_loop_bound. intros c Hin.
    apply Hcall. rewrite forallb_forall in Hc. now apply Hc.
  - apply andb_true_iff in Hc. destruct Hc as [H1 H2]. bound_tac; now apply Hcall.
  - bound_tac; [now apply Hcall|]. destruct v; bound_tac.
  - bound_tac. apply union_loop_bound. intros c Hin.
    apply Hcall. rewrite forallb_forall in Hc. now apply Hc.
  - bound_tac. apply fork_loop_bound. intros c Hin.
    apply Hcall. rewrite forallb_forall in Hc. now apply Hc.
  - bound_tac. now apply Hcall.
  - bound_tac. now apply Hcall.
  - bound_tac.
  - bound_tac.
  - apply andb_true_iff in Hc. destruct Hc as [Hc H3].
    apply andb_true_iff in Hc. destruct Hc as [H1 H2].
    rewrite forallb_forall in H1, H2.
    bound_tac.
    + apply fork_loop_bound. intros c Hin. apply Hcall. now apply H1.
    + apply prop_loop_bound. intros p Hin. apply Hcall. now apply H2.
    + destruct ic as [ichk|]; bound_tac. apply index_loop_bound. now apply Hcall.
  - bound_tac.
  - destruct v; bound_tac. apply param_loop_bound. intros p Hin.
    apply Hcall. rewrite forallb_forall in Hc. now apply Hc.
Qed.

Lemma post_ret {A : Type} B (Q : A -> Prop) a : Q a -> post B Q (ret a).
Proof. intros H s x s' Hs [= <- <-]. auto. Qed.

Lemma post_throw {A : Type} B (Q : A -> Prop) e : post B Q (throw e).
Proof. intros s x s' Hs H. discriminate. Qed.

Lemma post_state {A : Type} B (Q : A -> Prop) (m : M A) :
  (forall s, building (snd (m s)) = building s) ->
  (forall s a, fst (m s) = Ok a -> Q a) ->
  post B Q m.
Proof.
  intros Hb Hq s a s' Hs H. split.
  - apply (Hq s). now rewrite H.
  - specialize (Hb s). rewrite H in Hb. simpl in Hb. congruence.
Qed.

Lemma post_mbind {A A' : Type} B (Q : A -> Prop) (R : A' -> Prop) (m : M A) (k : A -> M A') :
  post B Q m -> (forall a, Q a -> post B R (k a)) -> post B R (mbind m k).
Proof.
  intros Hm Hk s b s' Hs. unfold mbind.
  destruct (m s) as [[a|e] s1] eqn:E; [|discriminate].
  destruct (Hm _ _ _ Hs E) as [Ha Hs1]. now apply Hk.
Qed.

Lemma post_mapM {A A' : Type} B (Q : A' -> Prop) (f : A -> M A') (l : list A) :
  (forall x, post B Q (f x)) -> post B (Forall Q) (mapM f l).
Proof.
  intros Hf. induction l as [|x l IH]; simpl.
  - apply post_ret. constructor.
  - eapply post_mbind; [apply Hf|]. intros b Hb.
    eapply post_mbind; [apply IH|]. intros bs Hbs.
    apply post_ret. now constructor.
Qed.

Lemma filter_not_in node B :
  existsb (Nat.eqb node) B = false -> filter (fun n => negb (Nat.eqb node n)) B = B.
Proof.
  induction B as [|n B IH]; simpl; [reflexivity|].
  intros H. apply orb_false_iff in H. destruct H as [H1 H2].
  rewrite H1. simpl. now rewrite IH.
Qed.

Lemma Forall_closed_forallb B cs :
  Forall (fun c => closed B c = true) cs -> forallb (closed B) cs = true.
Proof. intros H. apply forallb_forall. now apply Forall_forall. Qed.

Lemma Forall_closed_zip3 B (names : list string) items (req : list bool) :
  Forall (fun c => closed B c = true) items ->
  forallb (fun p => closed B (snd (fst p))) (zip3 names items req) = true.
Proof.
  intros H. apply forallb_forall. intros [[n c] r] Hin. simpl.
  unfold zip3 in Hin. apply in_combine_l in Hin. apply in_combine_r in Hin.
  rewrite Forall_forall in H. now apply H.
Qed.

Lemma post_getChecker_of B (Q : Chk -> Prop) callee (getC : TType -> M Chk) t :
  post B Q (getC t) -> post B Q (getChecker_of callee getC t).
Proof. intros H. destruct t; simpl; try apply H. apply post_throw. Qed.

Lemma getChecker_closed fuel pf suite :
  forall strict isPartial allowedProps t B,
    post B (fun c => closed B c = true)
      (getChecker fuel pf suite strict isPartial allowedProps t).
Proof.
  induction fuel as [|f IH]; intros strict isPartial ap t B; [apply post_throw|].
  assert (Hlist : forall strict isPartial ap (l : list TType),
             post B (Forall (fun c => closed B c = true))
               (mapM (getChecker f pf suite strict isPartial ap) l))
    by (intros; apply post_mapM; intros; apply IH).
  destruct t; cbn [getChecker].
  - now apply post_ret.
  - (* TName *)
    intros s c s' Hs. destruct (slot_set node s) eqn:Eslot.
    { intros [= <- <-]. split; [|exact Hs]. simpl. unfold slot_set in Eslot. now rewrite <- Hs. }
    unfold finally.
    match goal with |- context [mbind ?m ?k (install node s)] =>
      assert (Hpost : post (node :: B) (fun c => closed B c = true) (mbind m k)) end.
    { eapply (post_mbind _ (fun _ => True)).
      { apply post_state; [reflexivity | auto]. }
      intros t' _. eapply post_mbind; [apply IH|]. intros c' Hc'.
      destruct (is_Basic_or_Name t'); now apply post_ret. }
    specialize (Hpost (install node s)).
    match goal with |- context [mbind ?m ?k (install node s)] =>
      destruct (mbind m k (install node s)) as [r s1] end.
    intros [= -> <-].
    destruct (Hpost _ _ (f_equal (cons node) Hs) eq_refl) as [Hc Hb].
    split; [exact Hc|]. simpl. rewrite Hb. simpl. rewrite Nat.eqb_refl. simpl.
    apply filter_not_in. unfold slot_set in Eslot. now rewrite <- Hs.
  - now apply post_ret.
  - (* TArray *)
    eapply post_mbind; [apply IH|]. intros c Hc. now apply post_ret.
  - (* RestType *)
    eapply (post_mbind _ (fun _ => True)).
    { apply post_state; [|auto]. intros s. now destruct typeSpec. }
    intros arrType _. destruct arrType; try apply post_throw.
    eapply post_mbind; [apply IH|]. intros c Hc. now apply post_ret.
  - (* TTuple *)
    eapply post_mbind; [apply Hlist|]. intros cs Hcs.
    apply Forall_closed_forallb in Hcs.
    destruct _restType as [r0|].
    + eapply post_mbind; [apply IH|]. intros c Hc. apply post_ret. simpl.
      now rewrite Hcs, Hc.
    + destruct strict; now apply post_ret.
  - (* TUnion *)
    eapply post_mbind; [apply Hlist|]. intros cs Hcs.
    apply post_ret. now apply Forall_closed_forallb.
  - (* TIntersection *)
    eapply (post_mbind _ (fun _ => True)).
    { apply post_state; [|auto]. intros s. destruct ap; reflexivity. }
    intros a _. eapply post_mbind; [apply Hlist|]. intros cs Hcs.
    apply post_ret. now apply Forall_closed_forallb.
  - (* TPartial *)
    eapply post_mbind; [apply IH|]. intros c Hc. now apply post_ret.
  - now apply post_ret.
  - (* TEnumLiteral *)
    eapply (post_mbind _ (fun _ => True)).
    { apply post_state; [reflexivity | auto]. }
    intros t' _. destruct t'; try apply post_throw.
    destruct (assoc "hasOwnProperty" members); [apply post_throw|].
    destruct (assoc prop members); [now apply post_ret | apply post_throw].
  - (* TIface *)
    eapply (post_mbind _ (fun _ => True)).
    { apply post_state; [|auto]. intros s. destruct ap; reflexivity. }
    intros a _.
    eapply (post_mbind _ (fun _ => True)).
    { apply post_state; [reflexivity | auto]. }
    intros _ _.
    eapply post_mbind.
    { apply (post_mapM _ (fun c => closed B c = true)). intros b.
      eapply (post_mbind _ (fun _ => True)).
      { apply post_state; [reflexivity | auto]. }
      intros t' _. apply post_getChecker_of. apply IH. }
    intros bcs Hbcs.
    eapply post_mbind.
    { apply (post_mapM _ (fun c => closed B c = true)). intros p. apply IH. }
    intros items Hitems.
    eapply (post_mbind _ (fun ic => match ic with Some c => closed B c = true
                                             | None => True end)).
    { destruct indexType as [it|]; [|now apply post_ret].
      eapply post_mbind; [apply IH|]. intros c Hc. now apply post_ret. }
    intros ic Hic.
    eapply (post_mbind _ (fun _ => True)).
    { apply post_state; [reflexivity | auto]. }
    intros req _. apply post_ret. simpl.
    rewrite (Forall_closed_forallb _ _ Hbcs), (Forall_closed_zip3 _ _ _ _ Hitems). simpl.
    destruct ic; [exact Hic | reflexivity].
  - (* TOptional *)
    eapply post_mbind; [apply IH|]. intros c Hc. now apply post_ret.
  - now apply post_ret.
  - (* TParamList *)
    eapply post_mbind.
    { apply (post_mapM _ (fun c => closed B c = true)). intros p. apply IH. }
    intros items Hitems.
    eapply (post_mbind _ (fun _ => True)).
    { apply post_state; [reflexivity | auto]. }
    intros req _.
    destruct strict; apply post_ret; simpl; now apply Forall_closed_zip3.  - (* not a type *)
    apply post_throw.
Qed.

(** X17. Trampolines are assigned before they are called.  Once the
    constructor of [Checker] has returned, no check ever calls the
    trampoline of a recursive name while its [checkerFunc] is unassigned:
    in every context and on every value, neither the plain nor the strict
    checker throws "checkerFunc is not a function". *)
Theorem built_checker_trampolines_assigned
  {C U : Type} (ops : IContext C U)
  (fuel pfuel : nat) (full : ITypeSuite) (t : TType) (root : string) (this : Checker)
  (f : nat) (v : value) (ctx : C) :
  new_Checker fuel pfuel full t root = Ok this ->
  apply f ops (checkerPlain this) v ctx <> Err unbound
  /\ apply f ops (checkerStrict this) v ctx <> Err unbound.
Proof.
  unfold new_Checker, compile.
  destruct (getChecker fuel pfuel full false false None t {| building := []; sets := [] |})
    as [[cp|ep] sp] eqn:Ep; simpl; [|discriminate].
  destruct (getChecker fuel pfuel full true false None t {| building := []; sets := [] |})
    as [[cs|es] ss] eqn:Es; simpl; [|discriminate].
  intros [= <-]. unfold apply. simpl.
  assert (Henv : env_closed []) by (intros n c H; discriminate).
  assert (Ha : assigned [] []) by (intros n []).
  split.
  - destruct (getChecker_closed _ _ _ _ _ _ _ [] {| building := []; sets := [] |} _ _
                eq_refl Ep) as [Hc _].
    exact (run_bound ops f (sets sp) [] cp v ctx [] Henv Hc Ha).
  - destruct (getChecker_closed _ _ _ _ _ _ _ [] {| building := []; sets := [] |} _ _
                eq_refl Es) as [Hc _].
    exact (run_bound ops f (sets ss) [] cs v ctx [] Henv Hc Ha).
Qed.

Lemma built_checker_trampolines_assigned_witness :
  new_Checker 10 10 treeSuite Tree "value" = Ok treeChecker
  /\ apply 10 NoopContext (checkerPlain treeChecker) (VObject []) newNoop <> Err unbound.
Proof.
  assert (H : new_Checker 10 10 treeSuite Tree "value" = Ok treeChecker)
    by (vm_compute; reflexivity).
  split; [exact H|].
  exact (proj1 (built_checker_trampolines_assigned NoopContext 10 10 treeSuite Tree "value"
                  treeChecker 10 (VObject []) newNoop H)).
Defined.

(** ** Errors of the constructors and of the first compilation *)

Lemma mapM_throws {A B : Type} (f : A -> M B) pre x post s bs s1 e s2 :
  mapM f pre s = (Ok bs, s1) ->
  f x s1 = (Err e, s2) ->
  mapM f (pre ++ x :: post)%list s = (Err e, s2).
Proof.
  revert s bs. induction pre as [|a pre IH]; intros s bs; simpl.
  - unfold ret. intros [= <- <-] Hx. unfold mbind. now rewrite Hx.
  - unfold mbind at 1 3. destruct (f a s) as [[b|e0] s0]; [|discriminate].
    unfold mbind at 1. destruct (mapM f pre s0) as [[bs0|e0] s3] eqn:Em; [|discriminate].
    unfold ret. intros [= <- <-] Hx.
    unfold mbind. now rewrite (IH _ _ Em Hx).
Qed.

Lemma compile_throws fuel pf suite t s e :
  getChecker fuel pf suite false false None t {| building := []; sets := [] |} = (Err e, s) ->
  forall root, new_Checker fuel pf suite t root = Err e.
Proof. intros H root. unfold new_Checker, compile. now rewrite H. Qed.

(** X18. Errors of the constructors and of the first compilation, which
    the constructor of [Checker] runs, so that they reach its caller.  A
    type name that the suite does not define throws "Unknown type ...",
    unless it is the name of a member of [Object.prototype], which
    [suite[name]] finds: then a [TypeError] is thrown.  An enum literal
    throws the error of its enum's name, "... used in enumlit is not an
    enum type" when the name is not an enum type, and "Unknown value ...
    used in enumlit" when the enum has no such member (a [TypeError] when
    the enum has a member named [hasOwnProperty], the method called to find
    out).  A [rest] whose
    type, given in place or by name, is not an array throws "Rest type must
    be an array".  The constructor of [TTuple] lifts a [rest] in the last
    position out of the list of the fixed elements and sets its start to
    their number; it leaves the list as it is otherwise.  The error thrown
    by compiling an element of a tuple, or its lifted [rest], after the
    elements before it have compiled, is thrown by the tuple. *)
Theorem compile_errors_reach_constructor (fuel pf : nat) (suite : ITypeSuite) (root : string) :
  (forall node name,
     assoc name suite = None ->
     new_Checker (S (S fuel)) pf suite (TName node name) root
     = Err (if is_member name Object_prototype
            then TypeError "ttype.getChecker is not a function"
            else Error ("Unknown type " ++ name)))
  /\ (forall enumName prop,
        (forall e, getNamedType suite enumName = Err e ->
           new_Checker (S fuel) pf suite (TEnumLiteral enumName prop) root = Err e)
        /\ (forall t, getNamedType suite enumName = Ok t ->
              (forall members, t <> TEnumType members) ->
              new_Checker (S fuel) pf suite (TEnumLiteral enumName prop) root
              = Err (Error ("Type " ++ enumName ++ " used in enumlit is not an enum type")))
        /\ (forall members, getNamedType suite enumName = Ok (TEnumType members) ->
              assoc "hasOwnProperty" members = None ->
              assoc prop members = None ->
              new_Checker (S fuel) pf suite (TEnumLiteral enumName prop) root
              = Err (Error ("Unknown value " ++ enumName ++ "." ++ prop
                            ++ " used in enumlit")))
        /\ (forall members val, getNamedType suite enumName = Ok (TEnumType members) ->
              assoc "hasOwnProperty" members = Some val ->
              new_Checker (S fuel) pf suite (TEnumLiteral enumName prop) root
              = Err (TypeError "ttype.members.hasOwnProperty is not a function")))
  /\ (forall start,
        (forall t, (forall elt, t <> TArray elt) ->
           new_Checker (S fuel) pf suite (RestType (inl t) start) root
           = Err (Error "Rest type must be an array"))
        /\ (forall name t, getNamedType suite name = Ok t ->
              (forall elt, t <> TArray elt) ->
              new_Checker (S fuel) pf suite (RestType (inr name) start) root
              = Err (Error "Rest type must be an array"))
        /\ (forall name e, getNamedType suite name = Err e ->
              new_Checker (S fuel) pf suite (RestType (inr name) start) root = Err e))
  /\ (forall front spec start,
        new_TTuple (front ++ [RestType spec start])
        = TTuple front (Some (RestType spec (Some (List.length front)))))
  /\ (forall front last, is_RestType last = false ->
        new_TTuple (front ++ [last]) = TTuple (front ++ [last])%list None)
  /\ (forall pre x post restType cs s1 e,
        mapM (getChecker fuel pf suite false false None) pre {| building := []; sets := [] |}
        = (Ok cs, s1) ->
        fst (getChecker fuel pf suite false false None x s1) = Err e ->
        new_Checker (S fuel) pf suite (TTuple (pre ++ x :: post) restType) root = Err e)
  /\ (forall front r cs s1 e,
        mapM (getChecker fuel pf suite false false None) front {| building := []; sets := [] |}
        = (Ok cs, s1) ->
        fst (getChecker fuel pf suite false false None r s1) = Err e ->
        new_Checker (S fuel) pf suite (TTuple front (Some r)) root = Err e).
Proof.
  repeat apply conj.
  - intros node name Hnone.
    destruct (is_member name Object_prototype) eqn:Em.
    + eapply compile_throws. apply getChecker_inherited_name; [reflexivity|].
      now apply getNamedType_inherited.
    + eapply compile_throws. apply getChecker_unknown_name; [reflexivity|].
      now apply getNamedType_unknown.
  - intros enumName prop. repeat apply conj.
    + intros e He. eapply compile_throws. now apply getChecker_enumlit_unknown_enum.
    + intros t Ht Hne. eapply compile_throws. eapply getChecker_enumlit_not_enum; eauto.
    + intros members Ht Hh Hp. eapply compile_throws.
      eapply getChecker_enumlit_unknown_member; eauto.
    + intros members val Ht Hh. eapply compile_throws.
      eapply getChecker_enumlit_hasOwnProperty; eauto.
  - intros start. repeat apply conj.
    + intros t Hne. eapply compile_throws. now apply getChecker_rest_not_array.
    + intros name t Ht Hne. eapply compile_throws.
      eapply getChecker_rest_named_not_array; eauto.
    + intros name e He. eapply compile_throws. now apply getChecker_rest_unknown_name.
  - apply new_TTuple_final_rest.
  - apply new_TTuple_no_final_rest.
  - intros pre x post restType cs s1 e Hpre Hx.
    destruct (getChecker fuel pf suite false false None x s1) as [r s2] eqn:Ex.
    simpl in Hx. subst r.
    eapply compile_throws. simpl. unfold mbind at 1.
    now rewrite (mapM_throws _ _ _ post _ _ _ _ _ Hpre Ex).
  - intros front r cs s1 e Hfront Hr.
    destruct (getChecker fuel pf suite false false None r s1) as [o s2] eqn:Er.
    simpl in Hr. subst o.
    eapply compile_throws. simpl. unfold mbind at 1. rewrite Hfront.
    unfold mbind. now rewrite Er.
Qed.

Lemma compile_errors_reach_constructor_witness :
  stringThenRestNumber
  = TTuple [TName 1 "string"] (Some (RestType (inr "number") (Some 1)))
  /\ new_Checker 3 3 (fullSuite []) stringThenRestNumber "value"
     = Err (Error "Rest type must be an array")
  /\ new_Checker 4 3 (fullSuite []) (TName 1 "Person") "value"
     = Err (Error "Unknown type Person")
  /\ new_Checker 4 3 (fullSuite []) (TName 1 "toString") "value"
     = Err (TypeError "ttype.getChecker is not a function").
Proof.
  pose proof (compile_errors_reach_constructor 2 3 (fullSuite []) "value")
    as (Hname & _ & Hrest & Hlift & _ & _ & Htail).
  split; [exact (Hlift [TName 1 "string"] (inr "number") None)|].
  split; [|split].
  - refine (Htail [TName 1 "string"] (RestType (inr "number") (Some 1)) _ _ _ _ _).
    + vm_compute. reflexivity.
    + vm_compute. reflexivity.
  - exact (Hname 1 "Person" eq_refl).
  - exact (Hname 1 "toString" eq_refl).
Defined.

(** ** Required properties of an interface *)

Lemma iface_missing_reported f this bcs pcs ic strict a heap name pc v :
  In (name, pc, true) pcs ->
  is_object v = true ->
  get_prop v name = VUndefined ->
  forall checkerFunc, checkerFunc = (CIface bcs pcs ic strict false a, heap) ->
  (forall ctx, apply f NoopContext checkerFunc v newNoop <> Ok (true, ctx))
  /\ (forall ctx, apply f NoopContext checkerFunc v newNoop = Ok (false, ctx) ->
        exists details,
          _doValidate f this checkerFunc v = Ok (Some details)
          /\ In {| path := _path this ++ "." ++ name; message := "is missing" |} details).
Proof.
  intros Hin Hobj Hu checkerFunc Hc.
  destruct (facade_iface_missing f this bcs pcs ic strict a heap name pc v Hin Hobj Hu
              checkerFunc Hc) as [Hn Hv].
  split.
  - intros ctx H. apply Hn in H. discriminate.
  - intros ctx H.
    destruct (proj1 (facade_rejected f this checkerFunc v) ctx H) as (d & _ & Hval & _).
    destruct (Hv _ Hval) as (details & Hd & Hi).
    exists details. split; [now rewrite Hval, Hd | exact Hi].
Qed.

Lemma iface_flags_and_missing fuel pf suite strict bases props idx s c s' :
  getChecker (S fuel) pf suite strict false None (TIface bases props idx) s = (Ok c, s') ->
  exists bcs pcs ic a,
    c = CIface bcs pcs ic strict false a
    /\ map (fun x => fst (fst x)) pcs = map prop_name props
    /\ (forall i p name pc r,
          nth_error props i = Some p -> nth_error pcs i = Some (name, pc, r) ->
          exists t,
            testCtx_before pf (sets s')
              (combine (map prop_isOpt props) (map (fun x => snd (fst x)) pcs)) i newNoop
            = Ok t
            /\ (r = true <->
                prop_isOpt p = false
                /\ exists t', run NoopContext pf (sets s') [] pc VUndefined t = Ok (false, t'))
            /\ (t = false ->
                (r = true <->
                 prop_isOpt p = false
                 /\ exists t', run NoopContext pf (sets s') [] pc VUndefined newNoop
                               = Ok (false, t'))))
    /\ (forall this name pc v f,
          In (name, pc, true) pcs -> is_object v = true -> get_prop v name = VUndefined ->
          (forall ctx, apply f NoopContext (c, sets s') v newNoop <> Ok (true, ctx))
          /\ (forall ctx, apply f NoopContext (c, sets s') v newNoop = Ok (false, ctx) ->
                exists details,
                  _doValidate f this (c, sets s') v = Ok (Some details)
                  /\ In {| path := _path this ++ "." ++ name; message := "is missing" |}
                        details)).
Proof.
  intros Hc.
  apply getChecker_TIface_shape in Hc as (bcs & pcs & ic & a & -> & _ & Hnames & _ & Hprobe).
  exists bcs, pcs, ic, a. repeat apply conj.
  - reflexivity.
  - exact Hnames.
  - intros i p name pc r Hp Hpc.
    destruct (probe_required_at _ _ _ _ _ Hprobe i (prop_isOpt p) pc)
      as (t & r' & Ht & Hr & Hiff).
    { apply nth_error_combine.
      - rewrite nth_error_map, Hp. reflexivity.
      - rewrite nth_error_map, Hpc. reflexivity. }
    rewrite nth_error_map, Hpc in Hr. simpl in Hr. injection Hr as <-.
    exists t. split; [exact Ht|]. split; [exact Hiff|].
    intros ->. exact Hiff.
  - intros this name pc v f Hin Hobj Hu.
    exact (iface_missing_reported f this bcs pcs ic strict a (sets s') name pc v
             Hin Hobj Hu _ eq_refl).
Qed.

(** X19. Required properties.  In the checker compiled from an interface,
    plain or strict, a property is flagged required iff it is not declared
    optional and its compiled checker, called on [undefined] with the test
    context shared by these calls, returns false; for a property before
    which that context has not failed, this is iff its checker, called on
    [undefined] in a context that has not failed, returns false.  On an
    object in which a property flagged required is missing, [test] does not
    return true, and when it returns (false), [validate] returns a list in
    which "is missing" is reported at the path of that property.  A
    missing property that is not flagged, and any missing property inside
    a Partial, is skipped: the context is left as it was. *)
Theorem iface_required_property
  (fuel pf : nat) (suite : ITypeSuite) (bases : list string) (props : list TProp)
  (idx : option TType) (root : string) (this : Checker) :
  new_Checker (S fuel) pf suite (TIface bases props idx) root = Ok this ->
  (forall strict : bool,
     exists bcs pcs ic a heap,
       (if strict then checkerStrict this else checkerPlain this)
       = (CIface bcs pcs ic strict false a, heap)
       /\ map (fun x => fst (fst x)) pcs = map prop_name props
       /\ (forall i p name pc r,
             nth_error props i = Some p -> nth_error pcs i = Some (name, pc, r) ->
             exists t,
               testCtx_before pf heap
                 (combine (map prop_isOpt props) (map (fun x => snd (fst x)) pcs)) i newNoop
               = Ok t
               /\ (r = true <->
                   prop_isOpt p = false
                   /\ exists t', run NoopContext pf heap [] pc VUndefined t = Ok (false, t'))
               /\ (t = false ->
                   (r = true <->
                    prop_isOpt p = false
                    /\ exists t', run NoopContext pf heap [] pc VUndefined newNoop
                                  = Ok (false, t'))))
       /\ (forall name pc v f,
             In (name, pc, true) pcs -> is_object v = true -> get_prop v name = VUndefined ->
             (if strict then strictTest f this v else test f this v) <> Ok true
             /\ ((if strict then strictTest f this v else test f this v) = Ok false ->
                 exists details,
                   (if strict then strictValidate f this v else validate f this v)
                   = Ok (Some details)
                   /\ In {| path := root ++ "." ++ name; message := "is missing" |} details)))
  /\ (forall (C U : Type) (ops : IContext C U) (call : Chk -> CheckerFunc (C := C))
             isPartial name pc r v ctx,
        get_prop v name = VUndefined ->
        prop_step ops call isPartial (name, pc, false) v ctx = Ok (true, ctx)
        /\ prop_step ops call true (name, pc, r) v ctx = Ok (true, ctx)).
Proof.
  unfold new_Checker, compile, bind.
  destruct (getChecker (S fuel) pf suite false false None (TIface bases props idx) _)
    as [[cp|e] s1] eqn:Eplain; [|discriminate].
  destruct (getChecker (S fuel) pf suite true false None (TIface bases props idx) _)
    as [[cs|e] s2] eqn:Estrict; [|discriminate].
  intros H. injection H as <-. split.
  - intros [|]; cbn [checkerPlain checkerStrict].
    + destruct (iface_flags_and_missing _ _ _ _ _ _ _ _ _ _ Estrict)
        as (bcs & pcs & ic & a & Hc & Hnames & Hflags & Hmiss).
      exists bcs, pcs, ic, a, (sets s2).
      split; [now rewrite Hc|]. split; [exact Hnames|]. split; [exact Hflags|].
      intros name pc v f Hin Hobj Hu.
      match goal with
      | |- context [strictTest f ?T v] => set (this := T)
      end.
      destruct (Hmiss this name pc v f Hin Hobj Hu) as [Hn Hv].
      unfold strictTest, strictValidate. cbn [checkerStrict this].
      destruct (apply f NoopContext (cs, sets s2) v newNoop) as [[ok ctx]|e] eqn:E; simpl.
      * split.
        -- intros [= ->]. exact (Hn ctx eq_refl).
        -- intros [= ->]. exact (Hv ctx eq_refl).
      * split; discriminate.
    + destruct (iface_flags_and_missing _ _ _ _ _ _ _ _ _ _ Eplain)
        as (bcs & pcs & ic & a & Hc & Hnames & Hflags & Hmiss).
      exists bcs, pcs, ic, a, (sets s1).
      split; [now rewrite Hc|]. split; [exact Hnames|]. split; [exact Hflags|].
      intros name pc v f Hin Hobj Hu.
      match goal with
      | |- context [test f ?T v] => set (this := T)
      end.
      destruct (Hmiss this name pc v f Hin Hobj Hu) as [Hn Hv].
      unfold test, validate. cbn [checkerPlain this].
      destruct (apply f NoopContext (cp, sets s1) v newNoop) as [[ok ctx]|e] eqn:E; simpl.
      * split.
        -- intros [= ->]. exact (Hn ctx eq_refl).
        -- intros [= ->]. exact (Hv ctx eq_refl).
      * split; discriminate.
  - intros C U ops call isPartial name pc r v ctx Hu. unfold prop_step. rewrite Hu. simpl.
    split; [reflexivity|]. now rewrite andb_false_r.
Qed.

Lemma iface_required_property_witness :
  test 10 personChecker (VObject [("name", VString "A")]) = Ok false
  /\ exists details,
       validate 10 personChecker (VObject [("name", VString "A")]) = Ok (Some details)
       /\ In {| path := "value.age"; message := "is missing" |} details.
Proof.
  split; [reflexivity|].
  destruct (proj1 (iface_required_property 9 10 personSuite []
                     [mkTProp "name" (TName 1 "string") false;
                      mkTProp "age" (TName 2 "number") false]
                     None "value" personChecker eq_refl) false)
    as (bcs & pcs & ic & a & heap & Hc & _ & _ & Hmiss).
  injection Hc as <- <- <- <- <-.
  refine (proj2 (Hmiss "age" _ (VObject [("name", VString "A")]) 10 _ eq_refl eq_refl)
            eq_refl).
  right. left. reflexivity.
Defined.
